(** * Semantic analysis of Nimble programs: a shallow embedding

    The two listeners of [nimblesemantics.py], [DefineScopesAndSymbols]
    and [InferTypesAndCheckConstraints], are embedded as event handlers over
    an explicit analysis state.  The handlers run in a small state and
    exception monad: a Python exception aborts the walk and keeps the
    mutations made so far. *)

From stdpp Require Import gmap strings list fin_maps.

Set Warnings "-register-all,-clear-no-such-hyp".

(** ** Types and symbols ([symboltable]) *)

(** Modelled from the spec: the [symboltable] module is not part of the
    sources at hand.  [PrimitiveType] is the closed enumeration
    Int, Bool, String, Void, ERROR. *)
Module PrimitiveType.
Inductive t : Set := Int | Bool | String | Void | ERROR.

#[global] Instance eq_dec : EqDecision t.
Proof. solve_decision. Defined.
End PrimitiveType.

(** A TYPE terminal node of the parse tree, identified by its text. *)
Definition TerminalNode := string.

(** Modelled from the spec: a [FunctionType] is an ordered sequence of
    parameter types and a return type, equal when both are.  Pass 1 fills the
    sequence with the TYPE terminal nodes of the parameter definitions. *)
Record FunctionType := mkFunctionType {
  parameter_types : list TerminalNode;
  ft_return_type : PrimitiveType.t }.

#[global] Instance FunctionType_eq_dec : EqDecision FunctionType.
Proof. solve_decision. Defined.

(** The type held by a symbol: a primitive type or a function type. *)
Inductive Ty :=
| TPrim (t : PrimitiveType.t)
| TFunc (f : FunctionType).

#[global] Instance Ty_eq_dec : EqDecision Ty.
Proof. solve_decision. Defined.

(** Modelled from the spec: a [Symbol] has a name, a type and the
    [is_param] flag. *)
Record Symbol := mkSymbol {
  sym_name : string;
  sym_type : Ty;
  is_param : bool }.

#[global] Instance Symbol_eq_dec : EqDecision Symbol.
Proof. solve_decision. Defined.

(** The Python objects that the handlers store in [type_of] or compare with
    [==]: a type, a [Symbol] object, or [None]. *)
Inductive Value :=
| VType (t : Ty)
| VSymbol (s : Symbol)
| VNone.

#[global] Instance Value_eq_dec : EqDecision Value.
Proof. solve_decision. Defined.

(** [PrimitiveType.X] as a Python object. *)
Definition prim (t : PrimitiveType.t) : Value := VType (TPrim t).

(** Python [a == b] and [a != b] on these objects: enumeration members are
    equal to themselves only, and a [Symbol] is never equal to a type. *)
Definition py_eq (a b : Value) : bool := bool_decide (a = b).
Definition py_ne (a b : Value) : bool := negb (py_eq a b).

(** Python truth value of an object used as a condition.  Modelled from the
    spec: [PrimitiveType] is a plain enumeration, and every member of a
    Python [Enum] is true; a [Symbol] object is true; [None] is false. *)
Definition truthy (v : Value) : bool :=
  match v with
  | VNone => false
  | _ => true
  end.

(** ** Insertion-ordered dictionaries keyed by strings *)

Section alist.
Context {A : Type}.

Fixpoint alist_get (k : string) (l : list (string * A)) : option A :=
  match l with
  | [] => None
  | (k', a) :: l' => if bool_decide (k = k') then Some a else alist_get k l'
  end.

(** [d[k] = a]: an existing key keeps its position. *)
Fixpoint alist_set (k : string) (a : A) (l : list (string * A))
  : list (string * A) :=
  match l with
  | [] => [(k, a)]
  | (k', a') :: l' =>
      if bool_decide (k = k') then (k, a) :: l'
      else (k', a') :: alist_set k a l'
  end.
End alist.

(** ** Scopes *)

(** Scope objects live in a store and are referred to by handle; the
    enclosing-scope link is a handle, never an owning reference. *)
Definition handle := nat.

(** Modelled from the spec: a [Scope] has a name, an optional declared
    return type, a local symbol map in insertion order, a map of named child
    scopes, and a link to its enclosing scope ([None] for the global
    scope). *)
Record Scope := mkScope {
  name : string;
  return_type : option PrimitiveType.t;
  symbols : list (string * Symbol);
  child_scopes : list (string * handle);
  enclosing_scope : option handle }.

(** ** Parse trees ([nimble]) *)

(** The identity of a parse tree node object. *)
Definition node := nat.

(** Modelled from the spec: the grammar is not part of the sources at hand.
    The node kinds are those the listeners handle; each node carries its
    identity and what its accessors return ([ID().getText()],
    [TYPE().getText()], [op.text], [expr(i)]). *)
Inductive Expr :=
| IntLiteral (n : node) (text : string)
| StringLiteral (n : node) (text : string)
| BoolLiteral (n : node) (text : string)
| Parens (n : node) (e : Expr)
| Neg (n : node) (op : string) (e : Expr)
| MulDiv (n : node) (op : string) (e0 e1 : Expr)
| AddSub (n : node) (op : string) (e0 e1 : Expr)
| Compare (n : node) (op : string) (e0 e1 : Expr)
| Variable_ (n : node) (text : string)
| FuncCall (n : node) (ID : string) (args : list Expr).

Definition expr_node (e : Expr) : node :=
  match e with
  | IntLiteral n _ | StringLiteral n _ | BoolLiteral n _ | Parens n _
  | Neg n _ _ | MulDiv n _ _ _ | AddSub n _ _ _ | Compare n _ _ _
  | Variable_ n _ | FuncCall n _ _ => n
  end.

Inductive Stmt :=
| Assignment (n : node) (ID : string) (e : Expr)
| While (n : node) (e : Expr) (block : list Stmt)
| If_ (n : node) (e : Expr) (block : list Stmt) (else_block : list Stmt)
| Print (n : node) (e : Expr)
| Return (n : node) (e : option Expr)
| FuncCallStmt (call : Expr).

Record VarDec := mkVarDec {
  vd_node : node;
  vd_ID : string;
  vd_TYPE : string;
  vd_expr : option Expr }.

Record ParameterDef := mkParameterDef {
  pd_node : node;
  pd_ID : string;
  pd_TYPE : TerminalNode }.

(** A body is a block of variable declarations followed by statements. *)
Record Body := mkBody {
  varBlock : list VarDec;
  block : list Stmt }.

Record FuncDef := mkFuncDef {
  fd_node : node;
  fd_ID : string;
  fd_parameterDef : list ParameterDef;
  fd_TYPE : option string;
  fd_body : Body }.

Record Main := mkMain {
  main_node : node;
  main_body : Body }.

Record Script := mkScript {
  script_node : node;
  funcDefs : list FuncDef;
  main : Main }.

(** The context object handed to a listener method. *)
Inductive Ctx :=
| CScript (s : Script)
| CMain (m : Main)
| CFuncDef (f : FuncDef)
| CParameterDef (p : ParameterDef)
| CVarDec (v : VarDec)
| CStmt (s : Stmt)
| CExpr (e : Expr).

Inductive Event :=
| Enter (c : Ctx)
| Exit (c : Ctx).

(** The depth-first walk of ANTLR's [ParseTreeWalker]: enter the node, walk
    its children in order, exit the node. *)
Fixpoint walk_expr (e : Expr) : list Event :=
  Enter (CExpr e) ::
  match e with
  | IntLiteral _ _ | StringLiteral _ _ | BoolLiteral _ _ | Variable_ _ _ => []
  | Parens _ e1 | Neg _ _ e1 => walk_expr e1
  | MulDiv _ _ e0 e1 | AddSub _ _ e0 e1 | Compare _ _ e0 e1 =>
      walk_expr e0 ++ walk_expr e1
  | FuncCall _ _ args => flat_map walk_expr args
  end ++ [Exit (CExpr e)].

Definition walk_opt_expr (e : option Expr) : list Event :=
  match e with
  | Some e => walk_expr e
  | None => []
  end.

Fixpoint walk_stmt (s : Stmt) : list Event :=
  match s with
  | FuncCallStmt call => Enter (CStmt s) :: walk_expr call ++ [Exit (CStmt s)]
  | Assignment _ _ e | Print _ e =>
      Enter (CStmt s) :: walk_expr e ++ [Exit (CStmt s)]
  | Return _ e => Enter (CStmt s) :: walk_opt_expr e ++ [Exit (CStmt s)]
  | While _ e b =>
      Enter (CStmt s) :: walk_expr e ++ flat_map walk_stmt b ++ [Exit (CStmt s)]
  | If_ _ e b1 b2 =>
      Enter (CStmt s) :: walk_expr e ++ flat_map walk_stmt b1
        ++ flat_map walk_stmt b2 ++ [Exit (CStmt s)]
  end.

Definition walk_varDec (v : VarDec) : list Event :=
  Enter (CVarDec v) :: walk_opt_expr (vd_expr v) ++ [Exit (CVarDec v)].

Definition walk_body (b : Body) : list Event :=
  flat_map walk_varDec (varBlock b) ++ flat_map walk_stmt (block b).

Definition walk_parameterDef (p : ParameterDef) : list Event :=
  [Enter (CParameterDef p); Exit (CParameterDef p)].

Definition walk_funcDef (f : FuncDef) : list Event :=
  Enter (CFuncDef f) :: flat_map walk_parameterDef (fd_parameterDef f)
    ++ walk_body (fd_body f) ++ [Exit (CFuncDef f)].

Definition walk_main (m : Main) : list Event :=
  Enter (CMain m) :: walk_body (main_body m) ++ [Exit (CMain m)].

Definition walk_script (s : Script) : list Event :=
  Enter (CScript s) :: flat_map walk_funcDef (funcDefs s)
    ++ walk_main (main s) ++ [Exit (CScript s)].

(** ** Diagnostics ([errorlog]) *)

(** Modelled from the spec: the closed set of fault categories. *)
Module Category.
Inductive t : Set :=
| UNDEFINED_NAME | DUPLICATE_NAME | INVALID_CALL | INVALID_RETURN
| ASSIGN_TO_WRONG_TYPE | CONDITION_NOT_BOOL | UNPRINTABLE_EXPRESSION
| INVALID_NEGATION | INVALID_BINARY_OP.

#[global] Instance eq_dec : EqDecision t.
Proof. solve_decision. Defined.
End Category.

(** Modelled from the spec: the log is an ordered, append-only sequence of
    records.  A record is kept as (node, category); the text of the message
    is left out, but an exception raised while the message is formatted is
    modelled where the message is built. *)
Definition ErrorLog := list (node * Category.t).

(** The number of records of a category logged against a node. *)
Definition count_of (c : Category.t) (n : node) (log : ErrorLog) : nat :=
  length (filter (λ r, r = (n, c)) log).

Definition total_entries (log : ErrorLog) : nat := length log.

(** ** Analysis state and the monad of the handlers *)

Record State := mkState {
  scopes : gmap handle Scope;
  current_scope : option handle;
  type_of : gmap node Value;
  error_log : ErrorLog }.

(** The Python exceptions the handlers can raise.  [DuplicateScope] is the
    failure of [create_child_scope] on a name already used by a sibling;
    [DanglingScope] stands for a handle without a scope object, which no
    state built by the passes contains. *)
Inductive Exn := KeyError | AttributeError | DuplicateScope | DanglingScope.

#[global] Instance Exn_eq_dec : EqDecision Exn.
Proof. solve_decision. Defined.

Inductive Res (A : Type) :=
| Ok (a : A) (s : State)
| Raise (e : Exn) (s : State).
Arguments Ok {A} a s.
Arguments Raise {A} e s.

Definition M (A : Type) : Type := State → Res A.

#[global] Instance M_ret : MRet M := λ A a s, Ok a s.
#[global] Instance M_bind : MBind M := λ A B f m s,
  match m s with
  | Ok a s' => f a s'
  | Raise e s' => Raise e s'
  end.

Definition raise {A} (e : Exn) : M A := λ s, Raise e s.
Definition get_state : M State := λ s, Ok s s.
Definition set_state (s : State) : M unit := λ _, Ok tt s.

(** The state a computation ends in, also when it raises. *)
Definition final_state {A} (r : Res A) : State :=
  match r with
  | Ok _ s | Raise _ s => s
  end.

(** [a and b], evaluating [b] only when [a] is true. *)
Definition and_then (a : bool) (b : M bool) : M bool :=
  if a then b else mret false.

(** [self.current_scope]. *)
Definition self_current_scope : M (option handle) :=
  s ← get_state; mret (current_scope s).

(** [self.current_scope = c]. *)
Definition set_current_scope (c : option handle) : M unit :=
  s ← get_state;
  set_state (mkState (scopes s) c (type_of s) (error_log s)).

(** The scope object behind a reference; attribute access on [None] raises
    [AttributeError]. *)
Definition scope_object (c : option handle) : M (handle * Scope) :=
  match c with
  | None => raise AttributeError
  | Some h =>
      s ← get_state;
      match scopes s !! h with
      | Some sc => mret (h, sc)
      | None => raise DanglingScope
      end
  end.

Definition update_scope (h : handle) (sc : Scope) : M unit :=
  s ← get_state;
  set_state (mkState (<[h := sc]> (scopes s)) (current_scope s)
               (type_of s) (error_log s)).

(** [self.type_of[n]]: a missing key raises [KeyError]. *)
Definition type_of_get (n : node) : M Value :=
  s ← get_state;
  match type_of s !! n with
  | Some v => mret v
  | None => raise KeyError
  end.

(** [self.type_of[n] = v]. *)
Definition type_of_set (n : node) (v : Value) : M unit :=
  s ← get_state;
  set_state (mkState (scopes s) (current_scope s) (<[n := v]> (type_of s))
               (error_log s)).

(** [self.error_log.add(ctx, category, message)]. *)
Definition error_log_add (n : node) (c : Category.t) : M unit :=
  s ← get_state;
  set_state (mkState (scopes s) (current_scope s) (type_of s)
               (error_log s ++ [(n, c)])).

(** ** Operations of [Scope] *)

(** [c.enclosing_scope]. *)
Definition get_enclosing_scope (c : option handle) : M (option handle) :=
  '(_, sc) ← scope_object c; mret (enclosing_scope sc).

(** [c.return_type]. *)
Definition get_return_type (c : option handle) : M (option PrimitiveType.t) :=
  '(_, sc) ← scope_object c; mret (return_type sc).

(** [PrimitiveType.X] or [None] as a Python object. *)
Definition return_type_value (r : option PrimitiveType.t) : Value :=
  match r with
  | Some t => prim t
  | None => VNone
  end.

(** Modelled from the spec: [create_child_scope] creates a new scope, links
    it under [c] by name and returns it; it fails when a sibling already uses
    the name. *)
Definition create_child_scope (c : option handle) (nm : string)
    (rt : PrimitiveType.t) : M (option handle) :=
  '(h, sc) ← scope_object c;
  match alist_get nm (child_scopes sc) with
  | Some _ => raise DuplicateScope
  | None =>
      s ← get_state;
      let h' := fresh (dom (scopes s)) in
      update_scope h' (mkScope nm (Some rt) [] [] (Some h));;
      update_scope h (mkScope (name sc) (return_type sc) (symbols sc)
                        (alist_set nm h' (child_scopes sc))
                        (enclosing_scope sc));;
      mret (Some h')
  end.

(** Modelled from the spec: [define] adds a symbol to the local map of [c];
    the caller checks for duplicates. *)
Definition define (c : option handle) (nm : string) (ty : Ty)
    (is_param : bool) : M unit :=
  '(h, sc) ← scope_object c;
  update_scope h (mkScope (name sc) (return_type sc)
                    (alist_set nm (mkSymbol nm ty is_param) (symbols sc))
                    (child_scopes sc) (enclosing_scope sc)).

(** Modelled from the spec: [resolve_locally] looks the name up in the local
    map of [c] only. *)
Definition resolve_locally (c : option handle) (nm : string)
    : M (option Symbol) :=
  '(_, sc) ← scope_object c; mret (alist_get nm (symbols sc)).

(** Modelled from the spec: [child_scope_named] looks up a child created
    before; a name without a child raises [KeyError]. *)
Definition child_scope_named (c : option handle) (nm : string)
    : M (option handle) :=
  '(_, sc) ← scope_object c;
  match alist_get nm (child_scopes sc) with
  | Some h' => mret (Some h')
  | None => raise KeyError
  end.

(** Modelled from the spec: [parameters] are the symbols flagged
    [is_param], in declaration order. *)
Definition parameters (c : option handle) : M (list Symbol) :=
  '(_, sc) ← scope_object c;
  mret (filter (λ x, is_param x = true) (snd <$> symbols sc)).

(** ** Listeners *)

(** A listener has an enter and an exit method per node kind; the methods a
    class does not override do nothing. *)
Record Listener := mkListener {
  enterRule : Ctx → M unit;
  exitRule : Ctx → M unit }.

Definition dispatch (L : Listener) (ev : Event) : M unit :=
  match ev with
  | Enter c => enterRule L c
  | Exit c => exitRule L c
  end.

(** Firing the events of a walk in order; an exception ends the walk. *)
Fixpoint run (L : Listener) (evs : list Event) : M unit :=
  match evs with
  | [] => mret tt
  | ev :: evs' => dispatch L ev;; run L evs'
  end.

(** [ctx.expr().getText()] where [ctx.expr()] is the list of all argument
    contexts of a call: a list has no [getText]. *)
Definition list_getText : M string := raise AttributeError.

(** [ctx.expr()] on a function-definition context, which has no operand
    accessor. *)
Definition funcDef_expr : M Expr := raise AttributeError.

(** [v.name]: enumeration members and symbols have a name. *)
Definition attr_name (v : Value) : M unit :=
  match v with
  | VType (TPrim _) | VSymbol _ => mret tt
  | VType (TFunc _) | VNone => raise AttributeError
  end.

(** [l[i].type] for an element of a list of parameter lists: a list has no
    attribute [type]. *)
Definition list_attr_type (l : list Symbol) : M Value := raise AttributeError.

(** *** Pass 1: [DefineScopesAndSymbols] *)
Module DefineScopesAndSymbols.

Definition enterMain (ctx : Main) : M unit :=
  c ← self_current_scope;
  c' ← create_child_scope c "$main" PrimitiveType.Void;
  set_current_scope c'.

Definition exitMain (ctx : Main) : M unit :=
  c ← self_current_scope;
  c' ← get_enclosing_scope c;
  set_current_scope c'.

Definition enterFuncDef (ctx : FuncDef) : M unit :=
  match fd_TYPE ctx with
  | Some ty =>
      if bool_decide (ty = "Int") then
        c ← self_current_scope;
        c' ← create_child_scope c (fd_ID ctx) PrimitiveType.Int;
        set_current_scope c'
      else if bool_decide (ty = "Bool") then
        c ← self_current_scope;
        c' ← create_child_scope c (fd_ID ctx) PrimitiveType.Bool;
        set_current_scope c'
      else if bool_decide (ty = "String") then
        c ← self_current_scope;
        c' ← create_child_scope c (fd_ID ctx) PrimitiveType.String;
        set_current_scope c'
      else mret tt
  | None =>
      c ← self_current_scope;
      c' ← create_child_scope c (fd_ID ctx) PrimitiveType.Void;
      set_current_scope c'
  end.

(** [self.current_scope.enclosing_scope.define(ID, x)]. *)
Definition define_in_enclosing (nm : string) (x : FunctionType) : M unit :=
  c ← self_current_scope;
  e ← get_enclosing_scope c;
  define e nm (TFunc x) false.

Definition exitFuncDef (ctx : FuncDef) : M unit :=
  let type_list := pd_TYPE <$> fd_parameterDef ctx in
  match fd_TYPE ctx with
  | Some ty =>
      if bool_decide (ty = "Int") then
        define_in_enclosing (fd_ID ctx)
          (mkFunctionType type_list PrimitiveType.Int)
      else if bool_decide (ty = "Bool") then
        define_in_enclosing (fd_ID ctx)
          (mkFunctionType type_list PrimitiveType.Bool)
      else if bool_decide (ty = "String") then
        define_in_enclosing (fd_ID ctx)
          (mkFunctionType type_list PrimitiveType.String)
      else
        funcDef_expr;;
        error_log_add (fd_node ctx) Category.INVALID_RETURN
  | None =>
      c ← self_current_scope;
      define c (fd_ID ctx)
        (TFunc (mkFunctionType type_list PrimitiveType.Void)) false
  end;;
  c ← self_current_scope;
  c' ← get_enclosing_scope c;
  set_current_scope c'.

Definition listener : Listener :=
  mkListener
    (λ c, match c with
          | CMain m => enterMain m
          | CFuncDef f => enterFuncDef f
          | _ => mret tt
          end)
    (λ c, match c with
          | CMain m => exitMain m
          | CFuncDef f => exitFuncDef f
          | _ => mret tt
          end).

End DefineScopesAndSymbols.

(** *** Pass 2: [InferTypesAndCheckConstraints] *)
Module InferTypesAndCheckConstraints.

Definition enterMain (ctx : Main) : M unit :=
  c ← self_current_scope;
  c' ← child_scope_named c "$main";
  set_current_scope c'.

Definition exitMain (ctx : Main) : M unit :=
  c ← self_current_scope;
  c' ← get_enclosing_scope c;
  set_current_scope c'.

Definition enterFuncDef (ctx : FuncDef) : M unit :=
  c ← self_current_scope;
  c' ← child_scope_named c (fd_ID ctx);
  set_current_scope c'.

(** The body of the loop over the parameter definitions. *)
Definition define_parameter (p : ParameterDef) : M unit :=
  if bool_decide (pd_TYPE p = "Int") then
    c ← self_current_scope;
    define c (pd_ID p) (TPrim PrimitiveType.Int) true
  else if bool_decide (pd_TYPE p = "Bool") then
    c ← self_current_scope;
    define c (pd_ID p) (TPrim PrimitiveType.Bool) true
  else if bool_decide (pd_TYPE p = "String") then
    c ← self_current_scope;
    define c (pd_ID p) (TPrim PrimitiveType.String) true
  else mret tt.

Fixpoint define_parameters (ps : list ParameterDef) : M unit :=
  match ps with
  | [] => mret tt
  | p :: ps' => define_parameter p;; define_parameters ps'
  end.

Definition exitFuncDef (ctx : FuncDef) : M unit :=
  define_parameters (fd_parameterDef ctx);;
  c ← self_current_scope;
  c' ← get_enclosing_scope c;
  set_current_scope c'.

(** [self.type_of[ctx.expr(i)]]: [ctx.expr(i)] is [None] when the call has
    no argument at index [i], and [None] is not a key of [type_of]. *)
Definition type_of_arg (args : list Expr) (i : nat) : M Value :=
  match args !! i with
  | Some e => type_of_get (expr_node e)
  | None => raise KeyError
  end.

(** The loop [for param_index in range(len(params))] over the one-element
    list [params = [self.current_scope.parameters()]].  The result is
    [true] when the handler returned from inside the loop. *)
Fixpoint check_params (n : node) (args : list Expr)
    (params : list (list Symbol)) (param_index : nat) : M bool :=
  match params with
  | [] => mret false
  | p :: params' =>
      a ← type_of_arg args param_index;
      t ← list_attr_type p;
      if py_ne a t then
        list_getText;;
        error_log_add n Category.INVALID_CALL;;
        mret true
      else check_params n args params' (S param_index)
  end.

(** The loop over [self.current_scope.child_scopes.values()].  The result
    is [true] when the handler returned from inside the loop. *)
Fixpoint scan_child_scopes (n : node) (ID : string) (args : list Expr)
    (children : list handle) : M bool :=
  match children with
  | [] => mret false
  | h :: children' =>
      '(_, scope) ← scope_object (Some h);
      if bool_decide (ID = name scope) then
        c ← self_current_scope;
        ps ← parameters c;
        let params := [ps] in
        if bool_decide (args = []) && (length params =? 0) then
          c ← self_current_scope;
          callee ← child_scope_named c ID;
          rt ← get_return_type callee;
          type_of_set n (return_type_value rt);;
          scan_child_scopes n ID args children'
        else
          c ← self_current_scope;
          ps' ← parameters c;
          if length args =? length ps' then
            c ← self_current_scope;
            ps ← parameters c;
            let params := [ps] in
            returned ← check_params n args params 0;
            if (returned : bool) then mret true
            else
              c ← self_current_scope;
              callee ← child_scope_named c ID;
              rt ← get_return_type callee;
              type_of_set n (return_type_value rt);;
              mret true
          else scan_child_scopes n ID args children'
      else scan_child_scopes n ID args children'
  end.

Definition exitFuncCall (n : node) (ID : string) (args : list Expr)
    : M unit :=
  c ← self_current_scope;
  '(_, sc) ← scope_object c;
  returned ← scan_child_scopes n ID args (snd <$> child_scopes sc);
  if (returned : bool) then mret tt
  else
    list_getText;;
    error_log_add n Category.INVALID_CALL.

(** [self.current_scope.return_type == PrimitiveType.X and
    self.type_of[ctx.expr()] == PrimitiveType.X]. *)
Definition return_matches (e : Expr) (x : PrimitiveType.t) : M bool :=
  c ← self_current_scope;
  rt ← get_return_type c;
  and_then (py_eq (return_type_value rt) (prim x))
    (v ← type_of_get (expr_node e); mret (py_eq v (prim x))).

Definition exitReturn (n : node) (e : option Expr) : M unit :=
  match e with
  | Some e =>
      b ← return_matches e PrimitiveType.Int;
      if negb b then
        c ← self_current_scope;
        get_return_type c;;
        error_log_add n Category.INVALID_RETURN
      else
        b ← return_matches e PrimitiveType.Bool;
        if negb b then
          c ← self_current_scope;
          get_return_type c;;
          error_log_add n Category.INVALID_RETURN
        else
          b ← return_matches e PrimitiveType.String;
          if negb b then
            c ← self_current_scope;
            get_return_type c;;
            error_log_add n Category.INVALID_RETURN
          else mret tt
  | None =>
      c ← self_current_scope;
      rt ← get_return_type c;
      if negb (py_eq (return_type_value rt) (prim PrimitiveType.Void)) then
        c ← self_current_scope;
        get_return_type c;;
        error_log_add n Category.INVALID_RETURN
      else mret tt
  end;;
  c ← self_current_scope;
  c' ← get_enclosing_scope c;
  set_current_scope c'.

Definition exitVarDec (ctx : VarDec) : M unit :=
  c ← self_current_scope;
  r ← resolve_locally c (vd_ID ctx);
  match r with
  | None =>
      returned ←
        (if bool_decide (vd_TYPE ctx = "Int") then
           c ← self_current_scope;
           define c (vd_ID ctx) (TPrim PrimitiveType.Int) false;;
           mret false
         else if bool_decide (vd_TYPE ctx = "String") then
           c ← self_current_scope;
           define c (vd_ID ctx) (TPrim PrimitiveType.String) false;;
           mret false
         else if bool_decide (vd_TYPE ctx = "Bool") then
           c ← self_current_scope;
           define c (vd_ID ctx) (TPrim PrimitiveType.Bool) false;;
           mret false
         else
           v ← type_of_get (vd_node ctx);
           attr_name v;;
           error_log_add (vd_node ctx) Category.ASSIGN_TO_WRONG_TYPE;;
           mret true);
      if (returned : bool) then mret tt
      else
        match vd_expr ctx with
        | Some e =>
            c ← self_current_scope;
            x ← resolve_locally c (vd_ID ctx);
            match x with
            | None => raise AttributeError
            | Some x =>
                v ← type_of_get (expr_node e);
                if py_ne (VType (sym_type x)) v then
                  error_log_add (vd_node ctx) Category.ASSIGN_TO_WRONG_TYPE
                else mret tt
            end
        | None => mret tt
        end
  | Some _ =>
      error_log_add (vd_node ctx) Category.DUPLICATE_NAME
  end.

Definition exitAssignment (n : node) (ID : string) (e : Expr) : M unit :=
  c ← self_current_scope;
  r ← resolve_locally c ID;
  match r with
  | None =>
      type_of_set n (prim PrimitiveType.ERROR);;
      error_log_add n Category.UNDEFINED_NAME
  | Some _ =>
      c ← self_current_scope;
      x ← resolve_locally c ID;
      match x with
      | None => raise AttributeError
      | Some x =>
          v ← type_of_get (expr_node e);
          if py_ne (VType (sym_type x)) v then
            type_of_set n (prim PrimitiveType.ERROR);;
            error_log_add n Category.ASSIGN_TO_WRONG_TYPE
          else mret tt
      end
  end.

Definition exitWhile (n : node) (e : Expr) : M unit :=
  v ← type_of_get (expr_node e);
  if py_ne v (prim PrimitiveType.Bool) then
    type_of_set n (prim PrimitiveType.ERROR);;
    error_log_add n Category.CONDITION_NOT_BOOL
  else mret tt.

Definition exitIf (n : node) (e : Expr) : M unit :=
  v ← type_of_get (expr_node e);
  if py_ne v (prim PrimitiveType.Bool) then
    type_of_set n (prim PrimitiveType.ERROR);;
    error_log_add n Category.CONDITION_NOT_BOOL
  else mret tt.

(** The condition
    [self.type_of[ctx.expr()] == PrimitiveType.ERROR or PrimitiveType.Void]:
    when the comparison is false, the condition is the truth value of the
    enumeration member [PrimitiveType.Void], here [void_truth]. *)
Definition print_condition (void_truth : bool) (v : Value) : bool :=
  py_eq v (prim PrimitiveType.ERROR) || void_truth.

Definition exitPrint (n : node) (e : Expr) : M unit :=
  v ← type_of_get (expr_node e);
  if print_condition (truthy (prim PrimitiveType.Void)) v then
    type_of_set n (prim PrimitiveType.ERROR);;
    error_log_add n Category.UNPRINTABLE_EXPRESSION
  else mret tt.

Definition exitIntLiteral (n : node) : M unit :=
  type_of_set n (prim PrimitiveType.Int).

Definition exitNeg (n : node) (op : string) (e : Expr) : M unit :=
  b ← and_then (bool_decide (op = "-"))
        (v ← type_of_get (expr_node e);
         mret (py_eq v (prim PrimitiveType.Int)));
  if (b : bool) then type_of_set n (prim PrimitiveType.Int)
  else
    b ← and_then (bool_decide (op = "!"))
          (v ← type_of_get (expr_node e);
           mret (py_eq v (prim PrimitiveType.Bool)));
    if (b : bool) then type_of_set n (prim PrimitiveType.Bool)
    else
      type_of_set n (prim PrimitiveType.ERROR);;
      v ← type_of_get n;
      attr_name v;;
      error_log_add n Category.INVALID_NEGATION.

Definition exitParens (n : node) (e : Expr) : M unit :=
  v ← type_of_get (expr_node e);
  type_of_set n v.

(** [self.type_of[ctx.expr(0)] == X and self.type_of[ctx.expr(1)] == X
    and ops], evaluated from left to right. *)
Definition both_operands (e0 e1 : Expr) (x : PrimitiveType.t) (ops : bool)
    : M bool :=
  v0 ← type_of_get (expr_node e0);
  and_then (py_eq v0 (prim x))
    (v1 ← type_of_get (expr_node e1);
     and_then (py_eq v1 (prim x)) (mret ops)).

Definition exitMulDiv (n : node) (op : string) (e0 e1 : Expr) : M unit :=
  b ← both_operands e0 e1 PrimitiveType.Int
        (bool_decide (op = "*") || bool_decide (op = "/"));
  if (b : bool) then type_of_set n (prim PrimitiveType.Int)
  else
    type_of_set n (prim PrimitiveType.ERROR);;
    error_log_add n Category.INVALID_BINARY_OP.

Definition exitAddSub (n : node) (op : string) (e0 e1 : Expr) : M unit :=
  b ← both_operands e0 e1 PrimitiveType.Int
        (bool_decide (op = "+") || bool_decide (op = "-"));
  if (b : bool) then type_of_set n (prim PrimitiveType.Int)
  else
    b ← both_operands e0 e1 PrimitiveType.String (bool_decide (op = "+"));
    if (b : bool) then type_of_set n (prim PrimitiveType.String)
    else
      type_of_set n (prim PrimitiveType.ERROR);;
      error_log_add n Category.INVALID_BINARY_OP.

Definition exitCompare (n : node) (op : string) (e0 e1 : Expr) : M unit :=
  b ← both_operands e0 e1 PrimitiveType.Bool (bool_decide (op = "=="));
  if (b : bool) then type_of_set n (prim PrimitiveType.Bool)
  else
    b ← both_operands e0 e1 PrimitiveType.Int (bool_decide (op = "=="));
    if (b : bool) then type_of_set n (prim PrimitiveType.Bool)
    else
      b ← both_operands e0 e1 PrimitiveType.Int (bool_decide (op = "<"));
      if (b : bool) then type_of_set n (prim PrimitiveType.Bool)
      else
        b ← both_operands e0 e1 PrimitiveType.Int (bool_decide (op = "<="));
        if (b : bool) then type_of_set n (prim PrimitiveType.Bool)
        else
          type_of_set n (prim PrimitiveType.ERROR);;
          error_log_add n Category.INVALID_BINARY_OP.

(** [resolve_locally] returns a [Symbol] object or [None]; the object
    itself, not its type, is stored for a resolved name. *)
Definition exitVariable (n : node) (text : string) : M unit :=
  c ← self_current_scope;
  r ← resolve_locally c text;
  match r with
  | None =>
      type_of_set n (prim PrimitiveType.ERROR);;
      error_log_add n Category.UNDEFINED_NAME
  | Some _ =>
      c ← self_current_scope;
      r' ← resolve_locally c text;
      type_of_set n (match r' with Some s => VSymbol s | None => VNone end)
  end.

Definition exitStringLiteral (n : node) : M unit :=
  type_of_set n (prim PrimitiveType.String).

Definition exitBoolLiteral (n : node) : M unit :=
  type_of_set n (prim PrimitiveType.Bool).

Definition exitExpr (e : Expr) : M unit :=
  match e with
  | IntLiteral n _ => exitIntLiteral n
  | StringLiteral n _ => exitStringLiteral n
  | BoolLiteral n _ => exitBoolLiteral n
  | Parens n e1 => exitParens n e1
  | Neg n op e1 => exitNeg n op e1
  | MulDiv n op e0 e1 => exitMulDiv n op e0 e1
  | AddSub n op e0 e1 => exitAddSub n op e0 e1
  | Compare n op e0 e1 => exitCompare n op e0 e1
  | Variable_ n text => exitVariable n text
  | FuncCall n ID args => exitFuncCall n ID args
  end.

Definition exitStmt (s : Stmt) : M unit :=
  match s with
  | Assignment n ID e => exitAssignment n ID e
  | While n e _ => exitWhile n e
  | If_ n e _ _ => exitIf n e
  | Print n e => exitPrint n e
  | Return n e => exitReturn n e
  | FuncCallStmt _ => mret tt
  end.

Definition listener : Listener :=
  mkListener
    (λ c, match c with
          | CMain m => enterMain m
          | CFuncDef f => enterFuncDef f
          | _ => mret tt
          end)
    (λ c, match c with
          | CScript _ => mret tt
          | CMain m => exitMain m
          | CFuncDef f => exitFuncDef f
          | CParameterDef _ => mret tt
          | CVarDec v => exitVarDec v
          | CStmt s => exitStmt s
          | CExpr e => exitExpr e
          end).

End InferTypesAndCheckConstraints.

(** ** The analysis *)

Definition global_scope : handle := 0.

(** Modelled from the spec: the driver of the analysis is not part of the
    sources at hand.  The global scope is created once, with no declared
    return type and no enclosing scope; the annotation map and the log start
    empty. *)
Definition initial_state : State :=
  mkState {[ global_scope := mkScope "$global" None [] [] None ]}
    (Some global_scope) ∅ [].

(** Each listener object starts with [current_scope = global_scope]; the
    scopes, [type_of] and the log are shared by the two passes. *)
Definition pass (L : Listener) (evs : list Event) : M unit :=
  set_current_scope (Some global_scope);;
  run L evs.

Definition pass1 := pass DefineScopesAndSymbols.listener.
Definition pass2 := pass InferTypesAndCheckConstraints.listener.

(** Modelled from the spec: Pass 1 over the whole tree, then Pass 2 over the
    same tree. *)
Definition do_semantic_analysis (evs : list Event) : Res unit :=
  (pass1 evs;; pass2 evs) initial_state.

Definition analyse_script (s : Script) : Res unit :=
  do_semantic_analysis (walk_script s).

Definition analyse_expr (e : Expr) : Res unit :=
  do_semantic_analysis (walk_expr e).

(** What an analysis ended with: [None] for a normal end, the exception
    otherwise. *)
Definition outcome {A} (r : Res A) : option Exn :=
  match r with
  | Ok _ _ => None
  | Raise e _ => Some e
  end.

(** The state after Pass 1 over [evs] and Pass 2 over the events [prefix]. *)
Definition pass2_upto (evs prefix : list Event) : Res unit :=
  (pass1 evs;; pass2 prefix) initial_state.

(** ** Sample trees *)

Module Samples.

(** [5+3] *)
Definition e_5_plus_3 : Expr :=
  AddSub 0 "+" (IntLiteral 1 "5") (IntLiteral 2 "3").

(** ["hello"+"world"]; the texts are given without their quotes. *)
Definition e_hello_plus_world : Expr :=
  AddSub 0 "+" (StringLiteral 1 "hello") (StringLiteral 2 "world").

(** [5<=3] *)
Definition e_5_le_3 : Expr :=
  Compare 0 "<=" (IntLiteral 1 "5") (IntLiteral 2 "3").

(** [true-5] *)
Definition e_true_minus_5 : Expr :=
  AddSub 0 "-" (BoolLiteral 1 "true") (IntLiteral 2 "5").

(** [false<3] *)
Definition e_false_lt_3 : Expr :=
  Compare 0 "<" (BoolLiteral 1 "false") (IntLiteral 2 "3").

(** [!37] *)
Definition e_not_37 : Expr := Neg 0 "!" (IntLiteral 1 "37").

(** [!!37] *)
Definition e_not_not_37 : Expr :=
  Neg 0 "!" (Neg 1 "!" (IntLiteral 2 "37")).

Definition empty_main (n : node) : Main := mkMain n (mkBody [] []).

(** [func f() -> Int { return 5 }] *)
Definition return_stmt_5 : Stmt := Return 2 (Some (IntLiteral 3 "5")).
Definition p_return_int : Script :=
  mkScript 0
    [mkFuncDef 1 "f" [] (Some "Int") (mkBody [] [return_stmt_5])]
    (empty_main 4).

(** [print 5] *)
Definition p_print_int : Script :=
  mkScript 0 [] (mkMain 1 (mkBody [] [Print 2 (IntLiteral 3 "5")])).

(** [func f(a : Int) -> Int { }  f()] *)
Definition p_call_wrong_count : Script :=
  mkScript 0
    [mkFuncDef 1 "f" [mkParameterDef 2 "a" "Int"] (Some "Int")
       (mkBody [] [])]
    (mkMain 3 (mkBody [] [FuncCallStmt (FuncCall 4 "f" [])])).

(** [func f() -> Int { }  f()] *)
Definition p_call_right : Script :=
  mkScript 0
    [mkFuncDef 1 "f" [] (Some "Int") (mkBody [] [])]
    (mkMain 3 (mkBody [] [FuncCallStmt (FuncCall 4 "f" [])])).

(** [return] as the only statement of the entry block. *)
Definition return_stmt : Stmt := Return 2 None.
Definition p_return_in_main : Script :=
  mkScript 0 [] (mkMain 1 (mkBody [] [return_stmt])).

(** [func f() { }] *)
Definition p_func_no_type : Script :=
  mkScript 0 [mkFuncDef 1 "f" [] None (mkBody [] [])] (empty_main 2).

(** [func f() -> Int { }] *)
Definition p_func_int : Script :=
  mkScript 0 [mkFuncDef 1 "f" [] (Some "Int") (mkBody [] [])]
    (empty_main 2).

(** [var x : Int = 1  x = x] *)
Definition p_var_ref : Script :=
  mkScript 0 []
    (mkMain 1
       (mkBody [mkVarDec 2 "x" "Int" (Some (IntLiteral 3 "1"))]
               [Assignment 4 "x" (Variable_ 5 "x")])).

(** [var x : Float] *)
Definition p_bad_type : Script :=
  mkScript 0 [] (mkMain 1 (mkBody [mkVarDec 2 "x" "Float" None] [])).


(** [func f(a : Int) -> Int { print a }] *)
Definition f_param_ref : FuncDef :=
  mkFuncDef 1 "f" [mkParameterDef 2 "a" "Int"] (Some "Int")
    (mkBody [] [Print 3 (Variable_ 4 "a")]).
Definition p_param_ref : Script :=
  mkScript 0 [f_param_ref] (empty_main 5).

(** The events of [f_param_ref] between its enter event and the exit of
    the reference to [a], and the states of Pass 2 around them. *)
Definition param_ref_pre : list Event :=
  [Enter (CParameterDef (mkParameterDef 2 "a" "Int"));
   Exit (CParameterDef (mkParameterDef 2 "a" "Int"));
   Enter (CStmt (Print 3 (Variable_ 4 "a")));
   Enter (CExpr (Variable_ 4 "a"))].

Definition param_ref_post : list Event :=
  [Exit (CStmt (Print 3 (Variable_ 4 "a"))); Exit (CFuncDef f_param_ref)].

Definition param_ref_st0 : State :=
  final_state (pass2_upto (walk_script p_param_ref)
                 [Enter (CScript p_param_ref)]).

Definition param_ref_st1 : State :=
  final_state (pass2_upto (walk_script p_param_ref)
                 [Enter (CScript p_param_ref); Enter (CFuncDef f_param_ref)]).

Definition param_ref_st2 : State :=
  final_state (pass2_upto (walk_script p_param_ref)
                 ([Enter (CScript p_param_ref); Enter (CFuncDef f_param_ref)]
                  ++ param_ref_pre)).

(** A state in which two operand nodes, 1 and 2, are annotated. *)
Definition st_operands (v0 v1 : Value) : State :=
  mkState ∅ None {[ 1 := v0; 2 := v1 ]} [].

End Samples.

(** ** Vocabulary of the statements *)

(** The state in which node [n] has been given type [t] and nothing else
    changed. *)
Definition annotated (st : State) (n : node) (t : PrimitiveType.t) : State :=
  mkState (scopes st) (current_scope st) (<[n := prim t]> (type_of st))
    (error_log st).

(** The state in which node [n] has been given type ERROR and one fault of
    category [c] has been logged against it. *)
Definition faulted (st : State) (n : node) (c : Category.t) : State :=
  mkState (scopes st) (current_scope st)
    (<[n := prim PrimitiveType.ERROR]> (type_of st))
    (error_log st ++ [(n, c)]).

(** The annotation of node [n] at the end of an analysis. *)
Definition inferred (r : Res unit) (n : node) : option Value :=
  type_of (final_state r) !! n.

(** The log at the end of an analysis. *)
Definition logged (r : Res unit) : ErrorLog := error_log (final_state r).

(** The number of records of a category in a log. *)
Definition count_of_category (c : Category.t) (log : ErrorLog) : nat :=
  length (filter (λ r, r.2 = c) log).

(** The analysis of the expression [e] ends normally, gives its root node the
    type [t] and leaves the log [log]. *)
Definition analysed_as (e : Expr) (t : PrimitiveType.t) (log : ErrorLog)
    : Prop :=
  outcome (analyse_expr e) = None ∧
  inferred (analyse_expr e) (expr_node e) = Some (prim t) ∧
  logged (analyse_expr e) = log.

(** No event of a body enters or exits the entry block or a function
    definition. *)
Definition body_event (ev : Event) : Prop :=
  match ev with
  | Enter (CMain _) | Enter (CFuncDef _) | Exit (CMain _)
  | Exit (CFuncDef _) => False
  | _ => True
  end.

(** The events that leave a name of the current scope as it is: all but the
    exit of a return statement, which moves the cursor, and the exit of a
    declaration of that name. *)
Definition leaves_name (x : string) (ev : Event) : Prop :=
  match ev with
  | Exit (CStmt (Return _ _)) => False
  | Exit (CVarDec v) => vd_ID v ≠ x
  | _ => True
  end.

(** The events of a body that leave the name [x] as it is. *)
Definition quiet (x : string) (ev : Event) : Prop :=
  match ev with
  | Enter (CMain _) | Enter (CFuncDef _) | Exit (CMain _)
  | Exit (CFuncDef _) => False
  | Exit (CStmt (Return _ _)) => False
  | Exit (CVarDec v) => vd_ID v ≠ x
  | _ => True
  end.


(** Scope [h] holds a symbol named [nm] that is flagged as a parameter. *)
Definition holds_parameter (st : State) (h : handle) (nm : string) : Prop :=
  ∃ sc s, scopes st !! h = Some sc ∧ alist_get nm (symbols sc) = Some s ∧
          is_param s = true.

(** The cursor is the scope [h], and [h] holds no symbol named [x]. *)
Definition unresolvable (x : string) (h : handle) (st : State) : Prop :=
  current_scope st = Some h ∧
  ∃ sc, scopes st !! h = Some sc ∧ alist_get x (symbols sc) = None.

(** A computation that, when it returns, keeps [unresolvable]. *)
Definition keeps (x : string) (h : handle) {A} (m : M A) : Prop :=
  ∀ st a st', unresolvable x h st → m st = Ok a st' → unresolvable x h st'.

(** * Further vocabulary and sample trees *)

(** ** Vocabulary of the further properties *)

(** The node of a statement context; a call statement is its call node. *)
Definition stmt_node (s : Stmt) : node :=
  match s with
  | Assignment n _ _ | While n _ _ | If_ n _ _ _ | Print n _ | Return n _ => n
  | FuncCallStmt call => expr_node call
  end.

(** The node of a context object. *)
Definition ctx_node (c : Ctx) : node :=
  match c with
  | CScript s => script_node s
  | CMain m => main_node m
  | CFuncDef f => fd_node f
  | CParameterDef p => pd_node p
  | CVarDec v => vd_node v
  | CStmt s => stmt_node s
  | CExpr e => expr_node e
  end.

Definition event_node (ev : Event) : node :=
  match ev with
  | Enter c | Exit c => ctx_node c
  end.

(** The state in which one fault has been logged against node [n] and
    nothing else changed. *)
Definition fault_logged (st : State) (n : node) (c : Category.t) : State :=
  mkState (scopes st) (current_scope st) (type_of st)
    (error_log st ++ [(n, c)]).

(** The state in which the symbol [s] has been put into the local map of
    the scope [sc] stored at [h]. *)
Definition symbol_defined (st : State) (h : handle) (sc : Scope) (s : Symbol)
    : State :=
  mkState
    (<[h := mkScope (name sc) (return_type sc)
              (alist_set (sym_name s) s (symbols sc))
              (child_scopes sc) (enclosing_scope sc)]> (scopes st))
    (current_scope st) (type_of st) (error_log st).

(** The state in which the cursor has been moved to [c]. *)
Definition cursor_at (st : State) (c : option handle) : State :=
  mkState (scopes st) c (type_of st) (error_log st).

(** The primitive type that a type name stands for in a declaration. *)
Definition primitive_named (ty : string) : option PrimitiveType.t :=
  if bool_decide (ty = "Int") then Some PrimitiveType.Int
  else if bool_decide (ty = "String") then Some PrimitiveType.String
  else if bool_decide (ty = "Bool") then Some PrimitiveType.Bool
  else None.

(** The annotations that an operator accepts for an operand. *)
Definition operable (v : Value) : Prop :=
  v = prim PrimitiveType.Int ∨ v = prim PrimitiveType.Bool ∨
  v = prim PrimitiveType.String.

(** A relation that holds between the state a computation starts in and the
    state it ends in, whether it returns or raises. *)
Definition always {A} (R : State → State → Prop) (m : M A) : Prop :=
  ∀ st, R st (final_state (m st)).

(** The log only grows. *)
Definition log_extends (st st' : State) : Prop :=
  error_log st `prefix_of` error_log st'.

(** The annotation map and the log are the same. *)
Definition same_annotations_and_log (st st' : State) : Prop :=
  type_of st' = type_of st ∧ error_log st' = error_log st.

(** What of a scope is not its symbols. *)
Definition skeleton (sc : Scope)
    : string * option PrimitiveType.t * list (string * handle)
      * option handle :=
  (name sc, return_type sc, child_scopes sc, enclosing_scope sc).

(** The same scopes exist, with the same names, return types, children and
    enclosing scopes. *)
Definition same_scope_tree (st st' : State) : Prop :=
  ∀ h, skeleton <$> scopes st' !! h = skeleton <$> scopes st !! h.

(** Only nodes satisfying [N] got an annotation or a fault. *)
Definition touches_only (N : node → Prop) (st st' : State) : Prop :=
  (∃ l, error_log st' = error_log st ++ l ∧ Forall (λ r, N r.1) l) ∧
  (∀ n, ¬ N n → type_of st' !! n = type_of st !! n).

(** An expression without function calls. *)
Fixpoint call_free (e : Expr) : Prop :=
  match e with
  | IntLiteral _ _ | StringLiteral _ _ | BoolLiteral _ _ | Variable_ _ _ =>
      True
  | Parens _ e1 | Neg _ _ e1 => call_free e1
  | MulDiv _ _ e0 e1 | AddSub _ _ e0 e1 | Compare _ _ e0 e1 =>
      call_free e0 ∧ call_free e1
  | FuncCall _ _ _ => False
  end.

(** The return type that Pass 1 gives the scope of a function: the one its
    annotation names, Void without annotation, none for another name. *)
Definition declared_return_type (ty : option string)
    : option PrimitiveType.t :=
  match ty with
  | None => Some PrimitiveType.Void
  | Some ty =>
      if bool_decide (ty = "Int") then Some PrimitiveType.Int
      else if bool_decide (ty = "Bool") then Some PrimitiveType.Bool
      else if bool_decide (ty = "String") then Some PrimitiveType.String
      else None
  end.

(** The symbol that Pass 1 defines for a function. *)
Definition function_symbol (f : FuncDef) : Symbol :=
  mkSymbol (fd_ID f)
    (TFunc (mkFunctionType (pd_TYPE <$> fd_parameterDef f)
              (default PrimitiveType.Void
                 (declared_return_type (fd_TYPE f)))))
    false.

(** The scope that Pass 1 leaves for the function [f] under the global
    scope [G], and where the symbol of [f] is. *)
Definition function_scoped (st : State) (G : Scope) (f : FuncDef) : Prop :=
  ∃ h sc,
    alist_get (fd_ID f) (child_scopes G) = Some h ∧
    h ≠ global_scope ∧
    scopes st !! h = Some sc ∧
    name sc = fd_ID f ∧
    return_type sc = declared_return_type (fd_TYPE f) ∧
    enclosing_scope sc = Some global_scope ∧
    child_scopes sc = [] ∧
    match fd_TYPE f with
    | Some _ =>
        alist_get (fd_ID f) (symbols G) = Some (function_symbol f) ∧
        symbols sc = []
    | None =>
        alist_get (fd_ID f) (symbols G) = None ∧
        symbols sc = [(fd_ID f, function_symbol f)]
    end.

(** The scopes of the functions [fs] are the children of the global scope,
    in order. *)
Definition functions_scoped (fs : list FuncDef) (st : State) : Prop :=
  ∃ G,
    scopes st !! global_scope = Some G ∧
    enclosing_scope G = None ∧
    (child_scopes G).*1 = fd_ID <$> fs ∧
    (∀ nm, nm ∉ fd_ID <$> fs → alist_get nm (symbols G) = None) ∧
    ∀ f, f ∈ fs → function_scoped st G f.

(** What walking an expression to its end leaves behind. *)
Definition walked (e : Expr) (st st' : State) : Prop :=
  scopes st' = scopes st ∧ current_scope st' = current_scope st ∧
  is_Some (type_of st' !! expr_node e) ∧
  (∀ n, is_Some (type_of st !! n) → is_Some (type_of st' !! n)) ∧
  error_log st `prefix_of` error_log st'.

(** The events of Pass 2 that move the cursor. *)
Definition moves_cursor (ev : Event) : Prop :=
  match ev with
  | Enter (CMain _) | Enter (CFuncDef _) | Exit (CMain _)
  | Exit (CFuncDef _) | Exit (CStmt (Return _ _)) => True
  | _ => False
  end.

(** The same scope tree and the same cursor. *)
Definition same_tree_and_cursor (st st' : State) : Prop :=
  same_scope_tree st st' ∧ current_scope st' = current_scope st.

(** The depth of the cursor after an event of Pass 2 that returns, given
    the depth before it: 0 for no scope, 1 for the global scope, 2 for a
    child of the global scope.  [None] when the event cannot return. *)
Definition depth_step (d : nat) (ev : Event) : option nat :=
  match ev with
  | Enter (CMain _) | Enter (CFuncDef _) =>
      if bool_decide (d = 1) then Some 2 else None
  | Exit (CMain _) | Exit (CFuncDef _) | Exit (CStmt (Return _ _)) =>
      match d with
      | S d' => Some d'
      | 0 => None
      end
  | _ => Some d
  end.

Fixpoint depth_after (d : nat) (evs : list Event) : option nat :=
  match evs with
  | [] => Some d
  | ev :: evs' =>
      match depth_step d ev with
      | Some d' => depth_after d' evs'
      | None => None
      end
  end.

(** The scope tree that Pass 1 builds, flat under the global scope, with
    the cursor at depth [d]. *)
Definition flat_tree (d : nat) (st : State) : Prop :=
  ∃ G,
    scopes st !! global_scope = Some G ∧
    enclosing_scope G = None ∧
    (∀ nm h, alist_get nm (child_scopes G) = Some h →
       h ≠ global_scope ∧
       ∃ sc, scopes st !! h = Some sc ∧
             enclosing_scope sc = Some global_scope ∧
             child_scopes sc = []) ∧
    match d with
    | 0 => current_scope st = None
    | 1 => current_scope st = Some global_scope
    | 2 => ∃ nm h, alist_get nm (child_scopes G) = Some h ∧
                   current_scope st = Some h
    | _ => False
    end.

(** No symbol of a scope is removed. *)
Definition symbols_kept (st st' : State) : Prop :=
  ∀ h sc nm, scopes st !! h = Some sc → is_Some (alist_get nm (symbols sc)) →
    ∃ sc', scopes st' !! h = Some sc' ∧ is_Some (alist_get nm (symbols sc')).

(** The nodes whose exit event is among [evs]. *)
Definition exited (evs : list Event) (n : node) : Prop :=
  ∃ c, Exit c ∈ evs ∧ n = ctx_node c.

(** ** Further sample programs and states *)
Module Cases.

(** The entry-block scope after [var x : Int], as Pass 2 has it in the
    scripts of [test_simple_var_dec] and [test_assignment_fail]. *)
Definition main_with_x : Scope :=
  mkScope "$main" (Some PrimitiveType.Void)
    [("x", mkSymbol "x" (TPrim PrimitiveType.Int) false)] []
    (Some global_scope).

(** The scope of a function [f] declared to return Int, without symbols. *)
Definition scope_of_f : Scope :=
  mkScope "f" (Some PrimitiveType.Int) [] [] (Some global_scope).

(** A state with the scope [sc] under the global scope, the cursor at [sc]
    and the annotations [ty]. *)
Definition st_in_scope (sc : Scope) (ty : gmap node Value) : State :=
  mkState
    {[ global_scope := mkScope "$global" None [] [(name sc, 1)] None;
       1 := sc ]}
    (Some 1) ty [].

(** [func f(a : Int) -> Bool {var x : Int = 3 print x}
     func g() { var x : String = "abc" print x f()}
     var x : Bool = true print x g()], the script of
    [test_funcDef_returning_bool]. *)
Definition p_test_funcDef_returning_bool : Script :=
  mkScript 0
    [mkFuncDef 1 "f" [mkParameterDef 2 "a" "Int"] (Some "Bool")
       (mkBody [mkVarDec 3 "x" "Int" (Some (IntLiteral 4 "3"))]
               [Print 5 (Variable_ 6 "x")]);
     mkFuncDef 7 "g" [] None
       (mkBody [mkVarDec 8 "x" "String" (Some (StringLiteral 9 "abc"))]
               [Print 10 (Variable_ 11 "x");
                FuncCallStmt (FuncCall 12 "f" [])])]
    (mkMain 13
       (mkBody [mkVarDec 14 "x" "Bool" (Some (BoolLiteral 15 "true"))]
               [Print 16 (Variable_ 17 "x");
                FuncCallStmt (FuncCall 18 "g" [])])).

(** [func f() -> Float { }] *)
Definition f_float : FuncDef :=
  mkFuncDef 1 "f" [] (Some "Float") (mkBody [] []).
Definition p_func_float : Script := mkScript 0 [f_float] (Samples.empty_main 2).

(** [!(3<5)], from [VALID_EXPRESSIONS]. *)
Definition e_not_3_lt_5 : Expr :=
  Neg 0 "!" (Parens 1 (Compare 2 "<" (IntLiteral 3 "3") (IntLiteral 4 "5"))).

End Cases.

(** ** Bottom-up inference of the annotation of an expression *)

(** The subexpressions of an expression, itself first. *)
Fixpoint subexprs (e : Expr) : list Expr :=
  e ::
  match e with
  | IntLiteral _ _ | StringLiteral _ _ | BoolLiteral _ _ | Variable_ _ _ => []
  | Parens _ e1 | Neg _ _ e1 => subexprs e1
  | MulDiv _ _ e0 e1 | AddSub _ _ e0 e1 | Compare _ _ e0 e1 =>
      subexprs e0 ++ subexprs e1
  | FuncCall _ _ args => flat_map subexprs args
  end.

Definition expr_nodes (e : Expr) : list node := expr_node <$> subexprs e.

Definition neg_value (op : string) (v : Value) : Value :=
  if bool_decide (op = "-" ∧ v = prim PrimitiveType.Int)
  then prim PrimitiveType.Int
  else if bool_decide (op = "!" ∧ v = prim PrimitiveType.Bool)
  then prim PrimitiveType.Bool
  else prim PrimitiveType.ERROR.

Definition muldiv_value (op : string) (v0 v1 : Value) : Value :=
  if bool_decide (v0 = prim PrimitiveType.Int ∧ v1 = prim PrimitiveType.Int ∧
                  (op = "*" ∨ op = "/"))
  then prim PrimitiveType.Int
  else prim PrimitiveType.ERROR.

Definition addsub_value (op : string) (v0 v1 : Value) : Value :=
  if bool_decide (v0 = prim PrimitiveType.Int ∧ v1 = prim PrimitiveType.Int ∧
                  (op = "+" ∨ op = "-"))
  then prim PrimitiveType.Int
  else if bool_decide (v0 = prim PrimitiveType.String ∧
                       v1 = prim PrimitiveType.String ∧ op = "+")
  then prim PrimitiveType.String
  else prim PrimitiveType.ERROR.

Definition compare_value (op : string) (v0 v1 : Value) : Value :=
  if bool_decide ((v0 = prim PrimitiveType.Bool ∧
                   v1 = prim PrimitiveType.Bool ∧ op = "==") ∨
                  (v0 = prim PrimitiveType.Int ∧
                   v1 = prim PrimitiveType.Int ∧
                   (op = "==" ∨ op = "<" ∨ op = "<=")))
  then prim PrimitiveType.Bool
  else prim PrimitiveType.ERROR.

(** The annotation of an expression, from the annotations of its operands;
    [sc] is the scope the cursor is at. *)
Fixpoint inferred_value (sc : Scope) (e : Expr) : Value :=
  match e with
  | IntLiteral _ _ => prim PrimitiveType.Int
  | StringLiteral _ _ => prim PrimitiveType.String
  | BoolLiteral _ _ => prim PrimitiveType.Bool
  | Parens _ e1 => inferred_value sc e1
  | Neg _ op e1 => neg_value op (inferred_value sc e1)
  | MulDiv _ op e0 e1 =>
      muldiv_value op (inferred_value sc e0) (inferred_value sc e1)
  | AddSub _ op e0 e1 =>
      addsub_value op (inferred_value sc e0) (inferred_value sc e1)
  | Compare _ op e0 e1 =>
      compare_value op (inferred_value sc e0) (inferred_value sc e1)
  | Variable_ _ x =>
      match alist_get x (symbols sc) with
      | Some s => VSymbol s
      | None => prim PrimitiveType.ERROR
      end
  | FuncCall _ _ _ => VNone
  end.

(** The fault against the node of [e] itself: an operator node or a
    variable reference is faulted exactly when it is annotated ERROR. *)
Definition own_fault (sc : Scope) (e : Expr) : list (node * Category.t) :=
  if bool_decide (inferred_value sc e = prim PrimitiveType.ERROR) then
    match e with
    | Neg n _ _ => [(n, Category.INVALID_NEGATION)]
    | MulDiv n _ _ _ | AddSub n _ _ _ | Compare n _ _ _ =>
        [(n, Category.INVALID_BINARY_OP)]
    | Variable_ n _ => [(n, Category.UNDEFINED_NAME)]
    | _ => []
    end
  else [].

(** The faults of an expression, operands first. *)
Fixpoint expected_faults (sc : Scope) (e : Expr) : list (node * Category.t) :=
  match e with
  | Parens _ e1 | Neg _ _ e1 => expected_faults sc e1
  | MulDiv _ _ e0 e1 | AddSub _ _ e0 e1 | Compare _ _ e0 e1 =>
      expected_faults sc e0 ++ expected_faults sc e1
  | _ => []
  end ++ own_fault sc e.

(** The expressions [es] are annotated with their inferred values, the
    faults [fs] are appended to the log, and nothing else changed. *)
Definition annotated_all (sc : Scope) (es : list Expr)
    (fs : list (node * Category.t)) (st st' : State) : Prop :=
  scopes st' = scopes st ∧ current_scope st' = current_scope st ∧
  error_log st' = error_log st ++ fs ∧
  (∀ e', e' ∈ es →
     type_of st' !! expr_node e' = Some (inferred_value sc e')) ∧
  (∀ n, n ∉ expr_node <$> es → type_of st' !! n = type_of st !! n).

(** What the walk of [e] leaves behind, from the state [st]. *)
Definition inferred_bottom_up (sc : Scope) (e : Expr) (st st' : State)
    : Prop :=
  scopes st' = scopes st ∧ current_scope st' = current_scope st ∧
  error_log st' = error_log st ++ expected_faults sc e ∧
  (∀ e', e' ∈ subexprs e →
     type_of st' !! expr_node e' = Some (inferred_value sc e')) ∧
  (∀ n, n ∉ expr_nodes e → type_of st' !! n = type_of st !! n).

(** ** Scripts without calls, return statements and unknown type names *)

Fixpoint plain_stmt (s : Stmt) : Prop :=
  match s with
  | Assignment _ _ e | Print _ e => call_free e
  | While _ e b => call_free e ∧ fold_right (λ s P, plain_stmt s ∧ P) True b
  | If_ _ e b1 b2 =>
      call_free e ∧ fold_right (λ s P, plain_stmt s ∧ P) True b1 ∧
      fold_right (λ s P, plain_stmt s ∧ P) True b2
  | Return _ _ | FuncCallStmt _ => False
  end.

Definition plain_varDec (v : VarDec) : Prop :=
  is_Some (primitive_named (vd_TYPE v)) ∧
  match vd_expr v with
  | Some e => call_free e
  | None => True
  end.

Definition plain_body (b : Body) : Prop :=
  Forall plain_varDec (varBlock b) ∧ Forall plain_stmt (block b).

(** No annotation is removed. *)
Definition annotations_kept (st st' : State) : Prop :=
  ∀ n, is_Some (type_of st !! n) → is_Some (type_of st' !! n).

(** The scope tree and the cursor are the same and no annotation is
    removed. *)
Definition steady (st st' : State) : Prop :=
  same_tree_and_cursor st st' ∧ annotations_kept st st'.

(** The cursor is at a scope. *)
Definition scoped (st : State) : Prop :=
  ∃ h sc, current_scope st = Some h ∧ scopes st !! h = Some sc.

Module Scripts.

(** [var x : Int x = 5], the script of [test_simple_var_dec]. *)
Definition p_test_simple_var_dec : Script :=
  mkScript 0 []
    (mkMain 1 (mkBody [mkVarDec 2 "x" "Int" None]
                      [Assignment 3 "x" (IntLiteral 4 "5")])).

End Scripts.

(** ** The cursor and the names of a scope while a body is walked *)




(** Every scope without a symbol named [x] is still without one. *)
Definition name_spared (x : string) (st st' : State) : Prop :=
  ∀ h sc, scopes st !! h = Some sc → alist_get x (symbols sc) = None →
    ∃ sc', scopes st' !! h = Some sc' ∧ alist_get x (symbols sc') = None.

Module Returning.

(** [func f(a : Int) -> Int { return 1  print a }] *)
Definition f_ref_after_return : FuncDef :=
  mkFuncDef 1 "f" [mkParameterDef 2 "a" "Int"] (Some "Int")
    (mkBody [] [Return 3 (Some (IntLiteral 4 "1"));
                Print 5 (Variable_ 6 "a")]).
Definition p_ref_after_return : Script :=
  mkScript 0 [f_ref_after_return] (Samples.empty_main 7).

(** The events of [f_ref_after_return] between its enter event and the exit
    of the reference to [a], and after it. *)
Definition pre : list Event :=
  [Enter (CParameterDef (mkParameterDef 2 "a" "Int"));
   Exit (CParameterDef (mkParameterDef 2 "a" "Int"));
   Enter (CStmt (Return 3 (Some (IntLiteral 4 "1"))));
   Enter (CExpr (IntLiteral 4 "1"));
   Exit (CExpr (IntLiteral 4 "1"));
   Exit (CStmt (Return 3 (Some (IntLiteral 4 "1"))));
   Enter (CStmt (Print 5 (Variable_ 6 "a")));
   Enter (CExpr (Variable_ 6 "a"))].

Definition post : list Event :=
  [Exit (CStmt (Print 5 (Variable_ 6 "a")));
   Exit (CFuncDef f_ref_after_return)].


Definition st1 : State :=
  final_state (pass2_upto (walk_script p_ref_after_return)
                 [Enter (CScript p_ref_after_return);
                  Enter (CFuncDef f_ref_after_return)]).

Definition st2 : State :=
  final_state (pass2_upto (walk_script p_ref_after_return)
                 ([Enter (CScript p_ref_after_return);
                   Enter (CFuncDef f_ref_after_return)] ++ pre)).

Definition st3 : State :=
  final_state (pass2_upto (walk_script p_ref_after_return)
                 ([Enter (CScript p_ref_after_return);
                   Enter (CFuncDef f_ref_after_return)] ++ pre
                  ++ [Exit (CExpr (Variable_ 6 "a"));
                      Exit (CStmt (Print 5 (Variable_ 6 "a")))])).

Definition st4 : State :=
  final_state (pass2_upto (walk_script p_ref_after_return)
                 ([Enter (CScript p_ref_after_return);
                   Enter (CFuncDef f_ref_after_return)] ++ pre
                  ++ Exit (CExpr (Variable_ 6 "a")) :: post)).

(** [func f(a : Int) -> Int { print a  return 5 }] *)
Definition p_return_after_ref : Script :=
  mkScript 0
    [mkFuncDef 1 "f" [mkParameterDef 2 "a" "Int"] (Some "Int")
       (mkBody [] [Print 3 (Variable_ 4 "a");
                   Return 5 (Some (IntLiteral 6 "5"))])]
    (Samples.empty_main 7).

(** [func f(a : Int) -> Int { f(1)  print a }] *)
Definition p_ref_after_call : Script :=
  mkScript 0
    [mkFuncDef 1 "f" [mkParameterDef 2 "a" "Int"] (Some "Int")
       (mkBody [] [FuncCallStmt (FuncCall 3 "f" [IntLiteral 4 "1"]);
                   Print 5 (Variable_ 6 "a")])]
    (Samples.empty_main 7).

(** [func a(a : Int) { print a }]: the function and its parameter share a
    name, and the function has no return-type annotation. *)
Definition p_function_named_like_parameter : Script :=
  mkScript 0
    [mkFuncDef 1 "a" [mkParameterDef 2 "a" "Int"] None
       (mkBody [] [Print 3 (Variable_ 4 "a")])]
    (Samples.empty_main 5).

(** [func f(a : Int) { return  return  print a }] *)
Definition p_ref_after_two_returns : Script :=
  mkScript 0
    [mkFuncDef 1 "f" [mkParameterDef 2 "a" "Int"] None
       (mkBody [] [Return 3 None; Return 4 None;
                   Print 5 (Variable_ 6 "a")])]
    (Samples.empty_main 7).

End Returning.

(** The state after [create_child_scope] on the global scope [G], with a
    name that no child has. *)
Definition child_created (st : State) (G : Scope) (nm : string)
    (rt : PrimitiveType.t) : State :=
  mkState
    (<[global_scope :=
         mkScope (name G) (return_type G) (symbols G)
           (child_scopes G ++ [(nm, fresh (dom (scopes st)))])
           (enclosing_scope G)]>
       (<[fresh (dom (scopes st)) :=
            mkScope nm (Some rt) [] [] (Some global_scope)]> (scopes st)))
    (Some (fresh (dom (scopes st)))) (type_of st) (error_log st).

(** The state after Pass 1 has walked the definition of [f]. *)
Definition function_walked (st : State) (G : Scope) (f : FuncDef)
    (rt : PrimitiveType.t) : State :=
  mkState
    (<[global_scope :=
         mkScope (name G) (return_type G)
           (match fd_TYPE f with
            | Some _ => alist_set (fd_ID f) (function_symbol f) (symbols G)
            | None => symbols G
            end)
           (child_scopes G ++ [(fd_ID f, fresh (dom (scopes st)))])
           (enclosing_scope G)]>
       (<[fresh (dom (scopes st)) :=
            mkScope (fd_ID f) (Some rt)
              (match fd_TYPE f with
               | Some _ => []
               | None => [(fd_ID f, function_symbol f)]
               end)
              [] (Some global_scope)]> (scopes st)))
    (Some global_scope) (type_of st) (error_log st).

(** The state after Pass 1 has walked the entry block. *)
Definition main_walked (st : State) (G : Scope) : State :=
  cursor_at (child_created st G "$main" PrimitiveType.Void)
    (Some global_scope).

(** The state after an expression handler: the node annotated [v], and
    [l] appended to the log. *)
Definition expr_exited (st : State) (n : node) (v : Value)
    (l : list (node * Category.t)) : State :=
  mkState (scopes st) (current_scope st) (<[n := v]> (type_of st))
    (error_log st ++ l).

(** * Properties *)

(** ** Proof steps shared by the handlers *)

(** Unfolding of the primitive operations on the state. *)
Ltac unfold_monad :=
  unfold error_log_add, type_of_set, type_of_get, set_current_scope,
    self_current_scope, get_enclosing_scope, get_return_type, resolve_locally,
    child_scope_named, parameters, define, update_scope, scope_object,
    and_then, get_state, set_state, raise, mbind, M_bind, mret, M_ret in *.

(** Rewriting with what is known of the state. *)
Ltac rew_state :=
  repeat match goal with
  | H : current_scope ?s = _ |- context [current_scope ?s] => rewrite H
  | H : scopes ?s !! ?h = _ |- context [scopes ?s !! ?h] => rewrite H
  | H : type_of ?s !! ?n = _ |- context [type_of ?s !! ?n] => rewrite H
  | H : alist_get ?k ?l = _ |- context [alist_get ?k ?l] => rewrite H
  end.

Ltac msimpl := repeat (progress (simpl; rew_state)).

(** Case analysis on every test of a handler. *)
Ltac handler_cases :=
  repeat (case_match; simplify_eq/=; try done);
  unfold py_ne, py_eq in *;
  repeat (case_bool_decide; simplify_eq/=; try done).

(** ** The monad *)

Lemma bind_Ok {A B} (m : M A) (f : A → M B) st b st' :
  (m ≫= f) st = Ok b st' ↔ ∃ a st1, m st = Ok a st1 ∧ f a st1 = Ok b st'.
Proof.
  unfold mbind, M_bind. destruct (m st) as [a st1|e st1]; split.
  - eauto.
  - intros (a' & st1' & [= <- <-] & Hf). done.
  - done.
  - intros (a' & st1' & [=] & _).
Qed.

(** ** Insertion-ordered dictionaries *)

Lemma alist_get_set_eq {A} k (a : A) l :
  alist_get k (alist_set k a l) = Some a.
Proof.
  induction l as [|[k' a'] l IH]; simpl.
  - by rewrite bool_decide_eq_true_2.
  - case_bool_decide; simpl.
    + by rewrite bool_decide_eq_true_2.
    + by rewrite bool_decide_eq_false_2.
Qed.

Lemma alist_get_set_ne {A} k k' (a : A) l :
  k ≠ k' → alist_get k (alist_set k' a l) = alist_get k l.
Proof.
  intros Hne. induction l as [|[k'' a''] l IH]; simpl.
  - by rewrite bool_decide_eq_false_2.
  - destruct (decide (k' = k'')) as [->|Hne'].
    + rewrite bool_decide_eq_true_2 by done. simpl.
      by rewrite !bool_decide_eq_false_2.
    + rewrite (bool_decide_eq_false_2 (k' = k'')) by done. simpl.
      case_bool_decide; [done|apply IH].
Qed.

(** ** What the handlers of Pass 2 do *)

Section handlers.
Import InferTypesAndCheckConstraints.

(** A return statement with an expression is faulted whatever the types
    are: when the first test of the chain passes, the second one cannot. *)
Lemma exitReturn_expr_always_faults n e st st' :
  exitReturn n (Some e) st = Ok tt st' →
  error_log st' = error_log st ++ [(n, Category.INVALID_RETURN)].
Proof.
  unfold exitReturn, return_matches. unfold_monad.
  intros H. handler_cases.
  all: destruct (return_type _) as [[]|]; simplify_eq/=.
Qed.

(** A return statement moves the cursor to the enclosing scope. *)
Lemma exitReturn_moves_cursor n e st st' h sc :
  current_scope st = Some h → scopes st !! h = Some sc →
  exitReturn n e st = Ok tt st' →
  current_scope st' = enclosing_scope sc.
Proof.
  unfold exitReturn, return_matches. unfold_monad.
  intros Hc Hs H. destruct e; handler_cases.
Qed.

(** The check of the parameter types raises on the first element of
    [params], leaving the state as it was. *)
Lemma check_params_raises n args p params i st :
  ∃ e, check_params n args (p :: params) i st = Raise e st.
Proof.
  simpl. unfold type_of_arg, list_attr_type. unfold_monad.
  destruct (args !! i) as [a|]; [|by eexists].
  destruct (type_of st !! expr_node a); by eexists.
Qed.

(** The scan of the child scopes never returns from inside the loop: it
    raises, or finds nothing and leaves the state as it was. *)
Lemma scan_child_scopes_result n ID args children st :
  (∃ e, scan_child_scopes n ID args children st = Raise e st) ∨
  scan_child_scopes n ID args children st = Ok false st.
Proof.
  induction children as [|h children IH]; simpl; [by right|].
  unfold_monad.
  destruct (scopes st !! h) as [sc|] eqn:Hh; msimpl; [|left; by eexists].
  case_bool_decide; [|exact IH].
  destruct (current_scope st) as [c|] eqn:Hc; msimpl; [|left; by eexists].
  destruct (scopes st !! c) as [csc|] eqn:Hs; msimpl; [|left; by eexists].
  rewrite andb_false_r. msimpl.
  case_match; [|exact IH].
  left. unfold type_of_arg, list_attr_type. unfold_monad.
  destruct (args !! 0) as [a|]; msimpl; [|by eexists].
  destruct (type_of st !! expr_node a) eqn:Ha; msimpl; by eexists.
Qed.

(** Every call of [exitFuncCall] raises, and changes nothing. *)
Lemma exitFuncCall_always_raises n ID args st :
  ∃ e, exitFuncCall n ID args st = Raise e st.
Proof.
  unfold exitFuncCall, list_getText. unfold_monad.
  destruct (current_scope st) as [c|] eqn:Hc; msimpl; [|by eexists].
  destruct (scopes st !! c) as [sc|] eqn:Hs; msimpl; [|by eexists].
  destruct (scan_child_scopes_result n ID args (child_scopes sc).*2 st)
    as [[e He]|He]; unfold_monad; rewrite He; by eexists.
Qed.

(** A print statement is faulted whatever the type of its operand is. *)
Lemma exitPrint_always_faults n e st v :
  type_of st !! expr_node e = Some v →
  exitPrint n e st = Ok tt (faulted st n Category.UNPRINTABLE_EXPRESSION).
Proof.
  intros H. unfold exitPrint, print_condition, faulted. unfold_monad.
  msimpl. by rewrite orb_true_r.
Qed.

(** Whatever the truth value of [PrimitiveType.Void], the condition of
    [exitPrint] is not "the operand is Void or ERROR". *)
Lemma print_condition_never_right (void_truth : bool) :
  ¬ ∀ v, print_condition void_truth v = true ↔
         (v = prim PrimitiveType.Void ∨ v = prim PrimitiveType.ERROR).
Proof.
  intros H. destruct void_truth.
  - destruct (H (prim PrimitiveType.Int)) as [H1 _].
    destruct H1 as [[=]|[=]]. done.
  - destruct (H (prim PrimitiveType.Void)) as [_ H1].
    specialize (H1 (or_introl eq_refl)). done.
Qed.

(** A resolved name is annotated with the [Symbol] object. *)
Lemma exitVariable_resolved n text st h sc s :
  current_scope st = Some h → scopes st !! h = Some sc →
  alist_get text (symbols sc) = Some s →
  exitVariable n text st =
  Ok tt (mkState (scopes st) (current_scope st)
           (<[n := VSymbol s]> (type_of st)) (error_log st)).
Proof.
  intros Hc Hs Hr. unfold exitVariable. unfold_monad. by msimpl.
Qed.


(** A declaration with an unknown type name raises while the message of the
    fault is built. *)
Lemma exitVarDec_unknown_type_raises v st h sc :
  current_scope st = Some h → scopes st !! h = Some sc →
  alist_get (vd_ID v) (symbols sc) = None →
  vd_TYPE v ≠ "Int" → vd_TYPE v ≠ "String" → vd_TYPE v ≠ "Bool" →
  type_of st !! vd_node v = None →
  exitVarDec v st = Raise KeyError st.
Proof.
  intros Hc Hs Hr H1 H2 H3 Ht. unfold exitVarDec. unfold_monad.
  msimpl. rewrite !bool_decide_eq_false_2 by done. by msimpl.
Qed.

Lemma exitAddSub_table st n op e0 e1 v0 v1 :
  type_of st !! expr_node e0 = Some v0 →
  type_of st !! expr_node e1 = Some v1 →
  (v0 = prim PrimitiveType.Int → v1 = prim PrimitiveType.Int →
   op = "+" ∨ op = "-" →
   exitAddSub n op e0 e1 st = Ok tt (annotated st n PrimitiveType.Int)) ∧
  (v0 = prim PrimitiveType.String → v1 = prim PrimitiveType.String →
   op = "+" →
   exitAddSub n op e0 e1 st = Ok tt (annotated st n PrimitiveType.String)) ∧
  (¬ (v0 = prim PrimitiveType.Int ∧ v1 = prim PrimitiveType.Int ∧
      (op = "+" ∨ op = "-")) →
   ¬ (v0 = prim PrimitiveType.String ∧ v1 = prim PrimitiveType.String ∧
      op = "+") →
   exitAddSub n op e0 e1 st =
   Ok tt (faulted st n Category.INVALID_BINARY_OP)).
Proof.
  intros H0 H1. unfold exitAddSub, both_operands, annotated, faulted.
  unfold_monad. unfold py_eq.
  repeat split; intros; simplify_eq/=;
    repeat (rewrite ?H0, ?H1; simpl; try case_bool_decide; simplify_eq/=);
    try done; naive_solver.
Qed.

Lemma exitCompare_table st n op e0 e1 v0 v1 :
  type_of st !! expr_node e0 = Some v0 →
  type_of st !! expr_node e1 = Some v1 →
  (v0 = prim PrimitiveType.Int → v1 = prim PrimitiveType.Int →
   op = "<" ∨ op = "<=" ∨ op = "==" →
   exitCompare n op e0 e1 st = Ok tt (annotated st n PrimitiveType.Bool)) ∧
  (v0 = prim PrimitiveType.Bool → v1 = prim PrimitiveType.Bool →
   op = "==" →
   exitCompare n op e0 e1 st = Ok tt (annotated st n PrimitiveType.Bool)) ∧
  (¬ (v0 = prim PrimitiveType.Int ∧ v1 = prim PrimitiveType.Int ∧
      (op = "<" ∨ op = "<=" ∨ op = "==")) →
   ¬ (v0 = prim PrimitiveType.Bool ∧ v1 = prim PrimitiveType.Bool ∧
      op = "==") →
   exitCompare n op e0 e1 st =
   Ok tt (faulted st n Category.INVALID_BINARY_OP)).
Proof.
  intros H0 H1. unfold exitCompare, both_operands, annotated, faulted.
  unfold_monad. unfold py_eq.
  repeat split; intros; simplify_eq/=;
    repeat (rewrite ?H0, ?H1; simpl; try case_bool_decide; simplify_eq/=);
    try done; naive_solver.
Qed.

Lemma exitNeg_table st n op e v :
  type_of st !! expr_node e = Some v →
  (op = "-" → v = prim PrimitiveType.Int →
   exitNeg n op e st = Ok tt (annotated st n PrimitiveType.Int)) ∧
  (op = "!" → v = prim PrimitiveType.Bool →
   exitNeg n op e st = Ok tt (annotated st n PrimitiveType.Bool)) ∧
  (¬ (op = "-" ∧ v = prim PrimitiveType.Int) →
   ¬ (op = "!" ∧ v = prim PrimitiveType.Bool) →
   exitNeg n op e st = Ok tt (faulted st n Category.INVALID_NEGATION)).
Proof.
  intros H0. unfold exitNeg, annotated, faulted.
  unfold_monad. unfold py_eq.
  repeat split; intros; simplify_eq/=;
    repeat (rewrite ?H0, ?lookup_insert_eq; simpl; try case_bool_decide;
            simplify_eq/=);
    rewrite ?insert_insert_eq; try done; naive_solver.
Qed.


End handlers.

(** ** A name that the current scope does not hold *)

Section unresolvable.
Import InferTypesAndCheckConstraints.
Variable x : string.
Variable h : handle.

Lemma keeps_ret {A} (a : A) : keeps x h (mret a).
Proof. intros st a' st' H [= <- <-]. done. Qed.

Lemma keeps_raise {A} e : keeps x h (raise (A:=A) e).
Proof. intros st a st' H [=]. Qed.

Lemma keeps_bind {A B} (m : M A) (f : A → M B) :
  keeps x h m → (∀ a, keeps x h (f a)) → keeps x h (m ≫= f).
Proof.
  intros Hm Hf st b st' H Hrun.
  apply bind_Ok in Hrun as (a & st1 & H1 & H2).
  eapply Hf; [|exact H2]. eapply Hm; [exact H|exact H1].
Qed.

(** Computations that leave the scopes and the cursor alone. *)
Lemma keeps_frame {A} (m : M A) :
  (∀ st a st', m st = Ok a st' →
     scopes st' = scopes st ∧ current_scope st' = current_scope st) →
  keeps x h m.
Proof.
  intros Hm st a st' [Hc Hs] Hrun. destruct (Hm _ _ _ Hrun) as [E1 E2].
  unfold unresolvable. by rewrite E1, E2.
Qed.

Ltac frame :=
  apply keeps_frame; unfold_monad; intros; simplify_eq/=; handler_cases;
  by repeat split.

Lemma keeps_self_current_scope : keeps x h self_current_scope.
Proof. frame. Qed.

Lemma keeps_scope_object c : keeps x h (scope_object c).
Proof. unfold scope_object. frame. Qed.

Lemma keeps_type_of_get n : keeps x h (type_of_get n).
Proof. frame. Qed.

Lemma keeps_type_of_set n v : keeps x h (type_of_set n v).
Proof. frame. Qed.

Lemma keeps_error_log_add n c : keeps x h (error_log_add n c).
Proof. frame. Qed.

Lemma keeps_resolve_locally c nm : keeps x h (resolve_locally c nm).
Proof. frame. Qed.

Lemma keeps_get_return_type c : keeps x h (get_return_type c).
Proof. frame. Qed.

Lemma keeps_parameters c : keeps x h (parameters c).
Proof. frame. Qed.

Lemma keeps_child_scope_named c nm : keeps x h (child_scope_named c nm).
Proof. frame. Qed.

Lemma keeps_attr_name v : keeps x h (attr_name v).
Proof. unfold attr_name. frame. Qed.

(** Defining another name leaves [x] as it is. *)
Lemma keeps_define c nm ty p : nm ≠ x → keeps x h (define c nm ty p).
Proof.
  intros Hne st a st' [Hc (sc & Hs & Hx)]. unfold_monad. intros H.
  handler_cases. split; [done|]. simpl.
  destruct (decide (h0 = h)) as [->|Hh].
  - rewrite lookup_insert_eq. eexists; split; [done|]. simpl.
    rewrite alist_get_set_ne by done. congruence.
  - rewrite lookup_insert_ne by done. eauto.
Qed.

Create HintDb keeps discriminated.
Hint Resolve keeps_ret keeps_raise keeps_self_current_scope
  keeps_scope_object keeps_type_of_get keeps_type_of_set
  keeps_error_log_add keeps_resolve_locally keeps_get_return_type
  keeps_parameters keeps_child_scope_named keeps_attr_name : keeps.

(** One step through the structure of a handler. *)
Ltac keeps_step :=
  match goal with
  | |- keeps _ _ (mbind _ _) => apply keeps_bind; [|intros ?]
  | |- keeps _ _ (if ?b then _ else _) => destruct b
  | |- keeps _ _ (match ?o with _ => _ end) => destruct o
  | |- keeps _ _ (define _ _ _ _) => apply keeps_define; assumption
  | |- keeps _ _ _ => solve [auto with keeps]
  end.

Ltac keeps_all := repeat keeps_step.

Lemma keeps_and_then a (b : M bool) : keeps x h b → keeps x h (and_then a b).
Proof. intros Hb. unfold and_then. destruct a; auto with keeps. Qed.

Lemma keeps_both_operands e0 e1 t ops :
  keeps x h (both_operands e0 e1 t ops).
Proof.
  unfold both_operands. keeps_all.
  apply keeps_and_then. keeps_all. apply keeps_and_then. keeps_all.
Qed.

Lemma keeps_exitFuncCall n ID args : keeps x h (exitFuncCall n ID args).
Proof.
  intros st a st' _ H.
  destruct (exitFuncCall_always_raises n ID args st) as [e He]. congruence.
Qed.

Hint Resolve keeps_both_operands keeps_exitFuncCall : keeps.

Lemma keeps_exitExpr e : keeps x h (exitExpr e).
Proof.
  destruct e; simpl;
    unfold exitIntLiteral, exitStringLiteral, exitBoolLiteral, exitParens,
      exitNeg, exitMulDiv, exitAddSub, exitCompare, exitVariable;
    keeps_all; apply keeps_and_then; keeps_all.
Qed.

Lemma keeps_exitVarDec v : vd_ID v ≠ x → keeps x h (exitVarDec v).
Proof. intros Hne. unfold exitVarDec. keeps_all. Qed.

Lemma keeps_dispatch ev : quiet x ev → keeps x h (dispatch listener ev).
Proof.
  destruct ev as [c|c]; destruct c as [| | | | |s|e]; simpl; try done;
    auto with keeps.
  - apply keeps_exitVarDec.
  - destruct s; simpl; try done;
      unfold exitAssignment, exitWhile, exitIf, exitPrint; intros _;
      keeps_all.
  - intros _. apply keeps_exitExpr.
Qed.

Lemma keeps_run evs : Forall (quiet x) evs → keeps x h (run listener evs).
Proof.
  induction 1 as [|ev evs Hq _ IH]; simpl; [apply keeps_ret|].
  apply keeps_bind; [by apply keeps_dispatch|]. intros _. exact IH.
Qed.

End unresolvable.

(** ** The events of a body *)

Lemma walk_expr_body_events : ∀ e, Forall body_event (walk_expr e).
Proof.
  fix IH 1. intros e.
  destruct e; simpl; repeat (apply Forall_cons_2 || apply Forall_app_2);
    try done; try apply IH.
  induction args as [|a args IHa]; simpl; [constructor|].
  apply Forall_app_2; [apply IH|apply IHa].
Qed.

Lemma walk_stmt_body_events : ∀ s, Forall body_event (walk_stmt s).
Proof.
  fix IH 1. intros s.
  destruct s as [n ID e|n e b|n e b1 b2|n e|n [e|]|call]; simpl;
    repeat (apply Forall_cons_2 || apply Forall_app_2);
    try done; try apply walk_expr_body_events.
  - induction b as [|s b IHb]; simpl; [constructor|].
    apply Forall_app_2; [apply IH|apply IHb].
  - induction b1 as [|s b IHb]; simpl; [constructor|].
    apply Forall_app_2; [apply IH|apply IHb].
  - induction b2 as [|s b IHb]; simpl; [constructor|].
    apply Forall_app_2; [apply IH|apply IHb].
Qed.

Lemma walk_body_body_events b : Forall body_event (walk_body b).
Proof.
  destruct b as [vs ss]. unfold walk_body. simpl. apply Forall_app_2.
  - induction vs as [|v vs IH]; simpl; [constructor|].
    apply Forall_cons_2; [done|]. apply Forall_app_2; [|exact IH].
    apply Forall_app_2; [|by repeat constructor].
    destruct (vd_expr v); simpl; [apply walk_expr_body_events|constructor].
  - induction ss as [|s ss IH]; simpl; [constructor|].
    apply Forall_app_2; [apply walk_stmt_body_events|exact IH].
Qed.

Lemma walk_parameterDefs_body_events ps :
  Forall body_event (flat_map walk_parameterDef ps).
Proof.
  induction ps as [|p ps IH]; simpl; [constructor|].
  repeat (apply Forall_cons_2; [done|]). exact IH.
Qed.


Lemma quiet_intro x ev : body_event ev → leaves_name x ev → quiet x ev.
Proof.
  destruct ev as [c|c]; destruct c as [| | | | |s|e]; simpl; done.
Qed.

(** ** Parameters are defined when the definition is exited *)

Section parameters.
Import InferTypesAndCheckConstraints.





End parameters.

(** * Properties of the walks *)

Import InferTypesAndCheckConstraints.

Lemma exitParens_result (st : State) (n : node) (e : Expr) :
  exitParens n e st =
  match type_of st !! expr_node e with
  | Some v => Ok tt (mkState (scopes st) (current_scope st)
                       (<[n := v]> (type_of st)) (error_log st))
  | None => Raise KeyError st
  end.
Proof. unfold exitParens. unfold_monad. by destruct (type_of st !! _). Qed.

Lemma exitVariable_result
    (st : State) (n : node) (text : string) :
  exitVariable n text st =
  match current_scope st with
  | None => Raise AttributeError st
  | Some h =>
      match scopes st !! h with
      | None => Raise DanglingScope st
      | Some sc =>
          match alist_get text (symbols sc) with
          | Some s => Ok tt (mkState (scopes st) (current_scope st)
                               (<[n := VSymbol s]> (type_of st))
                               (error_log st))
          | None => Ok tt (faulted st n Category.UNDEFINED_NAME)
          end
      end
  end.
Proof.
  unfold exitVariable, faulted. unfold_monad.
  destruct (current_scope st) as [h|] eqn:Hc; msimpl; [|done].
  destruct (scopes st !! h) as [sc|] eqn:Hs; msimpl; [|done].
  destruct (alist_get text (symbols sc)) eqn:Hr; by msimpl.
Qed.

Lemma run_app L evs1 evs2 st :
  run L (evs1 ++ evs2) st =
  match run L evs1 st with
  | Ok _ st1 => run L evs2 st1
  | Raise e st1 => Raise e st1
  end.
Proof.
  revert st. induction evs1 as [|ev evs1 IH]; intros st; simpl; [done|].
  unfold mbind, M_bind. destruct (dispatch L ev st); [apply IH|done].
Qed.

Lemma run_cons L ev evs st :
  run L (ev :: evs) st =
  match dispatch L ev st with
  | Ok _ st1 => run L evs st1
  | Raise e st1 => Raise e st1
  end.
Proof. done. Qed.

(** ** A function call aborts the walk *)

Lemma run_aborts_on_call evs n ID args st :
  Exit (CExpr (FuncCall n ID args)) ∈ evs →
  outcome (run listener evs st) ≠ None.
Proof.
  intros Hin. apply list_elem_of_split in Hin as (pre & post & ->).
  rewrite run_app. destruct (run listener pre st) as [[] st1|e st1]; [|done].
  simpl. unfold mbind, M_bind.
  destruct (exitFuncCall_always_raises n ID args st1) as [e ->]. done.
Qed.

(** ** An expression without calls is walked to its end *)

Lemma binary_cases st n op e0 e1 v0 v1 :
  type_of st !! expr_node e0 = Some v0 →
  type_of st !! expr_node e1 = Some v1 →
  ((∃ t, exitMulDiv n op e0 e1 st = Ok tt (annotated st n t)) ∨
   exitMulDiv n op e0 e1 st = Ok tt (faulted st n Category.INVALID_BINARY_OP))
  ∧
  ((∃ t, exitAddSub n op e0 e1 st = Ok tt (annotated st n t)) ∨
   exitAddSub n op e0 e1 st = Ok tt (faulted st n Category.INVALID_BINARY_OP))
  ∧
  ((∃ t, exitCompare n op e0 e1 st = Ok tt (annotated st n t)) ∨
   exitCompare n op e0 e1 st =
   Ok tt (faulted st n Category.INVALID_BINARY_OP)).
Proof.
  intros H0 H1.
  unfold exitMulDiv, exitAddSub, exitCompare, both_operands, annotated,
    faulted.
  unfold_monad. unfold py_eq.
  repeat split;
    repeat (rewrite ?H0, ?H1; simpl; try case_bool_decide; simplify_eq/=);
    eauto.
Qed.

Lemma negation_cases st n op e v :
  type_of st !! expr_node e = Some v →
  (∃ t, exitNeg n op e st = Ok tt (annotated st n t)) ∨
  exitNeg n op e st = Ok tt (faulted st n Category.INVALID_NEGATION).
Proof.
  intros H0. unfold exitNeg, annotated, faulted. unfold_monad. unfold py_eq.
  repeat (rewrite ?H0, ?lookup_insert_eq; simpl; try case_bool_decide;
          simplify_eq/=);
    rewrite ?insert_insert_eq; eauto.
Qed.

(** The handler of an expression that is not a call returns and annotates
    the node, when the operands are annotated and the cursor is a scope. *)
Lemma exitExpr_returns e st h sc :
  current_scope st = Some h → scopes st !! h = Some sc →
  match e with
  | Parens _ e1 | Neg _ _ e1 => is_Some (type_of st !! expr_node e1)
  | MulDiv _ _ e0 e1 | AddSub _ _ e0 e1 | Compare _ _ e0 e1 =>
      is_Some (type_of st !! expr_node e0) ∧
      is_Some (type_of st !! expr_node e1)
  | FuncCall _ _ _ => False
  | _ => True
  end →
  ∃ v l, exitExpr e st =
         Ok tt (mkState (scopes st) (current_scope st)
                  (<[expr_node e := v]> (type_of st)) (error_log st ++ l)).
Proof.
  intros Hc Hs.
  destruct e as [n t|n t|n t|n e1|n op e1|n op e0 e1|n op e0 e1|n op e0 e1
                |n t|n ID args]; simpl.
  - intros _. exists (prim PrimitiveType.Int), []. simpl.
    by rewrite app_nil_r.
  - intros _. exists (prim PrimitiveType.String), []. simpl.
    by rewrite app_nil_r.
  - intros _. exists (prim PrimitiveType.Bool), []. simpl.
    by rewrite app_nil_r.
  - intros [v Hv]. rewrite exitParens_result, Hv.
    exists v, []. simpl. by rewrite app_nil_r.
  - intros [v Hv].
    destruct (negation_cases st n op e1 v Hv) as [[t ->]| ->].
    + exists (prim t), []. unfold annotated. simpl. by rewrite app_nil_r.
    + unfold faulted. by do 2 eexists.
  - intros [[v0 H0] [v1 H1]].
    destruct (binary_cases st n op e0 e1 v0 v1 H0 H1)
      as ([[t ->]| ->] & _).
    + exists (prim t), []. unfold annotated. simpl. by rewrite app_nil_r.
    + unfold faulted. by do 2 eexists.
  - intros [[v0 H0] [v1 H1]].
    destruct (binary_cases st n op e0 e1 v0 v1 H0 H1)
      as (_ & [[t ->]| ->] & _).
    + exists (prim t), []. unfold annotated. simpl. by rewrite app_nil_r.
    + unfold faulted. by do 2 eexists.
  - intros [[v0 H0] [v1 H1]].
    destruct (binary_cases st n op e0 e1 v0 v1 H0 H1)
      as (_ & _ & [[t ->]| ->]).
    + exists (prim t), []. unfold annotated. simpl. by rewrite app_nil_r.
    + unfold faulted. by do 2 eexists.
  - intros _. pose proof (exitVariable_result st n t) as Hv.
    rewrite Hc, Hs in Hv. rewrite Hv.
    destruct (alist_get t (symbols sc)).
    + eexists _, []. simpl. by rewrite app_nil_r, Hc.
    + unfold faulted. rewrite Hc. by do 2 eexists.
  - done.
Qed.

Lemma run_expr_node e (mid : list Event) st st1 h sc :
  current_scope st = Some h → scopes st !! h = Some sc →
  run listener mid st = Ok tt st1 →
  scopes st1 = scopes st → current_scope st1 = current_scope st →
  (∀ n, is_Some (type_of st !! n) → is_Some (type_of st1 !! n)) →
  error_log st `prefix_of` error_log st1 →
  match e with
  | Parens _ e1 | Neg _ _ e1 => is_Some (type_of st1 !! expr_node e1)
  | MulDiv _ _ e0 e1 | AddSub _ _ e0 e1 | Compare _ _ e0 e1 =>
      is_Some (type_of st1 !! expr_node e0) ∧
      is_Some (type_of st1 !! expr_node e1)
  | FuncCall _ _ _ => False
  | _ => True
  end →
  ∃ st', run listener (Enter (CExpr e) :: mid ++ [Exit (CExpr e)]) st
         = Ok tt st' ∧ walked e st st'.
Proof.
  intros Hc Hs Hrun Es Ec Hmono Hlog Hops.
  destruct (exitExpr_returns e st1 h sc) as (v & l & Hexit);
    [congruence|congruence|exact Hops|].
  eexists. split.
  - change (run listener (Enter (CExpr e) :: mid ++ [Exit (CExpr e)]) st)
      with (run listener (mid ++ [Exit (CExpr e)]) st).
    rewrite run_app, Hrun. simpl. unfold mbind, M_bind. simpl.
    rewrite Hexit. reflexivity.
  - repeat split; simpl; try done.
    + rewrite lookup_insert_eq. by eexists.
    + intros n Hn. destruct (decide (expr_node e = n)) as [->|Hne].
      * rewrite lookup_insert_eq. by eexists.
      * rewrite lookup_insert_ne by done. by apply Hmono.
    + etrans; [exact Hlog|]. by apply prefix_app_r.
Qed.

Lemma call_free_expression_is_walked
    (e : Expr) (st : State) (h : handle) (sc : Scope)
    (Hfree : call_free e)
    (Hc : current_scope st = Some h) (Hs : scopes st !! h = Some sc) :
  ∃ st', run listener (walk_expr e) st = Ok tt st' ∧ walked e st st'.
Proof.
  revert st Hc Hs.
  induction e as [n t|n t|n t|n e1 IH|n op e1 IH|n op e0 IH0 e1 IH1
                 |n op e0 IH0 e1 IH1|n op e0 IH0 e1 IH1|n t|n ID args];
    intros st Hc Hs; simpl in Hfree; try done.
  1-3, 9: by apply (run_expr_node _ [] st st h sc).
  1-2: destruct (IH Hfree st Hc Hs) as (st1 & Hrun & Es & Ec & Ha & Hm & Hl);
    by apply (run_expr_node _ (walk_expr e1) st st1 h sc).
  all: destruct Hfree as [Hf0 Hf1];
    destruct (IH0 Hf0 st Hc Hs) as (st1 & Hrun0 & Es0 & Ec0 & Ha0 & Hm0 & Hl0);
    destruct (IH1 Hf1 st1) as (st2 & Hrun1 & Es1 & Ec1 & Ha1 & Hm1 & Hl1);
    [congruence|congruence|];
    apply (run_expr_node _ (walk_expr e0 ++ walk_expr e1) st st2 h sc);
    try done; try congruence;
    [by rewrite run_app, Hrun0|by auto|by etrans|by auto].
Qed.

(** ** Pass 1 builds the scope tree *)

Lemma alist_get_None {A} k (l : list (string * A)) :
  alist_get k l = None ↔ k ∉ l.*1.
Proof.
  induction l as [|[k' a] l IH]; simpl.
  - split; [intros _; apply not_elem_of_nil|done].
  - rewrite not_elem_of_cons. case_bool_decide; [naive_solver|].
    rewrite IH. naive_solver.
Qed.

Lemma alist_set_fresh {A} k (a : A) l :
  alist_get k l = None → alist_set k a l = l ++ [(k, a)].
Proof.
  induction l as [|[k' a'] l IH]; simpl; [done|].
  case_bool_decide; [done|]. intros Hl. by rewrite IH.
Qed.

(** No event of a body is handled by Pass 1. *)
Lemma pass1_skips_body evs st :
  Forall body_event evs →
  run DefineScopesAndSymbols.listener evs st = Ok tt st.
Proof.
  induction 1 as [|ev evs Hev _ IH]; simpl; [done|].
  unfold mbind, M_bind.
  destruct ev as [c|c]; destruct c; simpl in *; done.
Qed.

Lemma fresh_handle_unused (st : State) :
  scopes st !! fresh (dom (scopes st)) = None.
Proof. apply not_elem_of_dom, is_fresh. Qed.

Lemma create_then_enter st G nm rt :
  current_scope st = Some global_scope →
  scopes st !! global_scope = Some G →
  alist_get nm (child_scopes G) = None →
  (c ← self_current_scope;
   c' ← create_child_scope c nm rt;
   set_current_scope c') st = Ok tt (child_created st G nm rt).
Proof.
  intros Hc HG Hnm. unfold create_child_scope, child_created.
  unfold_monad. msimpl. by rewrite alist_set_fresh.
Qed.

Lemma pass1_enterFuncDef f rt st G :
  current_scope st = Some global_scope →
  scopes st !! global_scope = Some G →
  alist_get (fd_ID f) (child_scopes G) = None →
  declared_return_type (fd_TYPE f) = Some rt →
  DefineScopesAndSymbols.enterFuncDef f st
  = Ok tt (child_created st G (fd_ID f) rt).
Proof.
  intros Hc HG Hnm Hrt.
  unfold DefineScopesAndSymbols.enterFuncDef, declared_return_type in *.
  destruct (fd_TYPE f) as [ty|]; repeat case_bool_decide; simplify_eq;
    by apply create_then_enter.
Qed.

Lemma pass1_exitFuncDef f rt st G :
  scopes st !! global_scope = Some G →
  declared_return_type (fd_TYPE f) = Some rt →
  DefineScopesAndSymbols.exitFuncDef f (child_created st G (fd_ID f) rt)
  = Ok tt (function_walked st G f rt).
Proof.
  intros HG Hrt.
  assert (Hne : fresh (dom (scopes st)) ≠ global_scope).
  { intros E. pose proof (fresh_handle_unused st) as Hf.
    rewrite E in Hf. congruence. }
  unfold DefineScopesAndSymbols.exitFuncDef,
    DefineScopesAndSymbols.define_in_enclosing, function_walked,
    child_created, function_symbol, declared_return_type in *.
  destruct (fd_TYPE f) as [ty|]; repeat case_bool_decide; simplify_eq/=;
    unfold_monad;
    repeat (progress (simpl;
      rewrite ?lookup_insert_eq, ?(lookup_insert_ne _ global_scope) by done));
    do 2 f_equal.
  all: try (rewrite insert_insert_eq; reflexivity).
  rewrite (insert_insert_ne _ (fresh (dom (scopes st))) global_scope) by done.
  by rewrite insert_insert_eq.
Qed.

Lemma pass1_walk_funcDef f rt st G :
  current_scope st = Some global_scope →
  scopes st !! global_scope = Some G →
  alist_get (fd_ID f) (child_scopes G) = None →
  declared_return_type (fd_TYPE f) = Some rt →
  run DefineScopesAndSymbols.listener (walk_funcDef f) st
  = Ok tt (function_walked st G f rt).
Proof.
  intros Hc HG Hnm Hrt. unfold walk_funcDef.
  rewrite run_cons. simpl dispatch.
  rewrite (pass1_enterFuncDef f rt st G) by done.
  rewrite app_assoc, run_app, pass1_skips_body.
  - rewrite run_cons. simpl dispatch.
    by rewrite (pass1_exitFuncDef f rt st G).
  - apply Forall_app_2;
      [apply walk_parameterDefs_body_events|apply walk_body_body_events].
Qed.

Lemma alist_get_app_fresh {A} k k' (a : A) l :
  k ≠ k' → alist_get k (l ++ [(k', a)]) = alist_get k l.
Proof.
  intros Hne. induction l as [|[k'' a''] l IH]; simpl.
  - by rewrite bool_decide_eq_false_2.
  - case_bool_decide; [done|apply IH].
Qed.

Lemma alist_get_app_new {A} k (a : A) l :
  alist_get k l = None → alist_get k (l ++ [(k, a)]) = Some a.
Proof.
  induction l as [|[k'' a''] l IH]; simpl.
  - by rewrite bool_decide_eq_true_2.
  - case_bool_decide; [done|apply IH].
Qed.

(** What is known of an earlier function stays true when the scope of a
    function with another name is added. *)
Lemma function_scoped_kept st G f g rt G' :
  fd_ID g ≠ fd_ID f →
  function_scoped st G g →
  scopes (function_walked st G f rt) !! global_scope = Some G' →
  function_scoped (function_walked st G f rt) G' g.
Proof.
  intros Hne (h & sc & Hh & Hh0 & Hsc & Hrest) HG'.
  simpl in HG'. rewrite lookup_insert_eq in HG'. injection HG' as <-.
  exists h, sc. simpl.
  assert (Hh' : h ≠ fresh (dom (scopes st))).
  { intros ->. rewrite fresh_handle_unused in Hsc. done. }
  split; [by rewrite alist_get_app_fresh|].
  split; [done|]. split.
  { rewrite lookup_insert_ne by done. by rewrite lookup_insert_ne. }
  destruct Hrest as (? & ? & ? & ? & Hsym). repeat (split; [done|]).
  destruct (fd_TYPE g); destruct Hsym as [Hs1 Hs2]; (split; [|done]);
    destruct (fd_TYPE f); try done; by rewrite alist_get_set_ne.
Qed.

Lemma function_scoped_new st G f rt G' :
  scopes st !! global_scope = Some G →
  alist_get (fd_ID f) (child_scopes G) = None →
  alist_get (fd_ID f) (symbols G) = None →
  declared_return_type (fd_TYPE f) = Some rt →
  scopes (function_walked st G f rt) !! global_scope = Some G' →
  function_scoped (function_walked st G f rt) G' f.
Proof.
  intros HG Hnm Hsym Hrt HG'.
  simpl in HG'. rewrite lookup_insert_eq in HG'. injection HG' as <-.
  assert (Hne : fresh (dom (scopes st)) ≠ global_scope).
  { intros E. pose proof (fresh_handle_unused st) as Hf.
    rewrite E in Hf. congruence. }
  exists (fresh (dom (scopes st))). eexists. simpl.
  split; [by apply alist_get_app_new|]. split; [done|]. split.
  { rewrite lookup_insert_ne by done. apply lookup_insert_eq. }
  simpl. repeat (split; [done|]).
  destruct (fd_TYPE f); [by rewrite alist_get_set_eq|done].
Qed.

Lemma functions_scoped_step fs f rt st G :
  scopes st !! global_scope = Some G →
  enclosing_scope G = None →
  (child_scopes G).*1 = fd_ID <$> fs →
  (∀ nm, nm ∉ fd_ID <$> fs → alist_get nm (symbols G) = None) →
  (∀ g, g ∈ fs → function_scoped st G g) →
  fd_ID f ∉ fd_ID <$> fs →
  declared_return_type (fd_TYPE f) = Some rt →
  functions_scoped (fs ++ [f]) (function_walked st G f rt).
Proof.
  intros HG Henc Hch Hsym Hfs Hnew Hrt.
  assert (Hnm : alist_get (fd_ID f) (child_scopes G) = None).
  { apply alist_get_None. by rewrite Hch. }
  eexists. split; [apply lookup_insert_eq|]. simpl.
  split; [done|]. split.
  { by rewrite !fmap_app, Hch. }
  split.
  - intros nm Hin. rewrite fmap_app, not_elem_of_app in Hin.
    destruct Hin as [Hin1 Hin2]. apply not_elem_of_cons in Hin2 as [Hin2 _].
    destruct (fd_TYPE f); [rewrite alist_get_set_ne by done|]; by apply Hsym.
  - intros g Hg. apply elem_of_app in Hg as [Hg|Hg].
    + eapply function_scoped_kept; [|by apply Hfs|apply lookup_insert_eq].
      intros E. apply Hnew. rewrite <- E. by apply list_elem_of_fmap_2.
    + apply list_elem_of_singleton in Hg as ->.
      eapply function_scoped_new; try done; [by apply Hsym|].
      apply lookup_insert_eq.
Qed.

(** Pass 1 over the definitions [fs], after the definitions [done]. *)
Lemma pass1_walk_funcDefs fs done st :
  current_scope st = Some global_scope →
  functions_scoped done st →
  NoDup (fd_ID <$> done ++ fs) →
  Forall (λ f, is_Some (declared_return_type (fd_TYPE f))) fs →
  ∃ st', run DefineScopesAndSymbols.listener (flat_map walk_funcDef fs) st
         = Ok tt st' ∧
         current_scope st' = Some global_scope ∧
         type_of st' = type_of st ∧ error_log st' = error_log st ∧
         functions_scoped (done ++ fs) st'.
Proof.
  revert done st. induction fs as [|f fs IH]; intros done st Hc Hinv Hnd Hty.
  - exists st. rewrite app_nil_r. by repeat split.
  - apply Forall_cons in Hty as [[rt Hrt] Hty].
    destruct Hinv as (G & HG & Henc & Hch & Hsym & Hfs).
    assert (Hnew : fd_ID f ∉ fd_ID <$> done).
    { rewrite fmap_app, fmap_cons in Hnd.
      apply NoDup_app in Hnd as (_ & Hnd & _).
      intros Hin. apply (Hnd _ Hin). by left. }
    assert (Hnm : alist_get (fd_ID f) (child_scopes G) = None).
    { apply alist_get_None. by rewrite Hch. }
    destruct (IH (done ++ [f]) (function_walked st G f rt))
      as (st' & Hrun & Hc' & Ht' & Hl' & Hinv'); [done| | |done|].
    + by eapply functions_scoped_step.
    + by rewrite <- app_assoc.
    + exists st'.
      change (flat_map walk_funcDef (f :: fs))
        with (walk_funcDef f ++ flat_map walk_funcDef fs).
      rewrite run_app.
      rewrite (pass1_walk_funcDef f rt st G) by done.
      rewrite <- app_assoc in Hinv'. by repeat split.
Qed.

Lemma pass1_walk_main m st G :
  current_scope st = Some global_scope →
  scopes st !! global_scope = Some G →
  alist_get "$main" (child_scopes G) = None →
  run DefineScopesAndSymbols.listener (walk_main m) st
  = Ok tt (main_walked st G).
Proof.
  intros Hc HG Hnm. unfold walk_main.
  assert (Hne : fresh (dom (scopes st)) ≠ global_scope).
  { intros E. pose proof (fresh_handle_unused st) as Hf.
    rewrite E in Hf. congruence. }
  rewrite run_cons. simpl dispatch.
  unfold DefineScopesAndSymbols.enterMain.
  rewrite (create_then_enter st G) by done. lazy beta iota.
  rewrite run_app, pass1_skips_body by apply walk_body_body_events.
  rewrite run_cons. simpl dispatch.
  unfold DefineScopesAndSymbols.exitMain, main_walked, child_created,
    cursor_at.
  unfold_monad. simpl.
  rewrite lookup_insert_ne by done. by rewrite lookup_insert_eq.
Qed.

Lemma function_scoped_kept_main st G g G' :
  fd_ID g ≠ "$main" →
  function_scoped st G g →
  scopes (main_walked st G) !! global_scope = Some G' →
  function_scoped (main_walked st G) G' g.
Proof.
  intros Hne (h & sc & Hh & Hh0 & Hsc & Hrest) HG'.
  simpl in HG'. rewrite lookup_insert_eq in HG'. injection HG' as <-.
  exists h, sc. simpl.
  assert (Hh' : h ≠ fresh (dom (scopes st))).
  { intros ->. rewrite fresh_handle_unused in Hsc. done. }
  split; [by rewrite alist_get_app_fresh|].
  split; [done|]. split; [|done].
  rewrite lookup_insert_ne by done. by rewrite lookup_insert_ne.
Qed.

Lemma functions_scoped_initial : functions_scoped [] initial_state.
Proof.
  eexists. split; [apply lookup_singleton_eq|]. simpl.
  repeat split; try done. intros f Hf. by apply elem_of_nil in Hf.
Qed.

Lemma pass1_walk_script (s : Script)
    (Hnodup : NoDup (fd_ID <$> funcDefs s))
    (Hmain : "$main" ∉ fd_ID <$> funcDefs s)
    (Htypes : Forall (λ f, is_Some (declared_return_type (fd_TYPE f)))
                (funcDefs s)) :
  ∃ st G hm,
    pass1 (walk_script s) initial_state = Ok tt st ∧
    current_scope st = Some global_scope ∧
    type_of st = ∅ ∧ error_log st = [] ∧
    scopes st !! global_scope = Some G ∧
    enclosing_scope G = None ∧
    (child_scopes G).*1 = (fd_ID <$> funcDefs s) ++ ["$main"] ∧
    (∀ f, f ∈ funcDefs s → function_scoped st G f) ∧
    alist_get "$main" (child_scopes G) = Some hm ∧
    scopes st !! hm
    = Some (mkScope "$main" (Some PrimitiveType.Void) [] []
              (Some global_scope)).
Proof.
  destruct (pass1_walk_funcDefs (funcDefs s) [] initial_state)
    as (st1 & Hrun & Hc1 & Ht1 & Hl1 & G & HG & Henc & Hch & Hsym & Hfs);
    [done|apply functions_scoped_initial|done|done|].
  simpl in Hch, Hfs.
  assert (Hnm : alist_get "$main" (child_scopes G) = None).
  { apply alist_get_None. by rewrite Hch. }
  assert (Hne : fresh (dom (scopes st1)) ≠ global_scope).
  { intros E. pose proof (fresh_handle_unused st1) as Hf.
    rewrite E in Hf. congruence. }
  exists (main_walked st1 G). eexists. exists (fresh (dom (scopes st1))).
  split.
  { unfold pass1, pass, walk_script.
    change ((set_current_scope (Some global_scope);; ?m) initial_state)
      with (m initial_state).
    rewrite run_cons. simpl dispatch.
    unfold mret, M_ret. lazy beta iota.
    rewrite run_app, Hrun, run_app.
    rewrite (pass1_walk_main (main s) st1 G) by done. done. }
  split; [done|]. split; [done|]. split; [done|].
  split; [apply lookup_insert_eq|]. simpl.
  split; [done|]. split; [by rewrite fmap_app, Hch|]. split.
  { intros f Hf. eapply function_scoped_kept_main;
      [|by apply Hfs|apply lookup_insert_eq].
    intros E. apply Hmain. rewrite <- E. by apply list_elem_of_fmap_2. }
  split; [by apply alist_get_app_new|].
  rewrite lookup_insert_ne by done. apply lookup_insert_eq.
Qed.

Section always.
Context (R : State → State → Prop) `{!Reflexive R, !Transitive R}.

Lemma always_pure {A} (m : M A) :
  (∀ st, final_state (m st) = st) → always R m.
Proof. intros H st. by rewrite H. Qed.

Lemma always_bind {A B} (m : M A) (f : A → M B) :
  always R m → (∀ a, always R (f a)) → always R (m ≫= f).
Proof.
  intros Hm Hf st. specialize (Hm st). unfold mbind, M_bind.
  destruct (m st) as [a st1|e st1]; simpl in *; [|done].
  etrans; [exact Hm|apply Hf].
Qed.

Lemma always_ret {A} (a : A) : always R (mret a).
Proof. by apply always_pure. Qed.

Lemma always_raise {A} e : always R (raise (A:=A) e).
Proof. by apply always_pure. Qed.

Ltac pure := apply always_pure; intros st; unfold_monad; simpl;
  repeat (case_match; simplify_eq/=; try done); done.

Lemma always_self_current_scope : always R self_current_scope.
Proof. pure. Qed.

Lemma always_scope_object c : always R (scope_object c).
Proof. unfold scope_object. pure. Qed.

Lemma always_type_of_get n : always R (type_of_get n).
Proof. pure. Qed.

Lemma always_resolve_locally c nm : always R (resolve_locally c nm).
Proof. pure. Qed.

Lemma always_get_return_type c : always R (get_return_type c).
Proof. pure. Qed.

Lemma always_get_enclosing_scope c : always R (get_enclosing_scope c).
Proof. pure. Qed.

Lemma always_parameters c : always R (parameters c).
Proof. pure. Qed.

Lemma always_child_scope_named c nm : always R (child_scope_named c nm).
Proof. pure. Qed.

Lemma always_attr_name v : always R (attr_name v).
Proof. unfold attr_name. pure. Qed.

Lemma always_and_then a (b : M bool) : always R b → always R (and_then a b).
Proof. intros Hb. unfold and_then. destruct a; [done|apply always_ret]. Qed.

(** The handlers, given that the operations that change the state are in
    [R]. *)
Hypothesis R_set_current_scope : ∀ c, always R (set_current_scope c).
Hypothesis R_define : ∀ c nm ty p, always R (define c nm ty p).

Create HintDb always discriminated.
Hint Resolve always_ret always_raise always_self_current_scope
  always_scope_object always_type_of_get always_resolve_locally
  always_get_return_type always_get_enclosing_scope always_parameters
  always_child_scope_named always_attr_name R_set_current_scope R_define
  : always.

Ltac always_step :=
  match goal with
  | |- always _ (mbind _ funcDef_expr) => apply always_pure; done
  | |- always _ (mbind _ _) => apply always_bind; [|intros ?]
  | |- always _ (and_then _ _) => apply always_and_then
  | |- always _ (if ?b then _ else _) => destruct b
  | |- always _ (match ?o with _ => _ end) => destruct o
  | |- always _ _ => solve [auto with always]
  end.

Ltac always_all := repeat always_step.

Lemma always_dispatch_pass1 ev :
  (∀ c nm rt, always R (create_child_scope c nm rt)) →
  always R (dispatch DefineScopesAndSymbols.listener ev).
Proof.
  intros Hcreate.
  destruct ev as [c|c]; destruct c; simpl; try apply always_ret.
  - unfold DefineScopesAndSymbols.enterMain. always_all.
  - unfold DefineScopesAndSymbols.enterFuncDef. always_all.
  - unfold DefineScopesAndSymbols.exitMain. always_all.
  - unfold DefineScopesAndSymbols.exitFuncDef,
      DefineScopesAndSymbols.define_in_enclosing.
    always_all.
Qed.

Lemma always_exitFuncCall n ID args : always R (exitFuncCall n ID args).
Proof.
  apply always_pure. intros st.
  destruct (exitFuncCall_always_raises n ID args st) as [e ->]. done.
Qed.

Lemma always_define_parameters ps : always R (define_parameters ps).
Proof.
  induction ps as [|p ps IH]; simpl; [apply always_ret|].
  apply always_bind; [|intros _; exact IH].
  unfold define_parameter. always_all.
Qed.

Hint Resolve always_exitFuncCall always_define_parameters : always.

Lemma always_dispatch_pass2 ev :
  (∀ v, always R (type_of_set (event_node ev) v)) →
  (∀ c, always R (error_log_add (event_node ev) c)) →
  always R (dispatch listener ev).
Proof.
  intros Hset Hadd.
  destruct ev as [c|c]; destruct c as [| | | | |s|e]; simpl in *;
    try apply always_ret.
  - unfold enterMain. always_all.
  - unfold enterFuncDef. always_all.
  - unfold exitMain. always_all.
  - unfold exitFuncDef. always_all.
  - unfold exitVarDec. always_all.
  - destruct s; simpl in *;
      unfold exitAssignment, exitWhile, exitIf, exitPrint, exitReturn,
        return_matches, print_condition;
      always_all.
  - destruct e; simpl in *;
      unfold exitIntLiteral, exitStringLiteral, exitBoolLiteral, exitParens,
        exitNeg, exitMulDiv, exitAddSub, exitCompare, exitVariable,
        both_operands;
      always_all.
Qed.

(** The handlers of the events that do not move the cursor need no
    assumption on [set_current_scope]. *)
Lemma always_dispatch_pass2_static ev :
  ¬ moves_cursor ev →
  (∀ v, always R (type_of_set (event_node ev) v)) →
  (∀ c, always R (error_log_add (event_node ev) c)) →
  always R (dispatch listener ev).
Proof.
  clear R_set_current_scope.
  intros Hstatic Hset Hadd.
  destruct ev as [c|c]; destruct c as [| | | | |s|e]; simpl in *;
    try apply always_ret; try done.
  - unfold exitVarDec. always_all.
  - destruct s; simpl in *; try done;
      unfold exitAssignment, exitWhile, exitIf, exitPrint, print_condition;
      always_all.
  - destruct e; simpl in *;
      unfold exitIntLiteral, exitStringLiteral, exitBoolLiteral, exitParens,
        exitNeg, exitMulDiv, exitAddSub, exitCompare, exitVariable,
        both_operands;
      always_all.
Qed.


Lemma always_run L evs :
  (∀ ev, ev ∈ evs → always R (dispatch L ev)) → always R (run L evs).
Proof.
  induction evs as [|ev evs IH]; intros H; simpl; [apply always_ret|].
  apply always_bind; [apply H; by left|].
  intros _. apply IH. intros ev' Hev'. apply H. by right.
Qed.
End always.

(** ** The relations *)

#[local] Instance log_extends_refl : Reflexive log_extends.
Proof. intros st. unfold log_extends. done. Qed.

#[local] Instance log_extends_trans : Transitive log_extends.
Proof. intros s1 s2 s3. unfold log_extends. apply transitivity. Qed.

#[local] Instance same_annotations_and_log_refl :
  Reflexive same_annotations_and_log.
Proof. by intros st. Qed.

#[local] Instance same_annotations_and_log_trans :
  Transitive same_annotations_and_log.
Proof. intros s1 s2 s3 [? ?] [? ?]. split; congruence. Qed.

#[local] Instance same_scope_tree_refl : Reflexive same_scope_tree.
Proof. by intros st h. Qed.

#[local] Instance same_scope_tree_trans : Transitive same_scope_tree.
Proof. intros s1 s2 s3 H1 H2 h. by rewrite H2, H1. Qed.

#[local] Instance touches_only_refl N : Reflexive (touches_only N).
Proof.
  intros st. split; [|done]. exists []. by rewrite app_nil_r.
Qed.

#[local] Instance touches_only_trans N : Transitive (touches_only N).
Proof.
  intros s1 s2 s3 [(l1 & E1 & F1) A1] [(l2 & E2 & F2) A2]. split.
  - exists (l1 ++ l2). rewrite E2, E1, app_assoc. split; [done|].
    by apply Forall_app_2.
  - intros n Hn. by rewrite A2, A1.
Qed.

Lemma touches_only_mono (N N' : node → Prop) st st' :
  (∀ n, N n → N' n) → touches_only N st st' → touches_only N' st st'.
Proof.
  intros HN [(l & E & F) A]. split.
  - exists l. split; [done|]. eapply Forall_impl; [exact F|]. naive_solver.
  - intros n Hn. apply A. naive_solver.
Qed.

(** What the operations that change the state do; each result is read off
    the final state, whether the operation returns or raises. *)
Ltac run_op :=
  unfold always, same_annotations_and_log, log_extends, create_child_scope;
  intros; unfold_monad; simpl;
  repeat (case_match; simplify_eq/=; try done); try done.

Lemma set_current_scope_final c st :
  final_state (set_current_scope c st) = cursor_at st c.
Proof. done. Qed.

Lemma define_final c nm ty p st :
  final_state (define c nm ty p st) = st ∨
  ∃ h sc, c = Some h ∧ scopes st !! h = Some sc ∧
          final_state (define c nm ty p st)
          = symbol_defined st h sc (mkSymbol nm ty p).
Proof.
  unfold_monad. simpl. repeat (case_match; simplify_eq/=; try by left).
  right. by do 2 eexists.
Qed.

Lemma create_child_scope_keeps_annotations c nm rt :
  always same_annotations_and_log (create_child_scope c nm rt).
Proof. run_op. Qed.

(** *** Pass 1 leaves the annotations and the log alone *)

Lemma pass1_event_keeps_annotations ev :
  always same_annotations_and_log
    (dispatch DefineScopesAndSymbols.listener ev).
Proof.
  apply always_dispatch_pass1; try apply _.
  - run_op.
  - run_op.
  - apply create_child_scope_keeps_annotations.
Qed.

(** *** The log only grows *)

Lemma error_log_add_extends n c : always log_extends (error_log_add n c).
Proof. run_op. by apply prefix_app_r. Qed.

Lemma event_extends_log L ev :
  L = DefineScopesAndSymbols.listener ∨ L = listener →
  always log_extends (dispatch L ev).
Proof.
  intros [->| ->].
  - intros st.
    destruct (pass1_event_keeps_annotations ev st) as [_ E].
    unfold log_extends. by rewrite E.
  - apply always_dispatch_pass2; try apply _.
    + run_op.
    + run_op.
    + run_op.
    + intros c. apply error_log_add_extends.
Qed.

(** *** Pass 2 changes nothing of a scope but its symbols *)

Lemma define_keeps_scope_tree c nm ty p :
  always same_scope_tree (define c nm ty p).
Proof.
  intros st. destruct (define_final c nm ty p st)
    as [->|(h & sc & -> & Hs & ->)]; [done|].
  intros h'. simpl. destruct (decide (h' = h)) as [->|Hne].
  - by rewrite lookup_insert_eq, Hs.
  - by rewrite lookup_insert_ne.
Qed.

Lemma pass2_event_keeps_scope_tree ev :
  always same_scope_tree (dispatch listener ev).
Proof.
  apply always_dispatch_pass2; try apply _.
  - by intros c st.
  - apply define_keeps_scope_tree.
  - intros v st. done.
  - intros c st. done.
Qed.

(** *** An event of Pass 2 touches its own node only *)

Lemma touches_only_same N st st' :
  error_log st' = error_log st → type_of st' = type_of st →
  touches_only N st st'.
Proof.
  intros E1 E2. split; [|by rewrite E2]. exists []. by rewrite app_nil_r.
Qed.

Lemma pass2_event_touches_own_node ev :
  always (touches_only (λ n, n = event_node ev)) (dispatch listener ev).
Proof.
  apply always_dispatch_pass2; try apply _.
  - intros c st. by apply touches_only_same.
  - intros c nm ty p st.
    destruct (define_final c nm ty p st)
      as [->|(h & sc & -> & Hs & ->)]; by apply touches_only_same.
  - intros v st. split; simpl.
    + exists []. by rewrite app_nil_r.
    + intros n Hn. by rewrite lookup_insert_ne.
  - intros c st. split; simpl; [|done].
    eexists. split; [done|]. by constructor.
Qed.

#[local] Instance same_tree_and_cursor_refl : Reflexive same_tree_and_cursor.
Proof. intros st. split; [by intros h|done]. Qed.

#[local] Instance same_tree_and_cursor_trans :
  Transitive same_tree_and_cursor.
Proof.
  intros s1 s2 s3 [T1 C1] [T2 C2]. split; [|congruence].
  intros h. by rewrite T2, T1.
Qed.

Lemma define_keeps_tree_and_cursor c nm ty p :
  always same_tree_and_cursor (define c nm ty p).
Proof.
  intros st. split; [apply define_keeps_scope_tree|].
  destruct (define_final c nm ty p st)
    as [->|(h & sc & -> & Hs & ->)]; done.
Qed.

Lemma static_event_keeps_cursor ev :
  ¬ moves_cursor ev → always same_tree_and_cursor (dispatch listener ev).
Proof.
  intros Hstatic. apply always_dispatch_pass2_static; try apply _; try done.
  apply define_keeps_tree_and_cursor.
Qed.

Lemma define_parameters_keep_cursor ps :
  always same_tree_and_cursor (define_parameters ps).
Proof.
  apply always_define_parameters; try apply _.
  apply define_keeps_tree_and_cursor.
Qed.

Lemma same_scope_tree_lookup st st' h sc :
  same_scope_tree st st' → scopes st !! h = Some sc →
  ∃ sc', scopes st' !! h = Some sc' ∧ skeleton sc' = skeleton sc.
Proof.
  intros T Hs. specialize (T h). rewrite Hs in T.
  destruct (scopes st' !! h) as [sc'|]; simpl in T; [|done].
  exists sc'. split; [done|]. congruence.
Qed.

Lemma flat_tree_moved d d' st st' G :
  flat_tree d st → same_scope_tree st st' →
  scopes st !! global_scope = Some G →
  match d' with
  | 0 => current_scope st' = None
  | 1 => current_scope st' = Some global_scope
  | 2 => ∃ nm h, alist_get nm (child_scopes G) = Some h ∧
                 current_scope st' = Some h
  | _ => False
  end →
  flat_tree d' st'.
Proof.
  intros (G0 & HG & Henc & Hch & _) T HG' Hd. simplify_eq.
  destruct (same_scope_tree_lookup _ _ _ _ T HG) as (G' & HG' & E).
  assert (child_scopes G' = child_scopes G0) as Ech
    by (unfold skeleton in E; congruence).
  assert (enclosing_scope G' = enclosing_scope G0) as Een
    by (unfold skeleton in E; congruence).
  exists G'. split; [done|]. split; [congruence|]. split.
  - intros nm h Hh. rewrite Ech in Hh.
    destruct (Hch nm h Hh) as (Hne & sc & Hs & He & Hc). split; [done|].
    destruct (same_scope_tree_lookup _ _ _ _ T Hs) as (sc' & Hs' & E').
    exists sc'. split; [done|].
    unfold skeleton in E'. split; congruence.
  - by rewrite Ech.
Qed.

Lemma flat_tree_same d st st' :
  flat_tree d st → same_tree_and_cursor st st' → flat_tree d st'.
Proof.
  intros Hf [T C]. pose proof Hf as (G & HG & Henc & Hch & Hd).
  apply (flat_tree_moved d d st st' G); try done.
  rewrite C. destruct d as [|[|[|d]]]; done.
Qed.

(** ** The cursor after an event that moves it *)

Lemma leave_scope_cursor st st' :
  (c ← self_current_scope; c' ← get_enclosing_scope c; set_current_scope c')
    st = Ok tt st' →
  ∃ h sc, current_scope st = Some h ∧ scopes st !! h = Some sc ∧
          current_scope st' = enclosing_scope sc.
Proof.
  unfold_monad. intros H. handler_cases. by eexists _, _.
Qed.

Lemma moving_event_cursor ev st st' :
  moves_cursor ev → dispatch listener ev st = Ok tt st' →
  ∃ h sc, current_scope st = Some h ∧ scopes st !! h = Some sc ∧
    match ev with
    | Enter (CMain _) =>
        ∃ h', alist_get "$main" (child_scopes sc) = Some h' ∧
              current_scope st' = Some h'
    | Enter (CFuncDef f) =>
        ∃ h', alist_get (fd_ID f) (child_scopes sc) = Some h' ∧
              current_scope st' = Some h'
    | _ => current_scope st' = enclosing_scope sc
    end.
Proof.
  intros Hm H.
  destruct ev as [c|c]; destruct c as [| m | f | | | s |]; simpl in *;
    try done.
  - unfold enterMain in H. unfold_monad. handler_cases.
    eexists _, _. split; [done|]. split; [done|]. by eexists.
  - unfold enterFuncDef in H. unfold_monad. handler_cases.
    eexists _, _. split; [done|]. split; [done|]. by eexists.
  - by apply leave_scope_cursor.
  - unfold exitFuncDef in H. apply bind_Ok in H as ([] & st1 & H1 & H2).
    pose proof (define_parameters_keep_cursor (fd_parameterDef f) st)
      as [T C].
    rewrite H1 in T, C. simpl in T, C.
    apply leave_scope_cursor in H2 as (h & sc1 & Hc & Hs & Hc').
    specialize (T h). rewrite Hs in T.
    destruct (scopes st !! h) as [sc|] eqn:Hs0; simplify_eq/=.
    exists h, sc. unfold skeleton in T.
    split; [congruence|]. split; [done|]. congruence.
  - destruct s as [| | | | n e |]; try done. simpl in H.
    destruct (current_scope st) as [h|] eqn:Hc.
    + destruct (scopes st !! h) as [sc|] eqn:Hs.
      * exists h, sc. split; [done|]. split; [done|].
        by eapply exitReturn_moves_cursor.
      * exfalso. revert H. unfold exitReturn, return_matches. unfold_monad.
        destruct e; msimpl; done.
    + exfalso. revert H. unfold exitReturn, return_matches. unfold_monad.
      destruct e; msimpl; done.
Qed.

Lemma depth_step_static d ev : ¬ moves_cursor ev → depth_step d ev = Some d.
Proof.
  destruct ev as [c|c]; destruct c as [| | | | |s|]; simpl; try done.
  destruct s; simpl; done.
Qed.

Lemma moves_cursor_dec ev : moves_cursor ev ∨ ¬ moves_cursor ev.
Proof.
  destruct ev as [c|c]; destruct c as [| | | | |s|]; simpl; auto.
  destruct s; simpl; auto.
Qed.

Lemma depth_step_sound d ev st st' :
  flat_tree d st → dispatch listener ev st = Ok tt st' →
  ∃ d', depth_step d ev = Some d' ∧ flat_tree d' st'.
Proof.
  intros Hf H.
  destruct (moves_cursor_dec ev) as [Hm|Hs].
  - pose proof (pass2_event_keeps_scope_tree ev st) as T.
    rewrite H in T. simpl in T.
    destruct (moving_event_cursor ev st st' Hm H) as (h & sc & Hc & Hsc & Hev).
    pose proof Hf as (G & HG & Henc & Hch & Hd).
    destruct d as [|[|[|d]]]; try done.
    + congruence.
    + rewrite Hc in Hd. simplify_eq.
      destruct ev as [c|c]; destruct c as [| | | | |s|]; simpl in *;
        try done.
      * destruct Hev as (h' & Hh' & Hc'). exists 2. split; [done|].
        apply (flat_tree_moved 1 2 st st' sc); eauto.
      * destruct Hev as (h' & Hh' & Hc'). exists 2. split; [done|].
        apply (flat_tree_moved 1 2 st st' sc); eauto.
      * exists 0. split; [done|].
        apply (flat_tree_moved 1 0 st st' sc); try done. congruence.
      * exists 0. split; [done|].
        apply (flat_tree_moved 1 0 st st' sc); try done. congruence.
      * destruct s; try done. exists 0. split; [done|].
        apply (flat_tree_moved 1 0 st st' sc); try done. congruence.
    + destruct Hd as (nm & h0 & Hh0 & Hc0). rewrite Hc in Hc0. simplify_eq.
      destruct (Hch nm h0 Hh0) as (Hne & sc0 & Hs0 & He0 & Hc0).
      simplify_eq.
      destruct ev as [c|c]; destruct c as [| | | | |s|]; simpl in *;
        try done.
      * destruct Hev as (h' & Hh' & Hc'). by rewrite Hc0 in Hh'.
      * destruct Hev as (h' & Hh' & Hc'). by rewrite Hc0 in Hh'.
      * exists 1. split; [done|].
        apply (flat_tree_moved 2 1 st st' G); try done. congruence.
      * exists 1. split; [done|].
        apply (flat_tree_moved 2 1 st st' G); try done. congruence.
      * destruct s; try done. exists 1. split; [done|].
        apply (flat_tree_moved 2 1 st st' G); try done. congruence.
  - exists d. split; [by apply depth_step_static|].
    apply (flat_tree_same d st); [done|].
    pose proof (static_event_keeps_cursor ev Hs st) as T.
    by rewrite H in T.
Qed.

Lemma depth_after_sound evs d st st' :
  flat_tree d st → run listener evs st = Ok tt st' →
  ∃ d', depth_after d evs = Some d' ∧ flat_tree d' st'.
Proof.
  revert d st. induction evs as [|ev evs IH]; intros d st Hf H.
  - simpl in H. unfold mret, M_ret in H. simplify_eq. by exists d.
  - simpl in H. apply bind_Ok in H as ([] & st1 & H1 & H2).
    destruct (depth_step_sound d ev st st1 Hf H1) as (d1 & E1 & Hf1).
    simpl. rewrite E1. by apply (IH d1 st1).
Qed.

#[local] Instance name_spared_refl x : Reflexive (name_spared x).
Proof. intros st h sc Hs Hx. by exists sc. Qed.

#[local] Instance name_spared_trans x : Transitive (name_spared x).
Proof.
  intros s1 s2 s3 H1 H2 h sc Hs Hx.
  destruct (H1 h sc Hs Hx) as (sc' & Hs' & Hx'). by apply (H2 h sc').
Qed.





(** ** The cursor while a body is walked *)






Lemma depth_after_app d l1 l2 :
  depth_after d (l1 ++ l2) = depth_after d l1 ≫= λ d', depth_after d' l2.
Proof.
  revert d. induction l1 as [|ev l1 IH]; intros d; simpl; [done|].
  destruct (depth_step d ev); [apply IH|done].
Qed.

Lemma depth_after_body evs d d' :
  Forall body_event evs → depth_after d evs = Some d' →
  d' ≤ d ∧ ∀ n e, Exit (CStmt (Return n e)) ∈ evs → d' < d.
Proof.
  intros Hb. revert d. induction Hb as [|ev evs Hev _ IH]; intros d H.
  - simpl in H. simplify_eq. split; [done|].
    intros n e Hin. by apply elem_of_nil in Hin.
  - simpl in H. destruct (depth_step d ev) as [d1|] eqn:E1; [|done].
    destruct (IH d1 H) as [Hle Hlt].
    assert (d1 ≤ d ∧ ∀ n e, ev = Exit (CStmt (Return n e)) → d1 < d)
      as [Hle1 Hlt1].
    { destruct ev as [c|c]; destruct c as [| | | | |s|]; simpl in *;
        simplify_eq; try done.
      destruct s; simpl in *; simplify_eq; try done.
      destruct d; simplify_eq. split; [lia|]. intros; lia. }
    split; [lia|]. intros n e Hin.
    apply elem_of_cons in Hin as [Eev|Hin].
    + specialize (Hlt1 n e (eq_sym Eev)). lia.
    + specialize (Hlt n e Hin). lia.
Qed.

Lemma depth_after_funcDef f d d' :
  depth_after d (walk_funcDef f) = Some d' →
  d' ≤ 1 ∧ ∀ n e, Exit (CStmt (Return n e)) ∈ walk_body (fd_body f) → d' = 0.
Proof.
  unfold walk_funcDef. simpl. case_bool_decide as Hd1; [|done].
  rewrite !depth_after_app. intros H.
  apply bind_Some in H as (d1 & E1 & H).
  rewrite depth_after_app in H.
  apply bind_Some in H as (d2 & E2 & H).
  simpl in H. destruct d2 as [|d2]; simplify_eq.
  apply depth_after_body in E1 as [L1 _];
    [|apply walk_parameterDefs_body_events].
  apply depth_after_body in E2 as [L2 R2]; [|apply walk_body_body_events].
  split; [lia|]. intros n e Hin. specialize (R2 n e Hin). lia.
Qed.

Lemma depth_after_enter_outside fs m tail :
  depth_after 0 (flat_map walk_funcDef fs ++ walk_main m ++ tail) = None.
Proof. destruct fs; done. Qed.

Lemma depth_after_returning_function fs m tail d f n e :
  f ∈ fs → Exit (CStmt (Return n e)) ∈ walk_body (fd_body f) →
  depth_after d (flat_map walk_funcDef fs ++ walk_main m ++ tail) = None.
Proof.
  intros Hf Hret. revert d. induction fs as [|g fs IH]; intros d.
  - by apply elem_of_nil in Hf.
  - change (flat_map walk_funcDef (g :: fs))
      with (walk_funcDef g ++ flat_map walk_funcDef fs).
    rewrite <- app_assoc, depth_after_app.
    destruct (depth_after d (walk_funcDef g)) as [d'|] eqn:E; [|done].
    simpl. apply depth_after_funcDef in E as [Hle Hz].
    apply elem_of_cons in Hf as [->|Hf].
    + rewrite (Hz n e Hret). apply depth_after_enter_outside.
    + by apply IH.
Qed.

Lemma alist_get_Some_key {A} k (a : A) l : alist_get k l = Some a → k ∈ l.*1.
Proof.
  intros H. destruct (decide (k ∈ l.*1)) as [|Hn]; [done|].
  apply alist_get_None in Hn. congruence.
Qed.

(** Pass 2 starts on the tree of Pass 1 with the cursor at the global
    scope. *)
Lemma pass1_leaves_flat_tree (s : Script) :
  NoDup (fd_ID <$> funcDefs s) →
  "$main" ∉ fd_ID <$> funcDefs s →
  Forall (λ f, is_Some (declared_return_type (fd_TYPE f))) (funcDefs s) →
  ∃ st, pass1 (walk_script s) initial_state = Ok tt st ∧ flat_tree 1 st.
Proof.
  intros Hnodup Hmain Htypes.
  destruct (pass1_walk_script s Hnodup Hmain Htypes)
    as (st & G & hm & Hrun & Hc & _ & _ & HG & Henc & Hch & Hfs & Hm & Hsm).
  exists st. split; [done|]. exists G.
  split; [done|]. split; [done|]. split; [|done].
  intros nm h Hh. pose proof (alist_get_Some_key _ _ _ Hh) as Hin.
  rewrite Hch in Hin. apply elem_of_app in Hin as [Hin|Hin].
  - apply list_elem_of_fmap in Hin as (f & -> & Hf).
    destruct (Hfs f Hf) as (h' & sc & Hh' & Hne & Hsc & _ & _ & He & Hc' & _).
    rewrite Hh in Hh'. simplify_eq. split; [done|]. by exists sc.
  - apply list_elem_of_singleton in Hin as ->. rewrite Hh in Hm.
    simplify_eq. split; [|by eexists].
    intros ->. rewrite HG in Hsm. by simplify_eq.
Qed.

#[local] Instance symbols_kept_refl : Reflexive symbols_kept.
Proof. intros st h sc nm Hs Hn. by exists sc. Qed.

#[local] Instance symbols_kept_trans : Transitive symbols_kept.
Proof.
  intros s1 s2 s3 H1 H2 h sc nm Hs Hn.
  destruct (H1 h sc nm Hs Hn) as (sc' & Hs' & Hn'). by apply (H2 h sc' nm).
Qed.

Lemma alist_set_keeps {A} k k' (a : A) l :
  is_Some (alist_get k l) → is_Some (alist_get k (alist_set k' a l)).
Proof.
  intros H. destruct (decide (k = k')) as [->|Hne].
  - by rewrite alist_get_set_eq.
  - by rewrite alist_get_set_ne.
Qed.

Lemma define_keeps_symbols c nm ty p :
  always symbols_kept (define c nm ty p).
Proof.
  intros st. destruct (define_final c nm ty p st)
    as [->|(h & sc & -> & Hs & ->)]; [done|].
  intros h' sc' k Hs' Hk. simpl. destruct (decide (h' = h)) as [->|Hne].
  - rewrite lookup_insert_eq. eexists. split; [done|]. simpl.
    simplify_eq. by apply alist_set_keeps.
  - rewrite lookup_insert_ne by done. by exists sc'.
Qed.

Lemma pass2_event_keeps_symbols ev :
  always symbols_kept (dispatch listener ev).
Proof.
  apply always_dispatch_pass2; try apply _.
  - intros c st h sc nm Hs Hn. by exists sc.
  - apply define_keeps_symbols.
  - intros v st h sc nm Hs Hn. by exists sc.
  - intros c st h sc nm Hs Hn. by exists sc.
Qed.

Lemma always_pass R `{!Reflexive R, !Transitive R} L evs :
  (∀ c, always R (set_current_scope c)) →
  (∀ ev, ev ∈ evs → always R (dispatch L ev)) →
  always R (pass L evs).
Proof.
  intros Hset Hev. unfold pass.
  apply (always_bind R (set_current_scope (Some global_scope))
           (λ _, run L evs)); [apply Hset|].
  intros _. by apply always_run.
Qed.

Lemma pass2_event_touches_exited ev :
  always (touches_only (exited [ev])) (dispatch listener ev).
Proof.
  destruct ev as [c|c].
  - intros st. apply touches_only_same;
      destruct c; simpl; try done;
      unfold enterMain, enterFuncDef; unfold_monad; simpl;
      repeat (case_match; simplify_eq/=; try done).
  - intros st.
    eapply (touches_only_mono (λ n, n = event_node (Exit c)));
      [|apply pass2_event_touches_own_node].
    intros n ->. exists c. split; [by left|done].
Qed.

(** ** A function with an unrecognised return type *)

Lemma pass1_exitFuncDef_unknown_type f ty st :
  fd_TYPE f = Some ty → declared_return_type (Some ty) = None →
  DefineScopesAndSymbols.enterFuncDef f st = Ok tt st ∧
  DefineScopesAndSymbols.exitFuncDef f st = Raise AttributeError st.
Proof.
  unfold DefineScopesAndSymbols.enterFuncDef,
    DefineScopesAndSymbols.exitFuncDef, declared_return_type.
  intros -> Hty. repeat case_bool_decide; try done.
Qed.

Lemma subexprs_self e : e ∈ subexprs e.
Proof. destruct e; by left. Qed.

Ltac binary_handler a0 a1 H0 H1 :=
  revert H0 H1; generalize a0 a1; intros ? ? H0 H1;
  unfold_monad; unfold py_eq;
  repeat (rewrite ?H0, ?H1; simpl; try case_bool_decide; simplify_eq/=);
  rewrite ?app_nil_r; try done; naive_solver.

Lemma exitExpr_inferred e st h sc :
  call_free e →
  current_scope st = Some h → scopes st !! h = Some sc →
  (∀ e', e' ∈ tail (subexprs e) →
     type_of st !! expr_node e' = Some (inferred_value sc e')) →
  exitExpr e st
  = Ok tt (expr_exited st (expr_node e) (inferred_value sc e) (own_fault sc e)).
Proof.
  intros Hfree Hc Hs Hops.
  assert (Hsub : ∀ e1, e1 ∈ tail (subexprs e) →
            type_of st !! expr_node e1 = Some (inferred_value sc e1))
    by exact Hops.
  unfold expr_exited, own_fault.
  destruct e as [n t|n t|n t|n e1|n op e1|n op e0 e1|n op e0 e1|n op e0 e1
                |n t|n ID args]; simpl in *; try done.
  - by rewrite app_nil_r.
  - by rewrite app_nil_r.
  - by rewrite app_nil_r.
  - rewrite exitParens_result.
    rewrite (Hsub e1) by apply subexprs_self.
    case_bool_decide; by rewrite app_nil_r.
  - assert (H1 : type_of st !! expr_node e1 = Some (inferred_value sc e1))
      by apply Hsub, subexprs_self.
    unfold exitNeg, neg_value. unfold_monad. unfold py_eq.
    repeat (rewrite ?H1, ?lookup_insert_eq; simpl; try case_bool_decide;
            simplify_eq/=);
      rewrite ?insert_insert_eq, ?app_nil_r; try done; naive_solver.
  - assert (H0 : type_of st !! expr_node e0 = Some (inferred_value sc e0))
      by (apply Hsub, elem_of_app; left; apply subexprs_self).
    assert (H1 : type_of st !! expr_node e1 = Some (inferred_value sc e1))
      by (apply Hsub, elem_of_app; right; apply subexprs_self).
    clear Hsub Hops.
    unfold exitMulDiv, both_operands, muldiv_value. binary_handler (inferred_value sc e0) (inferred_value sc e1) H0 H1.
  - assert (H0 : type_of st !! expr_node e0 = Some (inferred_value sc e0))
      by (apply Hsub, elem_of_app; left; apply subexprs_self).
    assert (H1 : type_of st !! expr_node e1 = Some (inferred_value sc e1))
      by (apply Hsub, elem_of_app; right; apply subexprs_self).
    clear Hsub Hops.
    unfold exitAddSub, both_operands, addsub_value. binary_handler (inferred_value sc e0) (inferred_value sc e1) H0 H1.
  - assert (H0 : type_of st !! expr_node e0 = Some (inferred_value sc e0))
      by (apply Hsub, elem_of_app; left; apply subexprs_self).
    assert (H1 : type_of st !! expr_node e1 = Some (inferred_value sc e1))
      by (apply Hsub, elem_of_app; right; apply subexprs_self).
    clear Hsub Hops.
    unfold exitCompare, both_operands, compare_value. binary_handler (inferred_value sc e0) (inferred_value sc e1) H0 H1.
  - rewrite exitVariable_result, Hc, Hs.
    destruct (alist_get t (symbols sc)) as [s|]; simpl.
    + by rewrite ?app_nil_r, ?Hc.
    + unfold faulted. by rewrite ?Hc.
Qed.

Lemma elem_of_expr_nodes e' e : e' ∈ subexprs e → expr_node e' ∈ expr_nodes e.
Proof. intros H. by apply list_elem_of_fmap_2. Qed.

Lemma run_expr_inferred e (mid : list Event) st st1 h sc :
  call_free e →
  current_scope st = Some h → scopes st !! h = Some sc →
  run listener mid st = Ok tt st1 →
  scopes st1 = scopes st → current_scope st1 = current_scope st →
  (∀ e', e' ∈ tail (subexprs e) →
     type_of st1 !! expr_node e' = Some (inferred_value sc e')) →
  run listener (Enter (CExpr e) :: mid ++ [Exit (CExpr e)]) st
  = Ok tt (expr_exited st1 (expr_node e) (inferred_value sc e)
             (own_fault sc e)).
Proof.
  intros Hfree Hc Hs Hrun Es Ec Hops.
  change (run listener (Enter (CExpr e) :: mid ++ [Exit (CExpr e)]) st)
    with (run listener (mid ++ [Exit (CExpr e)]) st).
  rewrite run_app, Hrun. simpl. unfold mbind, M_bind. simpl.
  rewrite (exitExpr_inferred e st1 h sc) by (done || congruence).
  reflexivity.
Qed.

Lemma annotated_all_nil sc st : annotated_all sc [] [] st st.
Proof.
  unfold annotated_all. rewrite app_nil_r. repeat split; try done.
  intros e' He'. by apply elem_of_nil in He'.
Qed.

Lemma annotated_all_app sc es0 es1 f0 f1 st st1 st2 :
  annotated_all sc es0 f0 st st1 → annotated_all sc es1 f1 st1 st2 →
  (∀ n, n ∈ expr_node <$> es0 → n ∉ expr_node <$> es1) →
  annotated_all sc (es0 ++ es1) (f0 ++ f1) st st2.
Proof.
  intros (S0 & C0 & L0 & A0 & F0) (S1 & C1 & L1 & A1 & F1) Hdis.
  split; [congruence|]. split; [congruence|].
  split; [by rewrite L1, L0, app_assoc|]. split.
  - intros e' He'. apply elem_of_app in He' as [He'|He'].
    + rewrite F1; [by apply A0|]. apply Hdis. by apply list_elem_of_fmap_2.
    + by apply A1.
  - intros n Hn. rewrite fmap_app in Hn. apply not_elem_of_app in Hn as [? ?].
    rewrite F1 by done. by apply F0.
Qed.

Lemma annotated_all_exit sc e es fs st st1 :
  annotated_all sc es fs st st1 →
  expr_node e ∉ expr_node <$> es →
  annotated_all sc (e :: es) (fs ++ own_fault sc e) st
    (expr_exited st1 (expr_node e) (inferred_value sc e) (own_fault sc e)).
Proof.
  intros (S0 & C0 & L0 & A0 & F0) Hn. unfold expr_exited.
  split; [done|]. split; [done|]. simpl.
  split; [by rewrite L0, app_assoc|]. split.
  - intros e' He'. apply elem_of_cons in He' as [->|He'].
    + by rewrite lookup_insert_eq.
    + rewrite lookup_insert_ne; [by apply A0|].
      intros E. apply Hn. rewrite E. by apply list_elem_of_fmap_2.
  - intros n Hn'. simpl in Hn'.
    apply not_elem_of_cons in Hn' as [? ?].
    rewrite lookup_insert_ne by done. by apply F0.
Qed.

Lemma expression_walk e st h sc :
  call_free e → NoDup (expr_nodes e) →
  current_scope st = Some h → scopes st !! h = Some sc →
  ∃ st', run listener (walk_expr e) st = Ok tt st' ∧
         inferred_bottom_up sc e st st'.
Proof.
  revert st.
  induction e as [n t|n t|n t|n e1 IH|n op e1 IH|n op e0 IH0 e1 IH1
                 |n op e0 IH0 e1 IH1|n op e0 IH0 e1 IH1|n t|n ID args];
    intros st Hfree Hnd Hc Hs; simpl in Hfree; try done.
  1-3, 9:
    eexists; split;
      [apply (run_expr_inferred _ [] st st h sc); try done;
       intros e' He'; by apply elem_of_nil in He'|];
    apply (annotated_all_exit sc _ [] [] st st);
      [apply annotated_all_nil|apply not_elem_of_nil].
  1-2:
    unfold expr_nodes in Hnd; simpl in Hnd;
    apply NoDup_cons in Hnd as [Hn Hnd];
    destruct (IH st Hfree Hnd Hc Hs) as (st1 & Hrun & Hw);
    pose proof Hw as (S1 & C1 & L1 & A1 & F1);
    eexists; split;
      [by apply (run_expr_inferred _ (walk_expr e1) st st1 h sc)|];
    by apply (annotated_all_exit sc _ (subexprs e1) _ st st1).
  all:
    unfold expr_nodes in Hnd; simpl in Hnd;
    apply NoDup_cons in Hnd as [Hn Hnd];
    rewrite fmap_app in Hnd, Hn;
    apply NoDup_app in Hnd as (Hnd0 & Hdis & Hnd1);
    destruct Hfree as [Hf0 Hf1];
    destruct (IH0 st Hf0 Hnd0 Hc Hs) as (st1 & Hrun0 & Hw0);
    pose proof Hw0 as (S0 & C0 & _);
    destruct (IH1 st1 Hf1 Hnd1) as (st2 & Hrun1 & Hw1);
      [congruence|congruence|];
    pose proof (annotated_all_app sc _ _ _ _ st st1 st2 Hw0 Hw1 Hdis)
      as Hw;
    pose proof Hw as (S2 & C2 & L2 & A2 & F2);
    eexists; split;
      [apply (run_expr_inferred _ (walk_expr e0 ++ walk_expr e1) st st2 h sc);
       try done; by rewrite run_app, Hrun0|];
    match goal with
    | |- inferred_bottom_up _ ?e _ _ =>
        apply (annotated_all_exit sc e (subexprs e0 ++ subexprs e1)
                 (expected_faults sc e0 ++ expected_faults sc e1) st st2)
    end;
      [exact Hw|by rewrite fmap_app].
Qed.

Lemma pass1_skips_expression e st :
  run DefineScopesAndSymbols.listener (walk_expr e) st = Ok tt st.
Proof. apply pass1_skips_body, walk_expr_body_events. Qed.

#[local] Instance annotations_kept_refl : Reflexive annotations_kept.
Proof. by intros st n. Qed.

#[local] Instance annotations_kept_trans : Transitive annotations_kept.
Proof. intros s1 s2 s3 H1 H2 n Hn. by apply H2, H1. Qed.

#[local] Instance steady_refl : Reflexive steady.
Proof. intros st. split; reflexivity. Qed.

#[local] Instance steady_trans : Transitive steady.
Proof. intros s1 s2 s3 [T1 A1] [T2 A2]. split; by etrans. Qed.

Lemma define_steady c nm ty p : always steady (define c nm ty p).
Proof.
  intros st. split; [apply define_keeps_tree_and_cursor|].
  destruct (define_final c nm ty p st)
    as [->|(h & sc & -> & Hs & ->)]; by intros n.
Qed.

Lemma type_of_set_steady n v : always steady (type_of_set n v).
Proof.
  intros st. split; [by split|]. intros n' Hn'. simpl.
  destruct (decide (n = n')) as [->|Hne].
  - rewrite lookup_insert_eq. by eexists.
  - by rewrite lookup_insert_ne.
Qed.

Lemma static_event_steady ev :
  ¬ moves_cursor ev → always steady (dispatch listener ev).
Proof.
  intros Hstatic. apply always_dispatch_pass2_static; try apply _; try done.
  - apply define_steady.
  - intros v. apply type_of_set_steady.
  - intros c st. split; [by split|by intros n].
Qed.

Lemma static_run_steady evs :
  Forall (λ ev, ¬ moves_cursor ev) evs → always steady (run listener evs).
Proof.
  intros Hs. apply always_run; try apply _.
  intros ev Hev. apply static_event_steady.
  by apply (proj1 (Forall_forall _ _) Hs).
Qed.

Lemma steady_Ok {A} (m : M A) st a st' :
  always steady m → m st = Ok a st' → steady st st'.
Proof. intros Hm H. specialize (Hm st). by rewrite H in Hm. Qed.

Lemma steady_scoped st st' : steady st st' → scoped st → scoped st'.
Proof.
  intros [[T C] _] (h & sc & Hc & Hs).
  destruct (same_scope_tree_lookup _ _ _ _ T Hs) as (sc' & Hs' & _).
  exists h, sc'. split; [congruence|done].
Qed.

(** ** The events of a plain construct do not move the cursor *)

Lemma walk_expr_static : ∀ e, Forall (λ ev, ¬ moves_cursor ev) (walk_expr e).
Proof.
  fix IH 1. intros e.
  destruct e; simpl; repeat (apply Forall_cons_2 || apply Forall_app_2);
    try (by intros []); try done; try apply IH.
  induction args as [|a args IHa]; simpl; [constructor|].
  apply Forall_app_2; [apply IH|apply IHa].
Qed.

Lemma plain_block b :
  fold_right (λ s P, plain_stmt s ∧ P) True b ↔ Forall plain_stmt b.
Proof.
  induction b as [|s b IH]; simpl; [by split|].
  rewrite Forall_cons. by rewrite IH.
Qed.

Lemma walk_stmt_static :
  ∀ s, plain_stmt s → Forall (λ ev, ¬ moves_cursor ev) (walk_stmt s).
Proof.
  fix IH 1. intros s Hp.
  destruct s as [n ID e|n e b|n e b1 b2|n e|n e|call]; simpl in *;
    try done;
    repeat (apply Forall_cons_2 || apply Forall_app_2);
    try (by intros []); try apply walk_expr_static; try apply Forall_nil_2.
  - destruct Hp as [_ Hb]. induction b as [|s b IHb]; simpl; [constructor|].
    destruct Hb as [Hs Hb]. apply Forall_app_2; [by apply IH|by apply IHb].
  - destruct Hp as (_ & Hb & _).
    induction b1 as [|s b IHb]; simpl; [constructor|].
    destruct Hb as [Hs Hb]. apply Forall_app_2; [by apply IH|by apply IHb].
  - destruct Hp as (_ & _ & Hb).
    induction b2 as [|s b IHb]; simpl; [constructor|].
    destruct Hb as [Hs Hb]. apply Forall_app_2; [by apply IH|by apply IHb].
Qed.

(** ** The handlers return on a plain construct *)

Lemma expr_ok e st :
  call_free e → scoped st →
  ∃ st', run listener (walk_expr e) st = Ok tt st' ∧ steady st st' ∧
         is_Some (type_of st' !! expr_node e).
Proof.
  intros Hf (h & sc & Hc & Hs).
  destruct (call_free_expression_is_walked e st h sc Hf Hc Hs)
    as (st' & Hrun & _ & _ & Ha & _).
  exists st'. split; [done|]. split; [|done].
  eapply steady_Ok; [apply static_run_steady, walk_expr_static|exact Hrun].
Qed.

Lemma exitStmt_ok s st :
  match s with
  | Assignment _ _ e | While _ e _ | If_ _ e _ _ | Print _ e =>
      is_Some (type_of st !! expr_node e)
  | _ => False
  end →
  scoped st → ∃ st', exitStmt s st = Ok tt st'.
Proof.
  intros Hs (h & sc & Hc & Hsc).
  destruct s as [n ID e|n e b|n e b1 b2|n e|n e|call]; try done;
    destruct Hs as [v Hv]; simpl;
    unfold exitAssignment, exitWhile, exitIf, exitPrint; unfold_monad;
    msimpl; repeat (case_match; simplify_eq/=; msimpl); by eexists.
Qed.

Lemma exitVarDec_ok v st :
  is_Some (primitive_named (vd_TYPE v)) →
  match vd_expr v with
  | Some e => is_Some (type_of st !! expr_node e)
  | None => True
  end →
  scoped st → ∃ st', exitVarDec v st = Ok tt st'.
Proof.
  intros [t Ht] He (h & sc & Hc & Hsc).
  unfold primitive_named in Ht. unfold exitVarDec. unfold_monad. msimpl.
  destruct (alist_get (vd_ID v) (symbols sc)) eqn:Hx; [by eexists|].
  repeat case_bool_decide; simplify_eq/=; msimpl;
    rewrite ?lookup_insert_eq; simpl; rewrite ?alist_get_set_eq;
    destruct (vd_expr v) as [e|]; try (by eexists);
    destruct He as [w Hw]; msimpl; rewrite ?lookup_insert_eq; simpl;
    rewrite ?alist_get_set_eq; simpl; rewrite ?Hw;
    case_match; by eexists.
Qed.

Lemma run_Ok_app L evs1 evs2 st st1 st2 :
  run L evs1 st = Ok tt st1 → run L evs2 st1 = Ok tt st2 →
  run L (evs1 ++ evs2) st = Ok tt st2.
Proof. intros H1 H2. by rewrite run_app, H1. Qed.

Lemma stmt_finish s mid st st1 :
  plain_stmt s →
  walk_stmt s = Enter (CStmt s) :: mid ++ [Exit (CStmt s)] →
  run listener mid st = Ok tt st1 → steady st st1 → scoped st →
  match s with
  | Assignment _ _ e | While _ e _ | If_ _ e _ _ | Print _ e =>
      is_Some (type_of st1 !! expr_node e)
  | _ => False
  end →
  ∃ st', run listener (walk_stmt s) st = Ok tt st' ∧ steady st st'.
Proof.
  intros Hp Hw Hrun Hst Hsc Ha.
  destruct (exitStmt_ok s st1 Ha (steady_scoped _ _ Hst Hsc)) as (st2 & Hexit).
  assert (Hall : run listener (walk_stmt s) st = Ok tt st2).
  { rewrite Hw.
    change (run listener (Enter (CStmt s) :: mid ++ [Exit (CStmt s)]) st)
      with (run listener (mid ++ [Exit (CStmt s)]) st).
    apply (run_Ok_app _ _ _ _ st1); [done|].
    rewrite run_cons. simpl dispatch. by rewrite Hexit. }
  exists st2. split; [done|].
  eapply steady_Ok; [|exact Hall].
  by apply static_run_steady, walk_stmt_static.
Qed.

Lemma stmt_ok :
  ∀ s, plain_stmt s → ∀ st, scoped st →
  ∃ st', run listener (walk_stmt s) st = Ok tt st' ∧ steady st st'.
Proof.
  fix IH 1. intros s Hp st Hsc.
  destruct s as [n ID e|n e b|n e b1 b2|n e|n e|call]; try done.
  - destruct (expr_ok e st Hp Hsc) as (st1 & Hrun & Hst & Ha).
    by apply (stmt_finish _ (walk_expr e) st st1).
  - pose proof Hp as [He Hb].
    destruct (expr_ok e st He Hsc) as (st1 & Hrun & Hst & Ha).
    assert (∃ st2, run listener (flat_map walk_stmt b) st1 = Ok tt st2 ∧
                   steady st1 st2) as (st2 & Hrun2 & Hst2).
    { pose proof (steady_scoped _ _ Hst Hsc) as Hsc1.
      clear Hrun Hst Ha Hp. revert st1 Hsc1.
      induction b as [|s b IHb]; intros st1 Hsc1; simpl.
      - exists st1. split; [done|reflexivity].
      - destruct Hb as [Hs Hb].
        destruct (IH s Hs st1 Hsc1) as (st2 & Hr2 & Hs2).
        destruct (IHb Hb st2 (steady_scoped _ _ Hs2 Hsc1))
          as (st3 & Hr3 & Hs3).
        exists st3. split; [by apply (run_Ok_app _ _ _ _ st2)|by etrans]. }
    apply (stmt_finish _ (walk_expr e ++ flat_map walk_stmt b) st st2);
      [done|simpl; by rewrite <- app_assoc| | |done|].
    + by apply (run_Ok_app _ _ _ _ st1).
    + by etrans.
    + by apply Hst2.
  - pose proof Hp as (He & Hb1 & Hb2).
    destruct (expr_ok e st He Hsc) as (st1 & Hrun & Hst & Ha).
    assert (∃ st2, run listener (flat_map walk_stmt b1) st1 = Ok tt st2 ∧
                   steady st1 st2) as (st2 & Hrun2 & Hst2).
    { pose proof (steady_scoped _ _ Hst Hsc) as Hsc1.
      clear Hrun Hst Ha Hp Hb2. revert st1 Hsc1.
      induction b1 as [|s b IHb]; intros st1 Hsc1; simpl.
      - exists st1. split; [done|reflexivity].
      - destruct Hb1 as [Hs Hb].
        destruct (IH s Hs st1 Hsc1) as (st2 & Hr2 & Hs2).
        destruct (IHb Hb st2 (steady_scoped _ _ Hs2 Hsc1))
          as (st3 & Hr3 & Hs3).
        exists st3. split; [by apply (run_Ok_app _ _ _ _ st2)|by etrans]. }
    assert (∃ st3, run listener (flat_map walk_stmt b2) st2 = Ok tt st3 ∧
                   steady st2 st3) as (st3 & Hrun3 & Hst3).
    { assert (Hsc2 : scoped st2)
        by (eapply steady_scoped; [exact Hst2|];
            by eapply steady_scoped).
      clear Hrun Hst Ha Hp Hb1 Hrun2 Hst2. revert st2 Hsc2.
      induction b2 as [|s b IHb]; intros st2 Hsc2; simpl.
      - exists st2. split; [done|reflexivity].
      - destruct Hb2 as [Hs Hb].
        destruct (IH s Hs st2 Hsc2) as (st3 & Hr3 & Hs3).
        destruct (IHb Hb st3 (steady_scoped _ _ Hs3 Hsc2))
          as (st4 & Hr4 & Hs4).
        exists st4. split; [by apply (run_Ok_app _ _ _ _ st3)|by etrans]. }
    apply (stmt_finish _
             (walk_expr e ++ flat_map walk_stmt b1 ++ flat_map walk_stmt b2)
             st st3);
      [done|simpl; by rewrite <- !app_assoc| | |done|].
    + apply (run_Ok_app _ _ _ _ st1); [done|].
      by apply (run_Ok_app _ _ _ _ st2).
    + etrans; [exact Hst|]. by etrans.
    + by apply Hst3, Hst2.
  - destruct (expr_ok e st Hp Hsc) as (st1 & Hrun & Hst & Ha).
    by apply (stmt_finish _ (walk_expr e) st st1).
Qed.

Lemma walk_varDec_static v :
  Forall (λ ev, ¬ moves_cursor ev) (walk_varDec v).
Proof.
  unfold walk_varDec. apply Forall_cons_2; [by intros []|].
  apply Forall_app_2; [|by repeat constructor; intros []].
  destruct (vd_expr v); simpl; [apply walk_expr_static|constructor].
Qed.

Lemma varDec_ok v st :
  plain_varDec v → scoped st →
  ∃ st', run listener (walk_varDec v) st = Ok tt st' ∧ steady st st'.
Proof.
  intros [Ht He] Hsc.
  assert (∃ st1, run listener (walk_opt_expr (vd_expr v)) st = Ok tt st1 ∧
                 steady st st1 ∧
                 match vd_expr v with
                 | Some e => is_Some (type_of st1 !! expr_node e)
                 | None => True
                 end) as (st1 & Hrun & Hst & Ha).
  { destruct (vd_expr v) as [e|]; simpl.
    - by apply expr_ok.
    - exists st. split; [done|]. split; [reflexivity|done]. }
  destruct (exitVarDec_ok v st1 Ht Ha (steady_scoped _ _ Hst Hsc))
    as (st2 & Hexit).
  assert (Hall : run listener (walk_varDec v) st = Ok tt st2).
  { unfold walk_varDec.
    change (run listener (Enter (CVarDec v) :: ?l) st)
      with (run listener l st).
    apply (run_Ok_app _ _ _ _ st1); [done|].
    rewrite run_cons. simpl dispatch. by rewrite Hexit. }
  exists st2. split; [done|].
  eapply steady_Ok; [|exact Hall].
  apply static_run_steady, walk_varDec_static.
Qed.

Lemma body_ok b st :
  plain_body b → scoped st →
  ∃ st', run listener (walk_body b) st = Ok tt st' ∧ steady st st'.
Proof.
  intros [Hvs Hss] Hsc. unfold walk_body.
  assert (∃ st1, run listener (flat_map walk_varDec (varBlock b)) st
                 = Ok tt st1 ∧ steady st st1) as (st1 & Hrun1 & Hst1).
  { revert st Hsc. induction Hvs as [|v vs Hv _ IHv]; intros st Hsc; simpl.
    - exists st. split; [done|reflexivity].
    - destruct (varDec_ok v st Hv Hsc) as (st1 & Hr1 & Hs1).
      destruct (IHv st1 (steady_scoped _ _ Hs1 Hsc)) as (st2 & Hr2 & Hs2).
      exists st2. split; [by apply (run_Ok_app _ _ _ _ st1)|by etrans]. }
  assert (∃ st2, run listener (flat_map walk_stmt (block b)) st1
                 = Ok tt st2 ∧ steady st1 st2) as (st2 & Hrun2 & Hst2).
  { pose proof (steady_scoped _ _ Hst1 Hsc) as Hsc1.
    clear Hrun1 Hst1. revert st1 Hsc1.
    induction Hss as [|s ss Hs _ IHs]; intros st1 Hsc1; simpl.
    - exists st1. split; [done|reflexivity].
    - destruct (stmt_ok s Hs st1 Hsc1) as (st2 & Hr2 & Hs2).
      destruct (IHs st2 (steady_scoped _ _ Hs2 Hsc1)) as (st3 & Hr3 & Hs3).
      exists st3. split; [by apply (run_Ok_app _ _ _ _ st2)|by etrans]. }
  exists st2. split; [by apply (run_Ok_app _ _ _ _ st1)|by etrans].
Qed.

(** ** Functions and the entry block *)

Lemma run_parameterDefs ps st :
  run listener (flat_map walk_parameterDef ps) st = Ok tt st.
Proof. induction ps as [|p ps IH]; simpl; [done|exact IH]. Qed.

Lemma define_parameters_ok ps st :
  scoped st → ∃ st', define_parameters ps st = Ok tt st' ∧ scoped st'.
Proof.
  revert st. induction ps as [|p ps IH]; intros st Hsc; simpl.
  - by exists st.
  - assert (∃ st1, define_parameter p st = Ok tt st1) as (st1 & H1).
    { destruct Hsc as (h & sc & Hc & Hs).
      unfold define_parameter. unfold_monad. msimpl.
      repeat case_bool_decide; msimpl; by eexists. }
    assert (Hsc1 : scoped st1).
    { pose proof (define_parameters_keep_cursor [p] st) as [T C].
      simpl in T, C. unfold mbind, M_bind in T, C. rewrite H1 in T, C.
      simpl in T, C. destruct Hsc as (h & sc & Hc & Hs).
      destruct (same_scope_tree_lookup _ _ _ _ T Hs) as (sc' & Hs' & _).
      exists h, sc'. split; [congruence|done]. }
    destruct (IH st1 Hsc1) as (st2 & H2 & Hsc2).
    exists st2. split; [|done]. unfold mbind, M_bind. by rewrite H1.
Qed.

Lemma leave_scope_ok st :
  scoped st →
  ∃ st', (c ← self_current_scope; c' ← get_enclosing_scope c;
          set_current_scope c') st = Ok tt st'.
Proof.
  intros (h & sc & Hc & Hs). unfold_monad. msimpl. by eexists.
Qed.

Lemma flat_tree_scoped st : flat_tree 2 st → scoped st.
Proof.
  intros (G & HG & Henc & Hch & nm & h & Hh & Hc).
  destruct (Hch nm h Hh) as (_ & sc & Hs & _). by exists h, sc.
Qed.

Lemma depth_after_static evs d :
  Forall (λ ev, ¬ moves_cursor ev) evs → depth_after d evs = Some d.
Proof.
  induction 1 as [|ev evs Hev _ IH]; simpl; [done|].
  by rewrite depth_step_static.
Qed.

(** A scope tree with a child named [nm] under the global scope. *)
Lemma enter_scope_ok nm st :
  flat_tree 1 st →
  (∃ G h, scopes st !! global_scope = Some G ∧
          alist_get nm (child_scopes G) = Some h) →
  ∃ st', (c ← self_current_scope; c' ← child_scope_named c nm;
          set_current_scope c') st = Ok tt st'.
Proof.
  intros (G0 & HG0 & _ & _ & Hc) (G & h & HG & Hh). simpl in Hc.
  unfold_monad. rewrite Hc. simpl. rewrite HG. simpl. rewrite Hh.
  by eexists.
Qed.

Lemma bracket_ok (c : Ctx) (body : list Event) nm st :
  (∀ st, dispatch listener (Enter c) st
         = (c0 ← self_current_scope; c' ← child_scope_named c0 nm;
            set_current_scope c') st) →
  (∀ st, scoped st → ∃ st', dispatch listener (Exit c) st = Ok tt st') →
  moves_cursor (Enter c) → moves_cursor (Exit c) →
  depth_step 1 (Enter c) = Some 2 → depth_step 2 (Exit c) = Some 1 →
  Forall (λ ev, ¬ moves_cursor ev) body →
  (∀ st, scoped st →
     ∃ st', run listener body st = Ok tt st' ∧ steady st st') →
  flat_tree 1 st →
  (∃ G h, scopes st !! global_scope = Some G ∧
          alist_get nm (child_scopes G) = Some h) →
  ∃ st', run listener (Enter c :: body ++ [Exit c]) st = Ok tt st' ∧
         flat_tree 1 st'.
Proof.
  intros Henter Hexit Hm1 Hm2 Hd1 Hd2 Hstatic Hbody Hflat Hchild.
  destruct (enter_scope_ok nm st Hflat Hchild) as (st1 & H1).
  rewrite <- Henter in H1.
  destruct (depth_step_sound 1 _ st st1 Hflat H1) as (d1 & E1 & Hflat1).
  rewrite Hd1 in E1. simplify_eq.
  destruct (Hbody st1 (flat_tree_scoped _ Hflat1)) as (st2 & H2 & Hst2).
  destruct (depth_after_sound body 2 st1 st2 Hflat1 H2) as (d2 & E2 & Hflat2).
  rewrite depth_after_static in E2 by done. simplify_eq.
  destruct (Hexit st2 (flat_tree_scoped _ Hflat2)) as (st3 & H3).
  destruct (depth_step_sound 2 _ st2 st3 Hflat2 H3) as (d3 & E3 & Hflat3).
  rewrite Hd2 in E3. simplify_eq.
  exists st3. split; [|done].
  rewrite run_cons, H1. apply (run_Ok_app _ _ _ _ st2); [done|].
  by rewrite run_cons, H3.
Qed.

Lemma walk_body_static b :
  plain_body b → Forall (λ ev, ¬ moves_cursor ev) (walk_body b).
Proof.
  intros [Hvs Hss]. unfold walk_body. apply Forall_app_2.
  - clear Hvs. induction (varBlock b) as [|v vs IH]; [constructor|].
    change (flat_map walk_varDec (v :: vs))
      with (walk_varDec v ++ flat_map walk_varDec vs).
    apply Forall_app_2; [apply walk_varDec_static|exact IH].
  - induction Hss as [|s ss Hs _ IH]; simpl; [constructor|].
    apply Forall_app_2; [by apply walk_stmt_static|exact IH].
Qed.

Lemma walk_parameterDefs_static ps :
  Forall (λ ev, ¬ moves_cursor ev) (flat_map walk_parameterDef ps).
Proof.
  induction ps as [|p ps IH]; simpl; [constructor|].
  repeat (apply Forall_cons_2; [by intros []|]). exact IH.
Qed.

Lemma funcDef_ok f st :
  plain_body (fd_body f) → flat_tree 1 st →
  (∃ G h, scopes st !! global_scope = Some G ∧
          alist_get (fd_ID f) (child_scopes G) = Some h) →
  ∃ st', run listener (walk_funcDef f) st = Ok tt st' ∧ flat_tree 1 st'.
Proof.
  intros Hp Hflat Hchild. unfold walk_funcDef. rewrite app_assoc.
  apply (bracket_ok (CFuncDef f) _ (fd_ID f)); try done.
  - intros st1 Hsc1. simpl. unfold exitFuncDef.
    destruct (define_parameters_ok (fd_parameterDef f) st1 Hsc1)
      as (st2 & H2 & Hsc2).
    destruct (leave_scope_ok st2 Hsc2) as (st3 & H3).
    exists st3. unfold mbind at 1. unfold M_bind at 1. by rewrite H2.
  - apply Forall_app_2;
      [apply walk_parameterDefs_static|by apply walk_body_static].
  - intros st1 Hsc1. destruct (body_ok _ st1 Hp Hsc1) as (st2 & H2 & Hst2).
    exists st2. split; [|done].
    apply (run_Ok_app _ _ _ _ st1); [apply run_parameterDefs|done].
Qed.

Lemma main_ok m st :
  plain_body (main_body m) → flat_tree 1 st →
  (∃ G h, scopes st !! global_scope = Some G ∧
          alist_get "$main" (child_scopes G) = Some h) →
  ∃ st', run listener (walk_main m) st = Ok tt st' ∧ flat_tree 1 st'.
Proof.
  intros Hp Hflat Hchild. unfold walk_main.
  apply (bracket_ok (CMain m) _ "$main"); try done.
  - intros st1 Hsc1. simpl. by apply leave_scope_ok.
  - by apply walk_body_static.
  - intros st1 Hsc1. by apply body_ok.
Qed.

Lemma child_kept st1 st nm :
  same_scope_tree st1 st →
  (∃ G h, scopes st1 !! global_scope = Some G ∧
          alist_get nm (child_scopes G) = Some h) →
  ∃ G h, scopes st !! global_scope = Some G ∧
         alist_get nm (child_scopes G) = Some h.
Proof.
  intros T (G & h & HG & Hh).
  destruct (same_scope_tree_lookup _ _ _ _ T HG) as (G' & HG' & E).
  exists G', h. split; [done|].
  assert (child_scopes G' = child_scopes G) as ->
    by (unfold skeleton in E; congruence).
  done.
Qed.

Lemma run_keeps_scope_tree evs st st' :
  run listener evs st = Ok tt st' → same_scope_tree st st'.
Proof.
  intros H.
  pose proof (always_run same_scope_tree listener evs
                (λ ev _, pass2_event_keeps_scope_tree ev) st) as T.
  by rewrite H in T.
Qed.

Lemma funcDefs_ok fs st :
  Forall (λ f, plain_body (fd_body f)) fs → flat_tree 1 st →
  (∀ f, f ∈ fs →
     ∃ G h, scopes st !! global_scope = Some G ∧
            alist_get (fd_ID f) (child_scopes G) = Some h) →
  ∃ st', run listener (flat_map walk_funcDef fs) st = Ok tt st' ∧
         flat_tree 1 st' ∧ same_scope_tree st st'.
Proof.
  intros Hp. revert st.
  induction Hp as [|f fs Hf _ IH]; intros st Hflat Hch.
  - exists st. split; [done|]. split; [done|reflexivity].
  - change (flat_map walk_funcDef (f :: fs))
      with (walk_funcDef f ++ flat_map walk_funcDef fs).
    destruct (funcDef_ok f st Hf Hflat) as (st1 & H1 & Hflat1);
      [apply Hch; by left|].
    pose proof (run_keeps_scope_tree _ _ _ H1) as T1.
    destruct (IH st1 Hflat1) as (st2 & H2 & Hflat2 & T2).
    { intros g Hg. apply (child_kept st); [done|]. apply Hch. by right. }
    exists st2. split; [by apply (run_Ok_app _ _ _ _ st1)|].
    split; [done|by etrans].
Qed.

(** * The claims *)

Section claims.
Import InferTypesAndCheckConstraints.

(** C1: a return statement whose expression has the declared return type
    should log no fault.  In [func f() -> Int { return 5 }] the expression is
    annotated Int and the scope of [f] declares Int, yet Pass 2 logs one
    InvalidReturn fault against the return statement; the walk then aborts
    with [AttributeError] at the entry block, the cursor having been moved
    out of the global scope. *)
Theorem return_of_declared_type_is_faulted :
  return_type <$> scopes (final_state (analyse_script Samples.p_return_int))
                    !! 1
  = Some (Some PrimitiveType.Int) ∧
  inferred (analyse_script Samples.p_return_int) 3
  = Some (prim PrimitiveType.Int) ∧
  logged (analyse_script Samples.p_return_int)
  = [(2, Category.INVALID_RETURN)] ∧
  count_of Category.INVALID_RETURN 2
    (logged (analyse_script Samples.p_return_int)) = 1 ∧
  outcome (analyse_script Samples.p_return_int) = Some AttributeError.
Proof. vm_compute. done. Qed.

(** C2: printing an operand of type Int should log no fault.  In [print 5]
    the operand is annotated Int, yet the print statement is typed ERROR and
    one UnprintableExpression fault is logged against it. *)
Theorem print_of_int_is_faulted :
  outcome (analyse_script Samples.p_print_int) = None ∧
  inferred (analyse_script Samples.p_print_int) 3
  = Some (prim PrimitiveType.Int) ∧
  inferred (analyse_script Samples.p_print_int) 2
  = Some (prim PrimitiveType.ERROR) ∧
  logged (analyse_script Samples.p_print_int)
  = [(2, Category.UNPRINTABLE_EXPRESSION)].
Proof. vm_compute. done. Qed.

(** C3: a call with a wrong argument count should log one InvalidCall fault
    and type the call node ERROR, and a correct call should be typed with the
    return type.  The calls [f()] of [func f(a : Int) -> Int { }] and of
    [func f() -> Int { }] both abort the walk with [AttributeError]: no
    fault is logged and the call node gets no annotation. *)
Theorem call_raises_without_fault :
  (outcome (analyse_script Samples.p_call_wrong_count) = Some AttributeError ∧
   logged (analyse_script Samples.p_call_wrong_count) = [] ∧
   inferred (analyse_script Samples.p_call_wrong_count) 4 = None) ∧
  (outcome (analyse_script Samples.p_call_right) = Some AttributeError ∧
   logged (analyse_script Samples.p_call_right) = [] ∧
   inferred (analyse_script Samples.p_call_right) 4 = None).
Proof. vm_compute. done. Qed.

(** C4: a return statement should leave the current scope of Pass 2 as it
    is.  With [return] as the only statement of the entry block, the cursor
    is the scope [$main] before the exit event of the statement and the
    global scope after it. *)
Theorem return_moves_current_scope :
  walk_script Samples.p_return_in_main =
    [Enter (CScript Samples.p_return_in_main);
     Enter (CMain (main Samples.p_return_in_main));
     Enter (CStmt Samples.return_stmt)]
    ++ [Exit (CStmt Samples.return_stmt);
        Exit (CMain (main Samples.p_return_in_main));
        Exit (CScript Samples.p_return_in_main)] ∧
  current_scope
    (final_state
       (pass2_upto (walk_script Samples.p_return_in_main)
          [Enter (CScript Samples.p_return_in_main);
           Enter (CMain (main Samples.p_return_in_main));
           Enter (CStmt Samples.return_stmt)])) = Some 1 ∧
  current_scope
    (final_state
       (pass2_upto (walk_script Samples.p_return_in_main)
          [Enter (CScript Samples.p_return_in_main);
           Enter (CMain (main Samples.p_return_in_main));
           Enter (CStmt Samples.return_stmt);
           Exit (CStmt Samples.return_stmt)])) = Some global_scope ∧
  name <$> scopes (final_state (analyse_script Samples.p_return_in_main)) !! 1
  = Some "$main".
Proof. vm_compute. done. Qed.

(** C5: the symbol of a function should be defined in the scope enclosing
    its body scope, with or without a return-type annotation.  After Pass 1
    over [func f() { }] the global scope holds no symbol and the body scope
    of [f] holds the symbol [f]; with the annotation [-> Int] the symbol is
    in the global scope. *)
Theorem function_without_type_defined_in_own_scope :
  outcome (pass1 (walk_script Samples.p_func_no_type) initial_state) = None ∧
  symbols <$> scopes (final_state
                        (pass1 (walk_script Samples.p_func_no_type)
                           initial_state)) !! global_scope
  = Some [] ∧
  (λ sc, (name sc, enclosing_scope sc, symbols sc)) <$>
    scopes (final_state
              (pass1 (walk_script Samples.p_func_no_type) initial_state)) !! 1
  = Some ("f", Some global_scope,
          [("f", mkSymbol "f"
                   (TFunc (mkFunctionType [] PrimitiveType.Void)) false)]) ∧
  symbols <$> scopes (final_state
                        (pass1 (walk_script Samples.p_func_int)
                           initial_state)) !! global_scope
  = Some [("f", mkSymbol "f"
                  (TFunc (mkFunctionType [] PrimitiveType.Int)) false)].
Proof. vm_compute. done. Qed.

(** C6: a resolved variable reference should be annotated with the declared
    primitive type of the symbol.  In [var x : Int = 1  x = x] the reference
    is annotated with the [Symbol] object of [x], which is not the type Int,
    and the assignment is faulted for it. *)
Theorem variable_reference_annotated_with_symbol :
  outcome (analyse_script Samples.p_var_ref) = None ∧
  inferred (analyse_script Samples.p_var_ref) 5
  = Some (VSymbol (mkSymbol "x" (TPrim PrimitiveType.Int) false)) ∧
  inferred (analyse_script Samples.p_var_ref) 5
  ≠ Some (prim PrimitiveType.Int) ∧
  logged (analyse_script Samples.p_var_ref)
  = [(4, Category.ASSIGN_TO_WRONG_TYPE)].
Proof. vm_compute. done. Qed.

(** C7: a declaration with an unrecognised type name should log one
    AssignToWrongType fault and let the walk go on.  On [var x : Float]
    Pass 2 aborts with [KeyError] and the log stays empty. *)
Theorem unknown_declared_type_raises :
  outcome (analyse_script Samples.p_bad_type) = Some KeyError ∧
  logged (analyse_script Samples.p_bad_type) = [] ∧
  count_of Category.ASSIGN_TO_WRONG_TYPE 2
    (logged (analyse_script Samples.p_bad_type)) = 0.
Proof. vm_compute. done. Qed.

Lemma binary_operator_examples :
  analysed_as Samples.e_5_plus_3 PrimitiveType.Int [] ∧
  analysed_as Samples.e_hello_plus_world PrimitiveType.String [] ∧
  analysed_as Samples.e_5_le_3 PrimitiveType.Bool [] ∧
  analysed_as Samples.e_true_minus_5 PrimitiveType.ERROR
    [(0, Category.INVALID_BINARY_OP)] ∧
  analysed_as Samples.e_false_lt_3 PrimitiveType.ERROR
    [(0, Category.INVALID_BINARY_OP)].
Proof. vm_compute. done. Qed.

(** C8: the table of the additive and comparison operators.  With both
    operands annotated, [+] and [-] on (Int, Int) give Int, [+] on
    (String, String) gives String, [<], [<=] and [==] on (Int, Int) and [==]
    on (Bool, Bool) give Bool, each without a fault; every other combination
    gives ERROR and exactly one InvalidBinaryOp fault.  The five sample
    expressions are analysed accordingly. *)
Theorem binary_operator_table
    (st : State) (n : node) (op : string) (e0 e1 : Expr) (v0 v1 : Value)
    (H0 : type_of st !! expr_node e0 = Some v0)
    (H1 : type_of st !! expr_node e1 = Some v1) :
  ((v0 = prim PrimitiveType.Int → v1 = prim PrimitiveType.Int →
    op = "+" ∨ op = "-" →
    exitAddSub n op e0 e1 st = Ok tt (annotated st n PrimitiveType.Int)) ∧
   (v0 = prim PrimitiveType.String → v1 = prim PrimitiveType.String →
    op = "+" →
    exitAddSub n op e0 e1 st = Ok tt (annotated st n PrimitiveType.String)) ∧
   (¬ (v0 = prim PrimitiveType.Int ∧ v1 = prim PrimitiveType.Int ∧
       (op = "+" ∨ op = "-")) →
    ¬ (v0 = prim PrimitiveType.String ∧ v1 = prim PrimitiveType.String ∧
       op = "+") →
    exitAddSub n op e0 e1 st =
    Ok tt (faulted st n Category.INVALID_BINARY_OP))) ∧
  ((v0 = prim PrimitiveType.Int → v1 = prim PrimitiveType.Int →
    op = "<" ∨ op = "<=" ∨ op = "==" →
    exitCompare n op e0 e1 st = Ok tt (annotated st n PrimitiveType.Bool)) ∧
   (v0 = prim PrimitiveType.Bool → v1 = prim PrimitiveType.Bool →
    op = "==" →
    exitCompare n op e0 e1 st = Ok tt (annotated st n PrimitiveType.Bool)) ∧
   (¬ (v0 = prim PrimitiveType.Int ∧ v1 = prim PrimitiveType.Int ∧
       (op = "<" ∨ op = "<=" ∨ op = "==")) →
    ¬ (v0 = prim PrimitiveType.Bool ∧ v1 = prim PrimitiveType.Bool ∧
       op = "==") →
    exitCompare n op e0 e1 st =
    Ok tt (faulted st n Category.INVALID_BINARY_OP))) ∧
  (analysed_as Samples.e_5_plus_3 PrimitiveType.Int [] ∧
   analysed_as Samples.e_hello_plus_world PrimitiveType.String [] ∧
   analysed_as Samples.e_5_le_3 PrimitiveType.Bool [] ∧
   analysed_as Samples.e_true_minus_5 PrimitiveType.ERROR
     [(0, Category.INVALID_BINARY_OP)] ∧
   analysed_as Samples.e_false_lt_3 PrimitiveType.ERROR
     [(0, Category.INVALID_BINARY_OP)]).
Proof.
  split; [by apply exitAddSub_table|].
  split; [by apply exitCompare_table|].
  exact binary_operator_examples.
Qed.

Lemma binary_operator_table_witness :
  type_of (Samples.st_operands (prim PrimitiveType.Int)
             (prim PrimitiveType.Int)) !! 1
  = Some (prim PrimitiveType.Int) ∧
  type_of (Samples.st_operands (prim PrimitiveType.Int)
             (prim PrimitiveType.Int)) !! 2
  = Some (prim PrimitiveType.Int) ∧
  exitAddSub 0 "+" (IntLiteral 1 "5") (IntLiteral 2 "3")
    (Samples.st_operands (prim PrimitiveType.Int) (prim PrimitiveType.Int))
  = Ok tt (annotated (Samples.st_operands (prim PrimitiveType.Int)
                        (prim PrimitiveType.Int)) 0 PrimitiveType.Int).
Proof.
  split; [reflexivity|]. split; [reflexivity|].
  apply (binary_operator_table
           (Samples.st_operands (prim PrimitiveType.Int)
              (prim PrimitiveType.Int))
           0 "+" (IntLiteral 1 "5") (IntLiteral 2 "3")
           (prim PrimitiveType.Int) (prim PrimitiveType.Int)).
  - reflexivity.
  - reflexivity.
  - reflexivity.
  - reflexivity.
  - left. reflexivity.
Defined.

(** C9, as stated: the analysis of [!!37] should log exactly one
    InvalidNegation fault.  It logs two, one against the inner node [!37]
    and one against the whole expression. *)
Lemma double_negation_logs_two_faults :
  logged (analyse_expr Samples.e_not_not_37)
  = [(1, Category.INVALID_NEGATION); (0, Category.INVALID_NEGATION)] ∧
  count_of_category Category.INVALID_NEGATION
    (logged (analyse_expr Samples.e_not_not_37)) = 2 ∧
  count_of_category Category.INVALID_NEGATION
    (logged (analyse_expr Samples.e_not_not_37)) ≠ 1.
Proof. vm_compute. done. Qed.

Lemma negation_examples :
  analysed_as Samples.e_not_37 PrimitiveType.ERROR
    [(0, Category.INVALID_NEGATION)] ∧
  count_of Category.INVALID_NEGATION 0
    (logged (analyse_expr Samples.e_not_37)) = 1 ∧
  analysed_as Samples.e_not_not_37 PrimitiveType.ERROR
    [(1, Category.INVALID_NEGATION); (0, Category.INVALID_NEGATION)] ∧
  count_of Category.INVALID_NEGATION 0
    (logged (analyse_expr Samples.e_not_not_37)) = 1.
Proof. vm_compute. done. Qed.

(** C9, amended: with the operand annotated, unary [-] on Int gives Int
    and unary [!] on Bool gives Bool, each without a fault; every other
    combination gives ERROR and exactly one InvalidNegation fault against
    the node.  The analyses of [!37] and [!!37] type the whole expression
    ERROR and log exactly one InvalidNegation fault against it; for [!!37]
    the log also holds the fault of the inner node [!37]. *)
Theorem negation_table
    (st : State) (n : node) (op : string) (e : Expr) (v : Value)
    (H : type_of st !! expr_node e = Some v) :
  ((op = "-" → v = prim PrimitiveType.Int →
    exitNeg n op e st = Ok tt (annotated st n PrimitiveType.Int)) ∧
   (op = "!" → v = prim PrimitiveType.Bool →
    exitNeg n op e st = Ok tt (annotated st n PrimitiveType.Bool)) ∧
   (¬ (op = "-" ∧ v = prim PrimitiveType.Int) →
    ¬ (op = "!" ∧ v = prim PrimitiveType.Bool) →
    exitNeg n op e st = Ok tt (faulted st n Category.INVALID_NEGATION))) ∧
  (analysed_as Samples.e_not_37 PrimitiveType.ERROR
     [(0, Category.INVALID_NEGATION)] ∧
   count_of Category.INVALID_NEGATION 0
     (logged (analyse_expr Samples.e_not_37)) = 1 ∧
   analysed_as Samples.e_not_not_37 PrimitiveType.ERROR
     [(1, Category.INVALID_NEGATION); (0, Category.INVALID_NEGATION)] ∧
   count_of Category.INVALID_NEGATION 0
     (logged (analyse_expr Samples.e_not_not_37)) = 1).
Proof.
  split; [by apply exitNeg_table|]. exact negation_examples.
Qed.

Lemma negation_table_witness :
  type_of (Samples.st_operands (prim PrimitiveType.Int)
             (prim PrimitiveType.Int)) !! 1
  = Some (prim PrimitiveType.Int) ∧
  exitNeg 0 "!" (IntLiteral 1 "37")
    (Samples.st_operands (prim PrimitiveType.Int) (prim PrimitiveType.Int))
  = Ok tt (faulted (Samples.st_operands (prim PrimitiveType.Int)
                      (prim PrimitiveType.Int)) 0
             Category.INVALID_NEGATION).
Proof.
  split; [reflexivity|].
  apply (negation_table
           (Samples.st_operands (prim PrimitiveType.Int)
              (prim PrimitiveType.Int))
           0 "!" (IntLiteral 1 "37") (prim PrimitiveType.Int)).
  - reflexivity.
  - intros [[=] _].
  - intros [_ [=]].
Defined.


(** In [func f(a : Int) -> Int { print a  return 5 }] the return statement
    has moved the cursor when the definition is exited: the parameter is
    defined in the global scope, and the scope of [f] stays empty. *)
Lemma parameter_after_return_is_defined_in_global_scope :
  holds_parameter
    (final_state (analyse_script Returning.p_return_after_ref))
    global_scope "a" ∧
  scopes (final_state (analyse_script Returning.p_return_after_ref)) !! 1
  = Some (mkScope "f" (Some PrimitiveType.Int) [] [] (Some global_scope)).
Proof.
  split; [|vm_compute; reflexivity].
  eexists _, _. split; [vm_compute; reflexivity|].
  split; vm_compute; reflexivity.
Qed.

(** In [func f(a : Int) -> Int { f(1)  print a }] the call raises: the
    reference to [a] is never reached and gets no annotation. *)
Lemma parameter_reference_after_call_is_not_reached :
  outcome (analyse_script Returning.p_ref_after_call) = Some AttributeError ∧
  inferred (analyse_script Returning.p_ref_after_call) 6 = None.
Proof. vm_compute. done. Qed.

(** In [func a(a : Int) { print a }] Pass 1 has put the name of the function
    into its own scope: the reference resolves to the function symbol. *)
Lemma parameter_reference_resolves_to_function :
  inferred (analyse_script Returning.p_function_named_like_parameter) 4
  = Some (VSymbol
            (mkSymbol "a"
               (TFunc (mkFunctionType ["Int"] PrimitiveType.Void)) false)) ∧
  count_of_category Category.UNDEFINED_NAME
    (logged (analyse_script Returning.p_function_named_like_parameter)) = 0.
Proof. vm_compute. done. Qed.

(** In [func f(a : Int) { return  return  print a }] the cursor is no scope
    when the reference is exited: the handler raises. *)
Lemma parameter_reference_after_two_returns_raises :
  outcome (analyse_script Returning.p_ref_after_two_returns)
  = Some AttributeError ∧
  inferred (analyse_script Returning.p_ref_after_two_returns) 6 = None.
Proof. vm_compute. done. Qed.



End claims.

(** * Further properties *)

Section further.
Import InferTypesAndCheckConstraints.

(** X1: Pass 1, on a script whose functions have distinct names other
    than [$main] and recognised return types, returns and leaves the scope
    tree flat: the global scope has one child scope per function, in
    definition order, and the scope [$main] last; each function scope has the
    declared return type (Void without annotation), the global scope as its
    enclosing scope and no children; the symbol of a function with an
    annotation is in the global scope, that of a function without one in its
    own scope; no node is annotated and no fault is logged; the cursor is
    back at the global scope. *)
Theorem pass1_builds_scope_tree (s : Script)
    (Hnodup : NoDup (fd_ID <$> funcDefs s))
    (Hmain : "$main" ∉ fd_ID <$> funcDefs s)
    (Htypes : Forall (λ f, is_Some (declared_return_type (fd_TYPE f)))
                (funcDefs s)) :
  ∃ st G hm,
    pass1 (walk_script s) initial_state = Ok tt st ∧
    current_scope st = Some global_scope ∧
    type_of st = ∅ ∧ error_log st = [] ∧
    scopes st !! global_scope = Some G ∧
    enclosing_scope G = None ∧
    (child_scopes G).*1 = (fd_ID <$> funcDefs s) ++ ["$main"] ∧
    (∀ f, f ∈ funcDefs s → function_scoped st G f) ∧
    alist_get "$main" (child_scopes G) = Some hm ∧
    scopes st !! hm
    = Some (mkScope "$main" (Some PrimitiveType.Void) [] []
              (Some global_scope)).
Proof. exact (pass1_walk_script s Hnodup Hmain Htypes). Qed.

Lemma pass1_builds_scope_tree_witness :
  ∃ st G hm,
    pass1 (walk_script Samples.p_func_int) initial_state = Ok tt st ∧
    scopes st !! global_scope = Some G ∧
    (child_scopes G).*1 = ["f"; "$main"] ∧
    alist_get "$main" (child_scopes G) = Some hm.
Proof.
  destruct (pass1_builds_scope_tree Samples.p_func_int)
    as (st & G & hm & Hrun & _ & _ & _ & HG & _ & Hch & _ & Hm & _).
  - vm_compute. apply NoDup_singleton.
  - vm_compute. intros H. apply list_elem_of_singleton in H. discriminate H.
  - repeat constructor. by eexists.
  - exists st, G, hm. repeat split; assumption.
Defined.

(** X2: Pass 1 never annotates a node and never logs a fault, whatever
    the events and the state it starts from, and whether it returns or
    raises: its only call of [error_log.add] lies behind an expression that
    raises. *)
Theorem pass1_never_annotates_or_logs (evs : list Event) (st : State) :
  type_of (final_state (pass1 evs st)) = type_of st ∧
  error_log (final_state (pass1 evs st)) = error_log st.
Proof.
  revert st.
  change (always same_annotations_and_log
            (pass DefineScopesAndSymbols.listener evs)).
  apply always_pass; try apply _.
  - intros c. unfold always. by intros st'.
  - intros ev _. apply pass1_event_keeps_annotations.
Qed.

(** X3: for a function definition whose return-type annotation is not
    Int, Bool or String, Pass 1 [enterFuncDef] does nothing and Pass 1
    [exitFuncDef] raises AttributeError while it builds the message of the
    InvalidReturn fault (a function-definition context has no [expr]); the
    analysis of any tree with such a definition aborts and its log stays
    empty. *)
Theorem unknown_return_type_aborts_analysis
    (evs : list Event) (f : FuncDef) (ty : string)
    (Hexit : Exit (CFuncDef f) ∈ evs)
    (Hty : fd_TYPE f = Some ty)
    (Hunknown : declared_return_type (Some ty) = None) :
  (∀ st, DefineScopesAndSymbols.enterFuncDef f st = Ok tt st ∧
         DefineScopesAndSymbols.exitFuncDef f st = Raise AttributeError st) ∧
  outcome (do_semantic_analysis evs) ≠ None ∧
  error_log (final_state (do_semantic_analysis evs)) = [].
Proof.
  split; [intros st; by apply (pass1_exitFuncDef_unknown_type f ty)|].
  assert (∃ e st1, pass1 evs initial_state = Raise e st1) as (e & st1 & H1).
  { unfold pass1, pass.
    change ((set_current_scope (Some global_scope);; ?m) initial_state)
      with (m initial_state).
    generalize initial_state as st.
    apply list_elem_of_split in Hexit as (pre & post & ->). intros st.
    rewrite run_app.
    destruct (run DefineScopesAndSymbols.listener pre st) as [[] st1|e st1];
      [|by eauto].
    rewrite run_cons. simpl dispatch.
    destruct (pass1_exitFuncDef_unknown_type f ty st1 Hty Hunknown)
      as [_ ->].
    by eauto. }
  pose proof (pass1_event_keeps_annotations) as Hk.
  assert (error_log st1 = []) as Hlog.
  { pose proof (always_pass same_annotations_and_log
                  DefineScopesAndSymbols.listener evs) as Hp.
    destruct (Hp (λ c st', conj eq_refl eq_refl)
                (λ ev _, pass1_event_keeps_annotations ev) initial_state)
      as [_ Hl].
    fold pass1 in Hl. by rewrite H1 in Hl. }
  unfold do_semantic_analysis. unfold mbind, M_bind. by rewrite H1.
Qed.

Lemma unknown_return_type_aborts_analysis_witness :
  outcome (analyse_script Cases.p_func_float) ≠ None ∧
  error_log (final_state (analyse_script Cases.p_func_float)) = [].
Proof.
  apply (unknown_return_type_aborts_analysis
           (walk_script Cases.p_func_float) Cases.f_float "Float").
  - vm_compute.
    repeat (first [by left|right]).
  - reflexivity.
  - reflexivity.
Defined.

(** X4: the walk of an expression without calls, whose nodes are
    distinct, returns from every state whose cursor is a scope, and is
    bottom-up inference: every subexpression is annotated with the value
    computed from the annotations of its operands, an operator node or
    variable reference is faulted exactly when it is annotated ERROR
    (parentheses pass ERROR on without a fault), the faults are logged
    operands first, and nothing else changes.  The analysis of such an
    expression on its own ends normally with that annotation and that
    log. *)
Theorem expression_is_inferred_bottom_up (e : Expr)
    (Hfree : call_free e) (Hnodes : NoDup (expr_nodes e)) :
  (∀ st h sc, current_scope st = Some h → scopes st !! h = Some sc →
     ∃ st', run listener (walk_expr e) st = Ok tt st' ∧
            inferred_bottom_up sc e st st') ∧
  ∃ st', analyse_expr e = Ok tt st' ∧
         type_of st' !! expr_node e
         = Some (inferred_value (mkScope "$global" None [] [] None) e) ∧
         error_log st'
         = expected_faults (mkScope "$global" None [] [] None) e.
Proof.
  split; [intros st h sc Hc Hs; by apply (expression_walk e st h sc)|].
  destruct (expression_walk e initial_state global_scope
              (mkScope "$global" None [] [] None) Hfree Hnodes)
    as (st' & Hrun & _ & _ & Hl & Ha & _); [done|done|].
  exists st'. split.
  - unfold analyse_expr, do_semantic_analysis, pass1, pass2, pass.
    unfold mbind at 1 2 3. unfold M_bind.
    change (set_current_scope (Some global_scope) initial_state)
      with (Ok tt initial_state).
    lazy beta iota. rewrite pass1_skips_expression. exact Hrun.
  - split; [apply Ha, subexprs_self|exact Hl].
Qed.

Lemma expression_is_inferred_bottom_up_witness :
  ∃ st', analyse_expr Cases.e_not_3_lt_5 = Ok tt st' ∧
         type_of st' !! 0 = Some (prim PrimitiveType.Bool) ∧
         error_log st' = [].
Proof.
  destruct (expression_is_inferred_bottom_up Cases.e_not_3_lt_5)
    as (_ & st' & Hrun & Ha & Hl).
  - vm_compute. done.
  - unfold expr_nodes. simpl. compute_done.
  - exists st'. split; [exact Hrun|]. split; [exact Ha|exact Hl].
Defined.

(** X5: with both operands annotated, [exitMulDiv] types the node Int
    when both are Int and the operator is [*] or [/], and otherwise types it
    ERROR and logs exactly one InvalidBinaryOp fault against it. *)
Theorem multiplicative_operator_table
    (st : State) (n : node) (op : string) (e0 e1 : Expr) (v0 v1 : Value)
    (H0 : type_of st !! expr_node e0 = Some v0)
    (H1 : type_of st !! expr_node e1 = Some v1) :
  (v0 = prim PrimitiveType.Int → v1 = prim PrimitiveType.Int →
   op = "*" ∨ op = "/" →
   exitMulDiv n op e0 e1 st = Ok tt (annotated st n PrimitiveType.Int)) ∧
  (¬ (v0 = prim PrimitiveType.Int ∧ v1 = prim PrimitiveType.Int ∧
      (op = "*" ∨ op = "/")) →
   exitMulDiv n op e0 e1 st =
   Ok tt (faulted st n Category.INVALID_BINARY_OP)).
Proof.
  unfold exitMulDiv, both_operands, annotated, faulted.
  unfold_monad. unfold py_eq.
  repeat split; intros; simplify_eq/=;
    repeat (rewrite ?H0, ?H1; simpl; try case_bool_decide; simplify_eq/=);
    try done; naive_solver.
Qed.

Lemma multiplicative_operator_table_witness :
  exitMulDiv 0 "*" (IntLiteral 1 "5") (IntLiteral 2 "3")
    (Samples.st_operands (prim PrimitiveType.Int) (prim PrimitiveType.Int))
  = Ok tt (annotated (Samples.st_operands (prim PrimitiveType.Int)
                        (prim PrimitiveType.Int)) 0 PrimitiveType.Int) ∧
  exitMulDiv 0 "*" (BoolLiteral 1 "true") (IntLiteral 2 "3")
    (Samples.st_operands (prim PrimitiveType.Bool) (prim PrimitiveType.Int))
  = Ok tt (faulted (Samples.st_operands (prim PrimitiveType.Bool)
                      (prim PrimitiveType.Int)) 0
             Category.INVALID_BINARY_OP).
Proof.
  split.
  - apply (multiplicative_operator_table
             (Samples.st_operands (prim PrimitiveType.Int)
                (prim PrimitiveType.Int))
             0 "*" (IntLiteral 1 "5") (IntLiteral 2 "3")
             (prim PrimitiveType.Int) (prim PrimitiveType.Int)).
    + reflexivity.
    + reflexivity.
    + reflexivity.
    + reflexivity.
    + left. reflexivity.
  - apply (multiplicative_operator_table
             (Samples.st_operands (prim PrimitiveType.Bool)
                (prim PrimitiveType.Int))
             0 "*" (BoolLiteral 1 "true") (IntLiteral 2 "3")
             (prim PrimitiveType.Bool) (prim PrimitiveType.Int)).
    + reflexivity.
    + reflexivity.
    + intros (H & _). discriminate H.
Defined.

(** X6: an operand annotated with anything but Int, Bool or String (ERROR,
    or the Symbol that a resolved variable reference is annotated with) makes
    every binary operator type its node ERROR with one InvalidBinaryOp fault,
    and every negation of it ERROR with one InvalidNegation fault. *)
Theorem inoperable_operand_faults
    (st : State) (n : node) (op : string) (e0 e1 : Expr) (v0 v1 : Value)
    (H0 : type_of st !! expr_node e0 = Some v0)
    (H1 : type_of st !! expr_node e1 = Some v1)
    (Hv : ¬ operable v0 ∨ ¬ operable v1) :
  exitMulDiv n op e0 e1 st = Ok tt (faulted st n Category.INVALID_BINARY_OP) ∧
  exitAddSub n op e0 e1 st = Ok tt (faulted st n Category.INVALID_BINARY_OP) ∧
  exitCompare n op e0 e1 st = Ok tt (faulted st n Category.INVALID_BINARY_OP) ∧
  (¬ operable v0 →
   exitNeg n op e0 st = Ok tt (faulted st n Category.INVALID_NEGATION)).
Proof.
  unfold operable in *.
  unfold exitMulDiv, exitAddSub, exitCompare, exitNeg, both_operands, faulted.
  unfold_monad. unfold py_eq.
  repeat split; intros;
    repeat (rewrite ?H0, ?H1, ?lookup_insert_eq; simpl;
            try case_bool_decide; simplify_eq/=);
    rewrite ?insert_insert_eq; try done; naive_solver.
Qed.

Lemma inoperable_operand_faults_witness :
  exitAddSub 0 "+" (Variable_ 1 "x") (IntLiteral 2 "1")
    (Samples.st_operands
       (VSymbol (mkSymbol "x" (TPrim PrimitiveType.Int) false))
       (prim PrimitiveType.Int))
  = Ok tt (faulted
             (Samples.st_operands
                (VSymbol (mkSymbol "x" (TPrim PrimitiveType.Int) false))
                (prim PrimitiveType.Int))
             0 Category.INVALID_BINARY_OP).
Proof.
  destruct (inoperable_operand_faults
              (Samples.st_operands
                 (VSymbol (mkSymbol "x" (TPrim PrimitiveType.Int) false))
                 (prim PrimitiveType.Int))
              0 "+" (Variable_ 1 "x") (IntLiteral 2 "1")
              (VSymbol (mkSymbol "x" (TPrim PrimitiveType.Int) false))
              (prim PrimitiveType.Int))
    as (_ & Hadd & _).
  - reflexivity.
  - reflexivity.
  - left. intros [H|[H|H]]; discriminate H.
  - exact Hadd.
Defined.

(** X7: [exitWhile] and [exitIf] are the same check: a condition
    annotated Bool changes nothing; any other annotation types the statement
    node ERROR and logs exactly one ConditionNotBool fault against it. *)
Theorem condition_check
    (st : State) (n : node) (e : Expr) (v : Value)
    (H : type_of st !! expr_node e = Some v) :
  exitWhile n e st = exitIf n e st ∧
  (v = prim PrimitiveType.Bool → exitIf n e st = Ok tt st) ∧
  (v ≠ prim PrimitiveType.Bool →
   exitIf n e st = Ok tt (faulted st n Category.CONDITION_NOT_BOOL)).
Proof.
  unfold exitWhile, exitIf, faulted. unfold_monad. msimpl.
  unfold py_ne, py_eq. split; [done|].
  split; intros; case_bool_decide; simplify_eq/=; try done.
Qed.

Lemma condition_check_witness :
  exitWhile 0 (IntLiteral 1 "5")
    (Samples.st_operands (prim PrimitiveType.Int) (prim PrimitiveType.Int))
  = Ok tt (faulted (Samples.st_operands (prim PrimitiveType.Int)
                      (prim PrimitiveType.Int)) 0
             Category.CONDITION_NOT_BOOL).
Proof.
  destruct (condition_check
              (Samples.st_operands (prim PrimitiveType.Int)
                 (prim PrimitiveType.Int))
              0 (IntLiteral 1 "5") (prim PrimitiveType.Int))
    as (Hsame & _ & Hfault).
  - reflexivity.
  - rewrite Hsame. apply Hfault. discriminate.
Defined.

(** X8: [exitAssignment] looks the name up in the current scope only: a
    name it does not hold types the statement ERROR with one UndefinedName
    fault; for a name it holds, a right-hand side annotated with the declared
    type changes nothing, any other annotation types the statement ERROR with
    one AssignToWrongType fault, and a right-hand side without annotation
    raises KeyError. *)
Theorem assignment_check
    (st : State) (n : node) (ID : string) (e : Expr) (h : handle) (sc : Scope)
    (Hc : current_scope st = Some h) (Hs : scopes st !! h = Some sc) :
  (alist_get ID (symbols sc) = None →
   exitAssignment n ID e st = Ok tt (faulted st n Category.UNDEFINED_NAME)) ∧
  (∀ s, alist_get ID (symbols sc) = Some s →
     type_of st !! expr_node e = None →
     exitAssignment n ID e st = Raise KeyError st) ∧
  (∀ s v, alist_get ID (symbols sc) = Some s →
     type_of st !! expr_node e = Some v →
     (v = VType (sym_type s) → exitAssignment n ID e st = Ok tt st) ∧
     (v ≠ VType (sym_type s) →
      exitAssignment n ID e st =
      Ok tt (faulted st n Category.ASSIGN_TO_WRONG_TYPE))).
Proof.
  unfold exitAssignment, faulted. unfold_monad.
  split; [intros Hr; by msimpl|]. split.
  - intros s Hr Ht. by msimpl.
  - intros s v Hr Ht. msimpl. unfold py_ne, py_eq.
    split; intros; case_bool_decide; simplify_eq/=; try done.
    by rewrite Hc.
Qed.

Lemma assignment_check_witness :
  exitAssignment 3 "x" (IntLiteral 4 "5")
    (Cases.st_in_scope Cases.main_with_x {[ 4 := prim PrimitiveType.Int ]})
  = Ok tt (Cases.st_in_scope Cases.main_with_x
             {[ 4 := prim PrimitiveType.Int ]}) ∧
  exitAssignment 3 "x" (BoolLiteral 4 "true")
    (Cases.st_in_scope Cases.main_with_x {[ 4 := prim PrimitiveType.Bool ]})
  = Ok tt (faulted (Cases.st_in_scope Cases.main_with_x
                      {[ 4 := prim PrimitiveType.Bool ]}) 3
             Category.ASSIGN_TO_WRONG_TYPE).
Proof.
  split.
  - destruct (assignment_check
                (Cases.st_in_scope Cases.main_with_x
                   {[ 4 := prim PrimitiveType.Int ]})
                3 "x" (IntLiteral 4 "5") 1 Cases.main_with_x)
      as (_ & _ & Hsome).
    + reflexivity.
    + reflexivity.
    + apply (Hsome (mkSymbol "x" (TPrim PrimitiveType.Int) false)
               (prim PrimitiveType.Int)); reflexivity.
  - destruct (assignment_check
                (Cases.st_in_scope Cases.main_with_x
                   {[ 4 := prim PrimitiveType.Bool ]})
                3 "x" (BoolLiteral 4 "true") 1 Cases.main_with_x)
      as (_ & _ & Hsome).
    + reflexivity.
    + reflexivity.
    + apply (Hsome (mkSymbol "x" (TPrim PrimitiveType.Int) false)
               (prim PrimitiveType.Bool)); [reflexivity|reflexivity|].
      discriminate.
Defined.

(** X9: a declaration of a new name with type Int, String or Bool
    defines the symbol in the current scope before the initializer is
    checked, so that it resolves locally afterwards: without initializer, or
    with one annotated with the declared type, nothing else changes; with
    one annotated otherwise, one AssignToWrongType fault is logged against
    the declaration and the symbol stays defined; with one that has no
    annotation, KeyError is raised after the symbol was defined. *)
Theorem declaration_defines_symbol
    (st : State) (v : VarDec) (h : handle) (sc : Scope) (t : PrimitiveType.t)
    (Hc : current_scope st = Some h) (Hs : scopes st !! h = Some sc)
    (Hr : alist_get (vd_ID v) (symbols sc) = None)
    (Ht : primitive_named (vd_TYPE v) = Some t) :
  let s := mkSymbol (vd_ID v) (TPrim t) false in
  let st1 := symbol_defined st h sc s in
  resolve_locally (Some h) (vd_ID v) st1 = Ok (Some s) st1 ∧
  (vd_expr v = None → exitVarDec v st = Ok tt st1) ∧
  (∀ e, vd_expr v = Some e → type_of st !! expr_node e = None →
     exitVarDec v st = Raise KeyError st1) ∧
  (∀ e w, vd_expr v = Some e → type_of st !! expr_node e = Some w →
     (w = prim t → exitVarDec v st = Ok tt st1) ∧
     (w ≠ prim t →
      exitVarDec v st =
      Ok tt (fault_logged st1 (vd_node v) Category.ASSIGN_TO_WRONG_TYPE))).
Proof.
  intros s st1. subst st1.
  assert (Hget : alist_get (vd_ID v)
                   (alist_set (vd_ID v) s (symbols sc)) = Some s)
    by apply alist_get_set_eq.
  subst s. unfold symbol_defined. simpl. split.
  { unfold resolve_locally. unfold_monad. simpl.
    rewrite lookup_insert_eq. simpl. by rewrite Hget. }
  unfold exitVarDec, primitive_named, fault_logged in *. unfold_monad.
  destruct v as [vn vid vty ve]; simpl in *.
  repeat case_bool_decide; simplify_eq/=.
  all: repeat split; intros; simplify_eq/=;
    repeat (progress (msimpl; rewrite ?lookup_insert_eq, ?Hget; simpl));
    rewrite ?Hc; try done.
  all: unfold py_ne, py_eq, prim in *; case_bool_decide; simplify_eq/=;
    rewrite ?Hc; done.
Qed.

Lemma declaration_defines_symbol_witness :
  exitVarDec (mkVarDec 2 "x" "Bool" (Some (IntLiteral 3 "5")))
    (Cases.st_in_scope Cases.scope_of_f {[ 3 := prim PrimitiveType.Int ]})
  = Ok tt (fault_logged
             (symbol_defined
                (Cases.st_in_scope Cases.scope_of_f
                   {[ 3 := prim PrimitiveType.Int ]})
                1 Cases.scope_of_f
                (mkSymbol "x" (TPrim PrimitiveType.Bool) false))
             2 Category.ASSIGN_TO_WRONG_TYPE).
Proof.
  destruct (declaration_defines_symbol
              (Cases.st_in_scope Cases.scope_of_f
                 {[ 3 := prim PrimitiveType.Int ]})
              (mkVarDec 2 "x" "Bool" (Some (IntLiteral 3 "5")))
              1 Cases.scope_of_f PrimitiveType.Bool)
    as (_ & _ & _ & Hinit).
  - reflexivity.
  - reflexivity.
  - reflexivity.
  - reflexivity.
  - apply (Hinit (IntLiteral 3 "5") (prim PrimitiveType.Int));
      [reflexivity|reflexivity|discriminate].
Defined.

(** X10: a declaration of a name that the current scope already holds
    logs exactly one DuplicateName fault against the declaration and changes
    nothing else: the declared type name is not looked at, the initializer is
    not checked and the earlier symbol is kept. *)
Theorem duplicate_declaration
    (st : State) (v : VarDec) (h : handle) (sc : Scope) (s : Symbol)
    (Hc : current_scope st = Some h) (Hs : scopes st !! h = Some sc)
    (Hr : alist_get (vd_ID v) (symbols sc) = Some s) :
  exitVarDec v st = Ok tt (fault_logged st (vd_node v) Category.DUPLICATE_NAME).
Proof. unfold exitVarDec, fault_logged. unfold_monad. by msimpl. Qed.

Lemma duplicate_declaration_witness :
  exitVarDec (mkVarDec 2 "x" "Bool" None)
    (Cases.st_in_scope Cases.main_with_x ∅)
  = Ok tt (fault_logged (Cases.st_in_scope Cases.main_with_x ∅) 2
             Category.DUPLICATE_NAME).
Proof.
  apply (duplicate_declaration
           (Cases.st_in_scope Cases.main_with_x ∅)
           (mkVarDec 2 "x" "Bool" None) 1 Cases.main_with_x
           (mkSymbol "x" (TPrim PrimitiveType.Int) false)).
  - reflexivity.
  - reflexivity.
  - reflexivity.
Defined.

(** X11: [exitReturn] with the cursor at a scope: a return statement
    without expression logs one InvalidReturn fault exactly when the return
    type of the scope is not Void; one with an expression logs one
    InvalidReturn fault whenever the scope does not return Int or the
    expression is annotated, and raises KeyError when the scope returns Int
    and the expression has no annotation; whenever it returns, the cursor has
    moved to the enclosing scope. *)
Theorem return_statement_behaviour
    (st : State) (n : node) (h : handle) (sc : Scope)
    (Hc : current_scope st = Some h) (Hs : scopes st !! h = Some sc) :
  (exitReturn n None st =
   Ok tt (cursor_at
            (if bool_decide (return_type sc = Some PrimitiveType.Void)
             then st else fault_logged st n Category.INVALID_RETURN)
            (enclosing_scope sc))) ∧
  (∀ e, return_type sc ≠ Some PrimitiveType.Int ∨
        is_Some (type_of st !! expr_node e) →
     exitReturn n (Some e) st =
     Ok tt (cursor_at (fault_logged st n Category.INVALID_RETURN)
              (enclosing_scope sc))) ∧
  (∀ e, return_type sc = Some PrimitiveType.Int →
        type_of st !! expr_node e = None →
     exitReturn n (Some e) st = Raise KeyError st).
Proof.
  unfold exitReturn, return_matches, cursor_at, fault_logged.
  unfold_monad. unfold py_eq, prim. split; [|split].
  - msimpl. destruct (return_type sc) as [[]|]; simpl; by msimpl.
  - intros e [Hrt|[v Hv]]; msimpl;
      destruct (return_type sc) as [[]|]; simpl; msimpl; try done;
      destruct (type_of st !! expr_node e) eqn:Ht; msimpl;
      repeat (case_bool_decide; simplify_eq/=; msimpl); done.
  - intros e Hrt Ht.
    repeat (progress (msimpl; rewrite ?Hrt; simpl)). done.
Qed.

Lemma return_statement_behaviour_witness :
  exitReturn 2 None (Cases.st_in_scope Cases.scope_of_f ∅)
  = Ok tt (cursor_at
             (fault_logged (Cases.st_in_scope Cases.scope_of_f ∅) 2
                Category.INVALID_RETURN)
             (Some global_scope)).
Proof.
  destruct (return_statement_behaviour
              (Cases.st_in_scope Cases.scope_of_f ∅) 2 1 Cases.scope_of_f)
    as (Hbare & _).
  - reflexivity.
  - reflexivity.
  - exact Hbare.
Defined.

(** X12: the analysis of any tree that contains a function call never
    ends normally: Pass 2 raises when the call is exited, if not before. *)
Theorem analysis_aborts_on_call
    (evs : list Event) (n : node) (ID : string) (args : list Expr)
    (Hcall : Exit (CExpr (FuncCall n ID args)) ∈ evs) :
  outcome (do_semantic_analysis evs) ≠ None ∧
  ∀ st, outcome (pass2 evs st) ≠ None.
Proof.
  assert (H2 : ∀ st, outcome (pass2 evs st) ≠ None).
  { intros st. unfold pass2, pass. unfold_monad. simpl.
    by apply run_aborts_on_call with n ID args. }
  split; [|exact H2].
  unfold do_semantic_analysis. unfold mbind, M_bind.
  destruct (pass1 evs initial_state) as [[] st1|e st1]; [apply H2|done].
Qed.

Lemma analysis_aborts_on_call_witness :
  outcome (analyse_script Cases.p_test_funcDef_returning_bool) ≠ None.
Proof.
  destruct (analysis_aborts_on_call
              (walk_script Cases.p_test_funcDef_returning_bool) 12 "f" [])
    as [Habort _].
  - vm_compute.
    repeat (first [by left|right]).
  - exact Habort.
Defined.

(** X13: on a script that Pass 1 accepts, a return statement anywhere in
    the body of a function makes the analysis abort: the return statement and
    the exit of the definition both move the cursor outwards, so that the
    next definition or the entry block is entered with no scope. *)
Theorem return_in_function_aborts_analysis (s : Script) (f : FuncDef)
    (n : node) (e : option Expr)
    (Hnodup : NoDup (fd_ID <$> funcDefs s))
    (Hmain : "$main" ∉ fd_ID <$> funcDefs s)
    (Htypes : Forall (λ f, is_Some (declared_return_type (fd_TYPE f)))
                (funcDefs s))
    (Hf : f ∈ funcDefs s)
    (Hret : Exit (CStmt (Return n e)) ∈ walk_body (fd_body f)) :
  outcome (analyse_script s) ≠ None.
Proof.
  destruct (pass1_leaves_flat_tree s Hnodup Hmain Htypes)
    as (st1 & Hrun & Hflat).
  unfold analyse_script, do_semantic_analysis.
  unfold mbind at 1. unfold M_bind. rewrite Hrun.
  unfold pass2, pass.
  destruct ((set_current_scope (Some global_scope);;
             run listener (walk_script s)) st1) as [[] st2|ex st2] eqn:E;
    [|done].
  exfalso. apply bind_Ok in E as ([] & st1' & E1 & E2).
  assert (flat_tree 1 st1') as Hflat'.
  { unfold_monad. simplify_eq.
    destruct Hflat as (G & HG & Henc & Hch & Hd). by exists G. }
  destruct (depth_after_sound _ 1 _ _ Hflat' E2) as (d' & Hd' & _).
  change (depth_after 1
            (flat_map walk_funcDef (funcDefs s) ++ walk_main (main s)
             ++ [Exit (CScript s)]) = Some d') in Hd'.
  by rewrite (depth_after_returning_function _ _ _ _ f n e) in Hd'.
Qed.

Lemma return_in_function_aborts_analysis_witness :
  outcome (analyse_script Samples.p_return_int) ≠ None.
Proof.
  apply (return_in_function_aborts_analysis Samples.p_return_int
           (mkFuncDef 1 "f" [] (Some "Int")
              (mkBody [] [Samples.return_stmt_5]))
           2 (Some (IntLiteral 3 "5"))).
  - vm_compute. apply NoDup_singleton.
  - vm_compute. intros H. apply list_elem_of_singleton in H. done.
  - repeat constructor. by eexists.
  - by left.
  - vm_compute. do 3 right. by left.
Defined.

(** X14: on a script that Pass 1 accepts, without function calls and
    return statements and with declared types Int, String or Bool only, the
    analysis ends normally with the cursor back at the global scope. *)
Theorem plain_script_is_analysed (s : Script)
    (Hnodup : NoDup (fd_ID <$> funcDefs s))
    (Hmain : "$main" ∉ fd_ID <$> funcDefs s)
    (Htypes : Forall (λ f, is_Some (declared_return_type (fd_TYPE f)))
                (funcDefs s))
    (Hfuncs : Forall (λ f, plain_body (fd_body f)) (funcDefs s))
    (Hentry : plain_body (main_body (main s))) :
  ∃ st', analyse_script s = Ok tt st' ∧
         current_scope st' = Some global_scope.
Proof.
  destruct (pass1_walk_script s Hnodup Hmain Htypes)
    as (st1 & G & hm & Hrun1 & Hc1 & _ & _ & HG & Henc & Hch & Hfs & Hm & Hsm).
  destruct (pass1_leaves_flat_tree s Hnodup Hmain Htypes)
    as (st1' & Hrun1' & Hflat).
  rewrite Hrun1 in Hrun1'. simplify_eq.
  destruct (funcDefs_ok (funcDefs s) st1' Hfuncs Hflat)
    as (st2 & H2 & Hflat2 & T2).
  { intros f Hf. destruct (Hfs f Hf) as (h & sc & Hh & _). by exists G, h. }
  destruct (main_ok (main s) st2 Hentry Hflat2) as (st3 & H3 & Hflat3).
  { apply (child_kept st1'); [done|]. by exists G, hm. }
  exists st3. split.
  - unfold analyse_script, do_semantic_analysis.
    unfold mbind at 1. unfold M_bind. rewrite Hrun1.
    unfold pass2, pass. unfold mbind at 1. unfold M_bind.
    assert (set_current_scope (Some global_scope) st1' = Ok tt st1') as ->.
    { unfold_monad. destruct st1'. simpl in *. by rewrite Hc1. }
    unfold walk_script. rewrite run_cons. simpl dispatch.
    unfold mret, M_ret. lazy beta iota.
    apply (run_Ok_app _ _ _ _ st2); [done|].
    by apply (run_Ok_app _ _ _ _ st3).
  - by destruct Hflat3 as (_ & _ & _ & _ & Hc).
Qed.

Lemma plain_script_is_analysed_witness :
  ∃ st', analyse_script Scripts.p_test_simple_var_dec = Ok tt st' ∧
         current_scope st' = Some global_scope.
Proof.
  apply (plain_script_is_analysed Scripts.p_test_simple_var_dec).
  - vm_compute. apply NoDup_nil_2.
  - vm_compute. apply not_elem_of_nil.
  - constructor.
  - constructor.
  - split; repeat constructor. by eexists.
Defined.

(** X15: Pass 2 only appends to the log: the log it starts with is a
    prefix of the log it ends with, also when the walk is aborted by an
    exception. *)
Theorem pass2_log_is_append_only (evs : list Event) (st : State) :
  error_log st `prefix_of` error_log (final_state (pass2 evs st)).
Proof.
  revert st. change (always log_extends (pass listener evs)).
  apply always_pass; try apply _.
  - intros c. unfold always, log_extends. intros st'. simpl. reflexivity.
  - intros ev _. apply event_extends_log. by right.
Qed.

(** X16: Pass 2 creates and removes no scope and changes no name, return
    type, child list or enclosing scope of a scope, and it removes no symbol:
    it only adds symbols or replaces a symbol by one of the same name. *)
Theorem pass2_keeps_scope_tree (evs : list Event) (st : State) :
  same_scope_tree st (final_state (pass2 evs st)) ∧
  symbols_kept st (final_state (pass2 evs st)).
Proof.
  split; revert st.
  - change (always same_scope_tree (pass listener evs)).
    apply always_pass; try apply _.
    + intros c. unfold always. by intros st'.
    + intros ev _. apply pass2_event_keeps_scope_tree.
  - change (always symbols_kept (pass listener evs)).
    apply always_pass; try apply _.
    + intros c. unfold always. intros st' h sc nm Hs Hn. by exists sc.
    + intros ev _. apply pass2_event_keeps_symbols.
Qed.

(** X17: Pass 2 annotates and faults only nodes whose exit event is
    among the events walked; every other entry of the annotation map is as
    before, also when the walk is aborted. *)
Theorem pass2_touches_only_exited_nodes (evs : list Event) (st : State) :
  touches_only (exited evs) st (final_state (pass2 evs st)).
Proof.
  revert st.
  change (always (touches_only (exited evs)) (pass listener evs)).
  apply always_pass; try apply _.
  - intros c. unfold always. intros st'. by apply touches_only_same.
  - intros ev Hev. unfold always. intros st'.
    eapply touches_only_mono; [|apply pass2_event_touches_exited].
    intros n (c & Hc & ->). apply list_elem_of_singleton in Hc as <-.
    by exists c.
Qed.

End further.
